(** * Friends-Bets: the scoring and aggregation engine of nfl_betting_tracker.py

    A shallow embedding of the business-logic functions of
    [src/nfl_betting_tracker.py] ([american_profit], [bet_points],
    [weekly_points], [season_standings], [cumulative_by_week]) and the
    properties of them that the specification states.

    Conventions of the embedding.
    - A Python [int] is a [Z].
    - A Python [float] is read as an exact rational number, a canonical
      [Qc]: the specification speaks of reals, and the source's own tests
      compare up to a tolerance.  The rounding errors of binary floating
      point are outside the model; the one exception that the range of
      floats adds to the odds converter is modelled in [FloatRange].
    - A Python exception is a value [Raise e] of the result type [py].
    - A pandas DataFrame is a list of rows (a record per row) together with
      the optional computed column the aggregators attach to it. *)

From Stdlib Require Import ZArith QArith Qcanon Qround List String Bool Lia Lqa.
From Stdlib Require Import Permutation Sorted.
From Stdlib Require OrderedTypeEx.
Import ListNotations.

Local Open Scope Z_scope.

(** ** Exceptions *)

(** The exceptions the modelled code can raise: the two of true division,
    and the one with which a Streamlit widget refuses its arguments. *)
Inductive PyError : Type :=
| ZeroDivisionError
| OverflowError
| StreamlitAPIException.

Inductive py (A : Type) : Type :=
| Ok (a : A)
| Raise (e : PyError).

Arguments Ok {A} a.
Arguments Raise {A} e.

Definition bind {A B : Type} (m : py A) (k : A -> py B) : py B :=
  match m with
  | Ok a => k a
  | Raise e => Raise e
  end.

Notation "x <- m ;; k" := (bind m (fun x => k))
  (at level 61, m at next level, right associativity).

(** ** Numbers *)

Definition Z2Qc (z : Z) : Qc := Q2Qc (inject_Z z).

(** [a / b] on two Python ints, read over the reals: true division, which
    raises [ZeroDivisionError] when the divisor is zero.  (The exception
    it has on quotients beyond the range of floats is in [FloatRange]
    below.) *)
Definition truediv (a b : Z) : py Qc :=
  if b =? 0 then Raise ZeroDivisionError
  else Ok (Z2Qc a / Z2Qc b)%Qc.

(** ** Business logic: odds converter and scoring rule *)

(** [american_profit(odds, stake)], lines 20-34. *)
Definition american_profit (odds : Z) (stake : Qc) : py Qc :=
  if 0 <? odds then
    q <- truediv odds 100 ;; Ok (stake * q)%Qc
  else
    q <- truediv 100 (Z.abs odds) ;; Ok (stake * q)%Qc.

(** [bet_points(odds, result, is_triple, stake)], lines 37-61. *)
Definition bet_points (odds : Z) (result : string) (is_triple : bool)
    (stake : Qc) : py Qc :=
  if (result =? "pending")%string then Ok 0%Qc
  else if (result =? "push")%string then Ok 0%Qc
  else if (result =? "win")%string then
    profit <- american_profit odds stake ;;
    Ok (if is_triple then profit * Z2Qc 3 else profit)%Qc
  else if (result =? "loss")%string then
    Ok (if is_triple then - Z2Qc 100 else - stake)%Qc
  else Ok 0%Qc.

(** ** The odds converter within the range of floats

    Read over the reals, true division fails on a zero divisor only.  On
    Python ints it has a second exception: [a / b] raises [OverflowError]
    when the quotient, rounded to the nearest double, is beyond the largest
    double, which is the case from [2^1024 - 2^970] on.  [FloatRange] holds
    the odds converter with that exception.  (A product of two floats that
    leaves the range is the float [inf] and no exception.) *)
Module FloatRange.

(** The size from which a quotient is too large for a float. *)
Definition overflow_bound : Z := 2 ^ 1024 - 2 ^ 970.

Definition truediv (a b : Z) : py Qc :=
  if b =? 0 then Raise ZeroDivisionError
  else if overflow_bound * Z.abs b <=? Z.abs a then Raise OverflowError
  else Ok (Z2Qc a / Z2Qc b)%Qc.

(** [american_profit(odds, stake)], lines 20-34. *)
Definition american_profit (odds : Z) (stake : Qc) : py Qc :=
  if 0 <? odds then
    q <- truediv odds 100 ;; Ok (stake * q)%Qc
  else
    q <- truediv 100 (Z.abs odds) ;; Ok (stake * q)%Qc.

End FloatRange.

(** The profit formula in the specification's words (section 4.1):
    [stake * odds / 100] for positive odds and [stake * 100 / |odds|] for
    negative odds. *)
Definition profit_spec (o : Z) (s : Qc) : Qc :=
  if 0 <? o then (s * Z2Qc o / Z2Qc 100)%Qc
  else (s * Z2Qc 100 / Z2Qc (Z.abs o))%Qc.

(** The result statuses the scoring rule knows. *)
Definition known_result (r : string) : Prop :=
  r = "pending"%string \/ r = "win"%string \/ r = "loss"%string
  \/ r = "push"%string.

(** ** Data model: the bets table joined with the players table

    One row of the DataFrame [get_bets] returns: the columns of [bets]
    ([SELECT b.*]) followed by [players.name] and [players.color]. *)

Record Bet : Type := {
  id : Z;
  week : Z;
  player_id : Z;
  description : string;
  american_odds : Z;
  stake : Qc;
  is_triple : Z;
  result : string;
  created_at : string;
  updated_at : string;
  player_name : string;
  color : string
}.

(** A DataFrame of bets: its rows and the computed ['points'] column, which
    is absent ([None]) until an aggregator assigns it. *)
Record BetsFrame : Type := {
  rows : list Bet;
  points : option (list Qc)
}.

(** Python's [bool(n)] on an int. *)
Definition bool_of_int (n : Z) : bool := negb (n =? 0).

(** The row function every aggregator maps over the table. *)
Definition row_points (b : Bet) : py Qc :=
  bet_points (american_odds b) (result b) (bool_of_int (is_triple b)) (stake b).

(** [df.apply(f, axis=1)]: the rows are visited in order and the first
    exception aborts the whole call. *)
Fixpoint apply_rows {A B : Type} (f : A -> py B) (l : list A) : py (list B) :=
  match l with
  | [] => Ok []
  | a :: t => b <- f a ;; bs <- apply_rows f t ;; Ok (b :: bs)
  end.

(** ** Grouping keys *)

Class Key (K : Type) : Type := {
  key_eqb : K -> K -> bool;
  key_leb : K -> K -> bool
}.

#[export] Instance Key_Z : Key Z :=
  {| key_eqb := Z.eqb; key_leb := Z.leb |}.

#[export] Instance Key_string : Key string :=
  {| key_eqb := String.eqb; key_leb := String.leb |}.

(** Tuples of key columns are compared component by component and ordered
    lexicographically. *)
#[export] Instance Key_prod {A B : Type} `{Key A} `{Key B} : Key (A * B) :=
  {| key_eqb := fun x y => key_eqb (fst x) (fst y) && key_eqb (snd x) (snd y);
     key_leb := fun x y =>
       if key_eqb (fst x) (fst y) then key_leb (snd x) (snd y)
       else key_leb (fst x) (fst y) |}.

(** ** Sorting and grouping *)

Section Sorting.
Context {A : Type} (leb : A -> A -> bool).

Fixpoint insert_sorted (x : A) (l : list A) : list A :=
  match l with
  | [] => [x]
  | h :: t => if leb x h then x :: l else h :: insert_sorted x t
  end.

(** A stable sort: an element is placed before the elements that compare
    equal to it and followed it in the input. *)
Definition stable_sort (l : list A) : list A :=
  fold_right insert_sorted [] l.
End Sorting.

Section GroupBy.
Context {A K : Type} `{Key K}.

Fixpoint dedup (ks : list K) : list K :=
  match ks with
  | [] => []
  | k :: t => if existsb (key_eqb k) t then dedup t else k :: dedup t
  end.

(** The distinct keys, ascending ([groupby] sorts its groups). *)
Definition group_keys (ks : list K) : list K :=
  stable_sort key_leb (dedup ks).

(** The members of one group, in table order. *)
Definition group_of (key : A -> K) (l : list A) (k : K) : list A :=
  filter (fun a => key_eqb (key a) k) l.

(** [df.groupby(keys)]: one group per distinct key. *)
Definition groupby (key : A -> K) (l : list A) : list (K * list A) :=
  map (fun k => (k, group_of key l k)) (group_keys (map key l)).

(** [groupby(key)[val].cumsum()]: a running total per group, in table
    order, with one accumulator per key. *)
Fixpoint cumsum_by (key : A -> K) (val : A -> Qc) (acc : K -> Qc)
    (l : list A) : list Qc :=
  match l with
  | [] => []
  | a :: t =>
      let c := (acc (key a) + val a)%Qc in
      c :: cumsum_by key val
             (fun k => if key_eqb k (key a) then c else acc k) t
  end.

(** [series.map(counts).fillna(0)]: a missing key counts as zero. *)
Fixpoint lookup_count (k : K) (counts : list (K * nat)) : nat :=
  match counts with
  | [] => O
  | (k', n) :: t => if key_eqb k k' then n else lookup_count k t
  end.
End GroupBy.

Definition Qcsum (l : list Qc) : Qc := fold_right Qcplus 0%Qc l.

(** ** Rounding to one decimal place *)

(** Round to the nearest integer, ties to the even one. *)
Definition rint (q : Q) : Z :=
  let f := Qfloor q in
  match Qcompare (q - inject_Z f) (1 # 2) with
  | Lt => f
  | Gt => f + 1
  | Eq => if Z.even f then f else f + 1
  end.

(** [series.round(1)], over the reals: the nearest tenth, and of two
    nearest tenths the even one.  The code rounds the double nearest to
    its argument, so where the argument lies half-way between two tenths,
    up to the error of that double, the code may return either of them;
    the properties of the rounded column are therefore stated with
    [rounded_to_tenth] below, which holds of both. *)
Definition round1 (x : Qc) : Qc :=
  (Z2Qc (rint (x * Z2Qc 10)%Qc) / Z2Qc 10)%Qc.

(** ** Weekly aggregator *)

Record WeeklyTotal : Type := {
  wt_player_id : Z;
  wt_player_name : string;
  wt_week : Z;
  wt_points : Qc
}.

(** The table with its ['points'] column: each row next to its points. *)
Definition scored (bs : list Bet) (pts : list Qc) : list (Bet * Qc) :=
  combine bs pts.

Definition weekly_key (r : Bet * Qc) : Z * string * Z :=
  (player_id (fst r), player_name (fst r), week (fst r)).

Definition weekly_totals_of (tbl : list (Bet * Qc)) : list WeeklyTotal :=
  map (fun g =>
         {| wt_player_id := fst (fst (fst g));
            wt_player_name := snd (fst (fst g));
            wt_week := snd (fst g);
            wt_points := Qcsum (map snd (snd g)) |})
      (groupby weekly_key tbl).

(** [weekly_points(df_bets_for_week)], lines 64-77.  The first component
    is the caller's DataFrame as the call leaves it. *)
Definition weekly_points (df : BetsFrame)
    : BetsFrame * py (list WeeklyTotal) :=
  match rows df with
  | [] => (df, Ok [])
  | _ =>
      match apply_rows row_points (rows df) with
      | Raise e => (df, Raise e)
      | Ok pts =>
          ({| rows := rows df; points := Some pts |},
           Ok (weekly_totals_of (scored (rows df) pts)))
      end
  end.

(** ** Season aggregator *)

(** The intermediate [standings] frame, with every column the function
    gives it before the final projection. *)
Record Standing : Type := {
  st_player_id : Z;
  st_player_name : string;
  st_total_bets : nat;
  st_points : Qc;
  st_wins : nat;
  st_losses : nat;
  st_pushes : nat;
  st_season_points : Qc
}.

(** A row of the returned table. *)
Record StandingsRow : Type := {
  sr_player_name : string;
  sr_total_bets : nat;
  sr_wins : nat;
  sr_losses : nat;
  sr_pushes : nat;
  sr_season_points : Qc
}.

Definition has_result (s : string) (r : Bet * Qc) : bool :=
  (result (fst r) =? s)%string.

Definition season_key (r : Bet * Qc) : Z * string :=
  (player_id (fst r), player_name (fst r)).

(** [df[df['result'] == s].groupby('player_id').size()]. *)
Definition result_counts (s : string) (tbl : list (Bet * Qc))
    : list (Z * nat) :=
  map (fun g => (fst g, List.length (snd g)))
      (groupby (fun r => player_id (fst r)) (filter (has_result s) tbl)).

(** The [standings] frame before it is sorted (lines 92-104). *)
Definition standings_of (tbl : list (Bet * Qc)) : list Standing :=
  let loss_counts := result_counts "loss" tbl in
  let push_counts := result_counts "push" tbl in
  map (fun g =>
         let pts := Qcsum (map snd (snd g)) in
         {| st_player_id := fst (fst g);
            st_player_name := snd (fst g);
            st_total_bets := List.length (snd g);
            st_points := pts;
            st_wins := List.length (filter (has_result "win") (snd g));
            st_losses := lookup_count (fst (fst g)) loss_counts;
            st_pushes := lookup_count (fst (fst g)) push_counts;
            st_season_points := round1 pts |})
      (groupby season_key tbl).

Definition project_standing (s : Standing) : StandingsRow :=
  {| sr_player_name := st_player_name s;
     sr_total_bets := st_total_bets s;
     sr_wins := st_wins s;
     sr_losses := st_losses s;
     sr_pushes := st_pushes s;
     sr_season_points := st_season_points s |}.

(** [season_standings(df_all_bets)], lines 80-109.

    [sort_values('season_points', ascending=False)] is called with the
    default [kind].  pandas sorts the reversed column with numpy's
    [argsort] and reverses the result back, so that rows of equal points
    keep their order whenever that [argsort] keeps it; numpy's default
    kind, in its portable version, sorts up to 16 elements by insertion
    and may partition a longer array first.  The sort is a parameter
    [sort_desc] of the model: [sort_values_desc] below is what every kind
    guarantees, and [sort_desc_stable] is the sort performed on tables of
    up to 16 rows. *)
Definition season_standings (sort_desc : list Standing -> list Standing)
    (df : BetsFrame) : BetsFrame * py (list StandingsRow) :=
  match rows df with
  | [] => (df, Ok [])
  | _ =>
      match apply_rows row_points (rows df) with
      | Raise e => (df, Raise e)
      | Ok pts =>
          ({| rows := rows df; points := Some pts |},
           Ok (map project_standing
                 (sort_desc (standings_of (scored (rows df) pts)))))
      end
  end.

Definition points_desc (a b : Standing) : Prop :=
  (st_season_points b <= st_season_points a)%Qc.

(** What a descending sort on ['season_points'] guarantees. *)
Definition sort_values_desc (sort : list Standing -> list Standing) : Prop :=
  forall l, Permutation l (sort l) /\ StronglySorted points_desc (sort l).

Definition Qc_leb (x y : Qc) : bool := Qle_bool x y.

(** The insertion sort, descending: a row is placed before the rows of
    equal or fewer points that followed it in the table. *)
Definition sort_desc_stable (l : list Standing) : list Standing :=
  stable_sort (fun a b => Qc_leb (st_season_points b) (st_season_points a)) l.

(** ** Trajectory builder *)

(** A row of the [weekly_totals] frame of [cumulative_by_week]. *)
Record WeekPoints : Type := {
  wp_player_id : Z;
  wp_player_name : string;
  wp_color : string;
  wp_week : Z;
  wp_points : Qc
}.

Record TrajectoryPoint : Type := {
  tp_player_name : string;
  tp_week : Z;
  tp_cumulative_points : Qc;
  tp_color : string
}.

Definition trajectory_key (r : Bet * Qc) : Z * string * string * Z :=
  (player_id (fst r), player_name (fst r), color (fst r), week (fst r)).

Definition week_points_of (tbl : list (Bet * Qc)) : list WeekPoints :=
  map (fun g =>
         {| wp_player_id := fst (fst (fst (fst g)));
            wp_player_name := snd (fst (fst (fst g)));
            wp_color := snd (fst (fst g));
            wp_week := snd (fst g);
            wp_points := Qcsum (map snd (snd g)) |})
      (groupby trajectory_key tbl).

Definition player_week (r : WeekPoints) : Z * Z :=
  (wp_player_id r, wp_week r).

(** [sort_values(['player_id', 'week'])]. *)
Definition sort_player_week (l : list WeekPoints) : list WeekPoints :=
  stable_sort (fun a b => key_leb (player_week a) (player_week b)) l.

(** The sorted [weekly_totals] frame with its ['cumulative_points']
    column. *)
Definition cumulative_frame (tbl : list (Bet * Qc))
    : list (WeekPoints * Qc) :=
  let sorted := sort_player_week (week_points_of tbl) in
  combine sorted (cumsum_by wp_player_id wp_points (fun _ => 0%Qc) sorted).

Definition project_trajectory (r : WeekPoints * Qc) : TrajectoryPoint :=
  {| tp_player_name := wp_player_name (fst r);
     tp_week := wp_week (fst r);
     tp_cumulative_points := snd r;
     tp_color := wp_color (fst r) |}.

(** [cumulative_by_week(df_all_bets)], lines 112-130. *)
Definition cumulative_by_week (df : BetsFrame)
    : BetsFrame * py (list TrajectoryPoint) :=
  match rows df with
  | [] => (df, Ok [])
  | _ =>
      match apply_rows row_points (rows df) with
      | Raise e => (df, Raise e)
      | Ok pts =>
          ({| rows := rows df; points := Some pts |},
           Ok (map project_trajectory (cumulative_frame (scored (rows df) pts))))
      end
  end.

(** ** Vocabulary of the specification *)

(** Wagers carry non-zero American odds (data model, section 3). *)
Definition valid_odds (bs : list Bet) : Prop :=
  Forall (fun b => american_odds b <> 0) bs.

(** The rows come from [bets JOIN players ON player_id = players.id]: the
    name and the colour of a row are those of its player. *)
Definition joined (bs : list Bet) : Prop :=
  forall a b, In a bs -> In b bs -> player_id a = player_id b ->
    player_name a = player_name b /\ color a = color b.

(** [players.name] is [UNIQUE]: a name belongs to one participant. *)
Definition unique_names (bs : list Bet) : Prop :=
  forall a b, In a bs -> In b bs -> player_name a = player_name b ->
    player_id a = player_id b.

(** The points of a row whose scoring does not raise. *)
Definition points_value (b : Bet) : Qc :=
  match row_points b with
  | Ok q => q
  | Raise _ => 0%Qc
  end.

Definition total_points (bs : list Bet) : Qc :=
  Qcsum (map points_value bs).

(** The rows of participant [p]; those of week [w]; those up to week [w]. *)
Definition bets_of (p : Z) (bs : list Bet) : list Bet :=
  filter (fun b => player_id b =? p) bs.

Definition in_week (w : Z) (bs : list Bet) : list Bet :=
  filter (fun b => week b =? w) bs.

Definition up_to_week (w : Z) (bs : list Bet) : list Bet :=
  filter (fun b => week b <=? w) bs.

Definition count_result (s : string) (bs : list Bet) : nat :=
  List.length (filter (fun b => (result b =? s)%string) bs).

(** What each aggregator does to the DataFrame it is given: the rows keep
    every column they had, and the ['points'] column is assigned the row
    points unless the table is empty or the scoring raised. *)
Definition frame_effect (df df' : BetsFrame) : Prop :=
  rows df' = rows df
  /\ match rows df, apply_rows row_points (rows df) with
     | _ :: _, Ok pts => points df' = Some pts
     | _, _ => points df' = points df
     end.




(** The order of [sort_values(['player_id', 'week'])]. *)
Definition player_week_le (a b : WeekPoints) : Prop :=
  wp_player_id a < wp_player_id b
  \/ (wp_player_id a = wp_player_id b /\ wp_week a <= wp_week b).

(** Strictly ascending by participant, then week. *)
Definition player_week_lt (a b : WeekPoints) : Prop :=
  wp_player_id a < wp_player_id b
  \/ (wp_player_id a = wp_player_id b /\ wp_week a < wp_week b).

(** The rows of a weekly-totals frame that belong to the participant of [r]
    and to a week not after that of [r]. *)
Definition same_player_up_to (r : WeekPoints) (l : list WeekPoints)
    : list WeekPoints :=
  filter (fun r' => (wp_player_id r' =? wp_player_id r)
                    && (wp_week r' <=? wp_week r)) l.

(** The participants and weeks with a wager, by participant, then week. *)
Definition player_weeks (bs : list Bet) : list (Z * Z) :=
  group_keys (map (fun b => (player_id b, week b)) bs).

Definition player_week_before (a b : Z * Z) : Prop :=
  fst a < fst b \/ (fst a = fst b /\ snd a < snd b).

(** The weeks in which participant [p] has a wager, ascending. *)
Definition weeks_of (p : Z) (bs : list Bet) : list Z :=
  group_keys (map week (bets_of p bs)).

(** The points of participant [p] in week [w]. *)
Definition weekly_total (p w : Z) (bs : list Bet) : Qc :=
  total_points (in_week w (bets_of p bs)).

(** The running sum of section 4.5: the weekly totals of participant [p],
    taken by ascending week, added up to week [w]. *)
Definition running_total (p w : Z) (bs : list Bet) : Qc :=
  Qcsum (map (fun w' => weekly_total p w' bs)
           (filter (fun w' => w' <=? w) (weeks_of p bs))).

(** The trajectory row of the participant and week [pw]. *)
Definition trajectory_point_of (bs : list Bet) (pw : Z * Z)
    (t : TrajectoryPoint) : Prop :=
  tp_week t = snd pw
  /\ tp_cumulative_points t = running_total (fst pw) (snd pw) bs
  /\ forall b, In b bs -> player_id b = fst pw ->
       tp_player_name t = player_name b /\ tp_color t = color b.

(** The scored table pairs every row with its points. *)
Definition tag (b : Bet) : Bet * Qc := (b, points_value b).

(** [y] is [x] rounded to one decimal place: a whole number of tenths that
    is no further than half a tenth from [x]. *)
Definition rounded_to_tenth (x y : Qc) : Prop :=
  (exists n : Z, y = (Z2Qc n / Z2Qc 10)%Qc)
  /\ (x - Q2Qc (1 # 20) <= y)%Qc /\ (y <= x + Q2Qc (1 # 20))%Qc.

(** The standings row of participant [p]. *)
Definition standing_of_player (bs : list Bet) (p : Z) (r : StandingsRow)
    : Prop :=
  (forall b, In b (bets_of p bs) -> player_name b = sr_player_name r)
  /\ sr_total_bets r = List.length (bets_of p bs)
  /\ sr_wins r = count_result "win" (bets_of p bs)
  /\ sr_losses r = count_result "loss" (bets_of p bs)
  /\ sr_pushes r = count_result "push" (bets_of p bs)
  /\ exists pts, apply_rows row_points (bets_of p bs) = Ok pts
                 /\ rounded_to_tenth (Qcsum pts) (sr_season_points r).

(** ** Rows of the grouped frames *)

(** The laws the grouping relies on: the key test decides equality. *)
Class KeyLaws (K : Type) `{Key K} : Prop := {
  key_eqb_eq : forall a b : K, key_eqb a b = true <-> a = b
}.

(** The row [standings_of] builds for the group of key [k]. *)
Definition standing_row (tbl : list (Bet * Qc)) (k : Z * string) : Standing :=
  {| st_player_id := fst k;
     st_player_name := snd k;
     st_total_bets := List.length (group_of season_key tbl k);
     st_points := Qcsum (map snd (group_of season_key tbl k));
     st_wins :=
       List.length (filter (has_result "win") (group_of season_key tbl k));
     st_losses := lookup_count (fst k) (result_counts "loss" tbl);
     st_pushes := lookup_count (fst k) (result_counts "push" tbl);
     st_season_points :=
       round1 (Qcsum (map snd (group_of season_key tbl k))) |}.

(** The row [week_points_of] builds for the group of key [k]. *)
Definition week_points_row (tbl : list (Bet * Qc))
    (k : Z * string * string * Z) : WeekPoints :=
  {| wp_player_id := fst (fst (fst k));
     wp_player_name := snd (fst (fst k));
     wp_color := snd (fst k);
     wp_week := snd k;
     wp_points := Qcsum (map snd (group_of trajectory_key tbl k)) |}.

(** ** Sample tables *)

Definition sample_bet (i w p : Z) (n c : string) (o : Z) (s : Qc) (t : Z)
    (r : string) : Bet :=
  {| id := i; week := w; player_id := p; description := "";
     american_odds := o; stake := s; is_triple := t; result := r;
     created_at := ""; updated_at := ""; player_name := n; color := c |}.

Definition frame_of (bs : list Bet) : BetsFrame :=
  {| rows := bs; points := None |}.

(** Two participants over two weeks. *)
Definition league_frame : BetsFrame :=
  frame_of
    [ sample_bet 1 2 1 "Logan" "#e74c3c" (-150) (Z2Qc 100) 0 "win";
      sample_bet 2 1 2 "Caroline" "#3498db" 320 (Z2Qc 100) 1 "loss";
      sample_bet 3 1 1 "Logan" "#e74c3c" 100 (Z2Qc 50) 0 "win";
      sample_bet 4 2 2 "Caroline" "#3498db" 100 (Z2Qc 100) 0 "win";
      sample_bet 5 2 1 "Logan" "#e74c3c" 100 (Z2Qc 100) 0 "pending" ].

(** Two participants with the same season points. *)
Definition tied_frame : BetsFrame :=
  frame_of
    [ sample_bet 1 1 1 "Logan" "#e74c3c" 100 (Z2Qc 100) 0 "win";
      sample_bet 2 1 2 "Caroline" "#3498db" 100 (Z2Qc 100) 0 "win" ].

(** Scenario E of the specification: a participant with 50 points in
    week 1 and 30 in week 2, next to a second participant. *)
Definition scenario_E_frame : BetsFrame :=
  frame_of
    [ sample_bet 1 2 1 "Logan" "#e74c3c" 100 (Z2Qc 30) 0 "win";
      sample_bet 2 1 2 "Caroline" "#3498db" (-150) (Z2Qc 100) 0 "loss";
      sample_bet 3 1 1 "Logan" "#e74c3c" 100 (Z2Qc 50) 0 "win" ].

(** The columns of the returned tables, with the numbers as fractions. *)
Definition show_standings (r : py (list StandingsRow))
    : list (string * nat * nat * nat * nat * Q) :=
  match r with
  | Ok out =>
      map (fun r => (sr_player_name r, sr_total_bets r, sr_wins r,
                     sr_losses r, sr_pushes r, this (sr_season_points r))) out
  | Raise _ => []
  end.

Definition show_trajectory (r : py (list TrajectoryPoint))
    : list (string * Z * Q) :=
  match r with
  | Ok out =>
      map (fun r => (tp_player_name r, tp_week r,
                     this (tp_cumulative_points r))) out
  | Raise _ => []
  end.

(** One winning wager at -150. *)
Definition favorite_frame : BetsFrame :=
  frame_of [ sample_bet 1 1 1 "Logan" "#e74c3c" (-150) (Z2Qc 100) 0 "win" ].

(** ** Vocabulary for the further properties *)


(** A table contains a row the scoring rule raises on: a win at odds 0. *)
Definition has_zero_odds_win (bs : list Bet) : Prop :=
  exists b, In b bs /\ result b = "win"%string /\ american_odds b = 0.

(** The participant and week of a weekly total. *)
Definition weekly_player_week (r : WeeklyTotal) : Z * Z :=
  (wt_player_id r, wt_week r).

(** The rows of a weekly-totals table for the participant named in the
    trajectory row [t], up to the week of [t]. *)
Definition weekly_up_to (t : TrajectoryPoint) (l : list WeeklyTotal)
    : list WeeklyTotal :=
  filter (fun x => (wt_player_name x =? tp_player_name t)%string
                   && (wt_week x <=? tp_week t)) l.

(** A wager that is neither won, lost nor pushed. *)
Definition unsettled (b : Bet) : bool :=
  negb ((result b =? "win")%string || (result b =? "loss")%string
        || (result b =? "push")%string).

(** The row [weekly_totals_of] builds for the group of key [k]. *)
Definition weekly_row (tbl : list (Bet * Qc)) (k : Z * string * Z)
    : WeeklyTotal :=
  {| wt_player_id := fst (fst k);
     wt_player_name := snd (fst k);
     wt_week := snd k;
     wt_points := Qcsum (map snd (group_of weekly_key tbl k)) |}.

(** ** Pagination *)

(** A bound of a Python slice on a sequence of length [n]: a negative
    index counts from the end, and the result is clipped to [0, n]. *)
Definition slice_bound (n i : Z) : Z :=
  if i <? 0 then Z.max 0 (n + i) else Z.min i n.

(** [df.iloc[start:stop]]. *)
Definition iloc_slice {A : Type} (l : list A) (start stop : Z) : list A :=
  let n := Z.of_nat (List.length l) in
  let s := slice_bound n start in
  let e := slice_bound n stop in
  firstn (Z.to_nat (e - s)) (skipn (Z.to_nat s) l).

(** [(len(df) - 1) // page_size + 1], line 930; [//] is floor division and
    raises on a zero divisor. *)
Definition total_pages (n page_size : Z) : py Z :=
  if page_size =? 0 then Raise ZeroDivisionError
  else Ok ((n - 1) / page_size + 1).

(** [st.number_input(label, min_value, max_value, value, step)] on ints.
    The call is refused with a [StreamlitAPIException] when the default
    [value] lies outside [min_value .. max_value], so also when that range
    is empty; otherwise it returns the number the widget holds, [entered],
    which the widget keeps within the range. *)
Definition number_input (min_value max_value value entered : Z) : py Z :=
  if (value <? min_value) || (max_value <? value)
  then Raise StreamlitAPIException
  else Ok (Z.max min_value (Z.min entered max_value)).

(** [paginate_dataframe(df, page_size, key)], lines 928-936.  [entered] is
    the number in the page widget. *)
Definition paginate_dataframe {A : Type} (df : list A)
    (page_size entered : Z) : py (list A) :=
  pages <- total_pages (Z.of_nat (List.length df)) page_size ;;
  page <- number_input 1 pages 1 entered ;;
  let start_idx := (page - 1) * page_size in
  let end_idx := start_idx + page_size in
  Ok (iloc_slice df start_idx end_idx).

(** The pages of a table, first to last. *)
Definition pages_of {A : Type} (df : list A) (page_size : Z) (count : Z)
    : list (py (list A)) :=
  map (fun i => paginate_dataframe df page_size (Z.of_nat i + 1))
      (seq 0 (Z.to_nat count)).

(** ** Historical analysis (lines 1042-1053) *)

(** [bets_df['result'].value_counts().get(s, default)]: the number of rows
    with result [s], or [default] when there is none. *)
Definition result_count_get (s : string) (default : Z) (bs : list Bet) : Z :=
  match count_result s bs with
  | O => default
  | n => Z.of_nat n
  end.

(** [results_count.get('win', 0) / max(results_count.get('loss', 1), 1)]. *)
Definition win_loss_ratio (bs : list Bet) : py Qc :=
  truediv (result_count_get "win" 0 bs)
          (Z.max (result_count_get "loss" 1 bs) 1).

(** Python's [max(a, b)] on two numbers: [a] unless [b] is greater. *)
Definition py_max (a b : Qc) : Qc :=
  if Qclt_le_dec a b then b else a.

Definition wins_of (bs : list Bet) : list Bet :=
  filter (fun b => (result b =? "win")%string) bs.

Definition total_stake (bs : list Bet) : Qc := Qcsum (map stake bs).

Definition total_odds (bs : list Bet) : Z :=
  fold_right Z.add 0 (map american_odds bs).

(** [wins['stake'].sum() * wins['american_odds'].sum() / 100]. *)
Definition total_profit (bs : list Bet) : Qc :=
  (total_stake (wins_of bs) * Z2Qc (total_odds (wins_of bs)) / Z2Qc 100)%Qc.

(** [(total_profit - total_stake) / max(total_stake, 1) * 100]. *)
Definition roi (bs : list Bet) : Qc :=
  ((total_profit bs - total_stake bs) / py_max (total_stake bs) 1
   * Z2Qc 100)%Qc.

(** ** The database (lines 157-445 and 985-1004)

    The two tables of [init_database], each a list of rows in rowid
    order, and for each table the largest rowid it ever held, which
    [AUTOINCREMENT] keeps.  Foreign keys are declared but not enforced (no
    [PRAGMA foreign_keys]), so a bet may name a player that does not exist.
    [CURRENT_TIMESTAMP] is the argument [now] of the functions that
    store it. *)

Record Player : Type := {
  pl_id : Z;
  pl_name : string;
  pl_color : string
}.

Record StoredBet : Type := {
  sb_id : Z;
  sb_week : Z;
  sb_player_id : Z;
  sb_description : string;
  sb_american_odds : Z;
  sb_stake : Qc;
  sb_is_triple : Z;
  sb_result : string;
  sb_created_at : string;
  sb_updated_at : string
}.

Record Database : Type := {
  players : list Player;
  bets : list StoredBet;
  players_seq : Z;
  bets_seq : Z
}.

Inductive DbError : Type :=
| IntegrityError.

(** The rowid [AUTOINCREMENT] gives a new row: one more than the largest
    rowid the table holds or ever held. *)
Definition next_rowid (seq : Z) (ids : list Z) : Z :=
  Z.max seq (fold_right Z.max 0 ids) + 1.

(** Python's [int(b)] on a bool. *)
Definition int_of_bool (b : bool) : Z := if b then 1 else 0.

(** The [INSERT INTO bets (week, player_id, description, american_odds,
    stake, is_triple, result)] statement of [insert_bet] and of the seed
    data. *)
Definition store_bet (db : Database) (now : string) (week player_id : Z)
    (description : string) (american_odds : Z) (stake : Qc)
    (is_triple : Z) (result : string) : Database :=
  let new_id := next_rowid (bets_seq db) (map sb_id (bets db)) in
  {| players := players db;
     bets := bets db ++
       [{| sb_id := new_id; sb_week := week; sb_player_id := player_id;
           sb_description := description; sb_american_odds := american_odds;
           sb_stake := stake; sb_is_triple := is_triple;
           sb_result := result; sb_created_at := now;
           sb_updated_at := now |}];
     players_seq := players_seq db;
     bets_seq := new_id |}.

(** [insert_bet], lines 329-341. *)
Definition insert_bet (db : Database) (now : string) (week player_id : Z)
    (description : string) (american_odds : Z) (stake : Qc)
    (is_triple : bool) (result : string) : Database :=
  store_bet db now week player_id description american_odds stake
    (int_of_bool is_triple) result.

Definition with_bets (db : Database) (bs : list StoredBet) : Database :=
  {| players := players db; bets := bs;
     players_seq := players_seq db; bets_seq := bets_seq db |}.

(** [update_bet], lines 344-359. *)
Definition update_bet (db : Database) (now : string) (bet_id : Z)
    (description : string) (odds : Z) (stake : Qc) (is_triple : bool)
    (result : string) : Database :=
  with_bets db
    (map (fun b =>
            if sb_id b =? bet_id then
              {| sb_id := sb_id b; sb_week := sb_week b;
                 sb_player_id := sb_player_id b;
                 sb_description := description; sb_american_odds := odds;
                 sb_stake := stake; sb_is_triple := int_of_bool is_triple;
                 sb_result := result; sb_created_at := sb_created_at b;
                 sb_updated_at := now |}
            else b)
       (bets db)).

Definition set_result (result now : string) (b : StoredBet) : StoredBet :=
  {| sb_id := sb_id b; sb_week := sb_week b; sb_player_id := sb_player_id b;
     sb_description := sb_description b;
     sb_american_odds := sb_american_odds b; sb_stake := sb_stake b;
     sb_is_triple := sb_is_triple b; sb_result := result;
     sb_created_at := sb_created_at b; sb_updated_at := now |}.

(** [update_bet_result], lines 362-373. *)
Definition update_bet_result (db : Database) (now : string) (bet_id : Z)
    (result : string) : Database :=
  with_bets db
    (map (fun b => if sb_id b =? bet_id then set_result result now b else b)
       (bets db)).

(** [add_player], lines 376-388: the insertion fails on the [UNIQUE] name,
    and the function then returns [False] with nothing stored. *)
Definition add_player (db : Database) (name color : string)
    : Database * bool :=
  if existsb (fun p => (pl_name p =? name)%string) (players db) then
    (db, false)
  else
    let new_id := next_rowid (players_seq db) (map pl_id (players db)) in
    ({| players := players db ++
          [{| pl_id := new_id; pl_name := name; pl_color := color |}];
        bets := bets db;
        players_seq := new_id;
        bets_seq := bets_seq db |}, true).

(** [delete_player], lines 391-400. *)
Definition delete_player (db : Database) (player_id : Z) : Database :=
  {| players := filter (fun p => negb (pl_id p =? player_id)) (players db);
     bets := filter (fun b => negb (sb_player_id b =? player_id)) (bets db);
     players_seq := players_seq db;
     bets_seq := bets_seq db |}.

(** [reset_week], lines 403-411. *)
Definition reset_week (db : Database) (week : Z) : Database :=
  with_bets db (filter (fun b => negb (sb_week b =? week)) (bets db)).

(** [reset_database], lines 414-423: the rows go, the rowid counters
    stay. *)
Definition reset_database (db : Database) : Database :=
  {| players := []; bets := [];
     players_seq := players_seq db; bets_seq := bets_seq db |}.

Fixpoint has_duplicate (names : list string) : bool :=
  match names with
  | [] => false
  | n :: t => existsb (String.eqb n) t || has_duplicate t
  end.

(** [update_player], lines 426-445: the update fails on the [UNIQUE] name
    with an [IntegrityError], which the function lets through. *)
Definition update_player (db : Database) (player_id : Z)
    (name color : string) : DbError + Database :=
  let updated :=
    map (fun p =>
           if pl_id p =? player_id then
             {| pl_id := pl_id p; pl_name := name; pl_color := color |}
           else p)
        (players db) in
  if has_duplicate (map pl_name updated) then inl IntegrityError
  else inr {| players := updated; bets := bets db;
              players_seq := players_seq db; bets_seq := bets_seq db |}.

(** [clear_all_results], lines 985-993. *)
Definition clear_all_results (db : Database) (now : string) : Database :=
  with_bets db (map (set_result "pending" now) (bets db)).

(** [delete_all_bets], lines 996-1004. *)
Definition delete_all_bets (db : Database) : Database :=
  with_bets db [].

(** The row of [SELECT b.*, p.name as player_name, p.color]. *)
Definition join_row (b : StoredBet) (p : Player) : Bet :=
  {| id := sb_id b; week := sb_week b; player_id := sb_player_id b;
     description := sb_description b; american_odds := sb_american_odds b;
     stake := sb_stake b; is_triple := sb_is_triple b;
     result := sb_result b; created_at := sb_created_at b;
     updated_at := sb_updated_at b;
     player_name := pl_name p; color := pl_color p |}.

(** [FROM bets b JOIN players p ON b.player_id = p.id]. *)
Definition bets_join_players (db : Database) : list Bet :=
  flat_map
    (fun b => map (join_row b)
                (filter (fun p => pl_id p =? sb_player_id b) (players db)))
    (bets db).

(** The [WHERE] conditions [get_bets] collects; a bet type other than
    "single" and "triple" adds none.  The dates are the strings
    [strftime('%Y-%m-%d')] returns, compared as text. *)
Definition bet_filter (wk pid : option Z) (bet_type : option string)
    (start_date end_date : option string) (r : Bet) : bool :=
  match wk with Some w => week r =? w | None => true end
  && match pid with Some p => player_id r =? p | None => true end
  && match bet_type with
     | Some t =>
         if (t =? "single")%string then is_triple r =? 0
         else if (t =? "triple")%string then is_triple r =? 1
         else true
     | None => true
     end
  && match start_date with
     | Some d => String.leb d (created_at r)
     | None => true
     end
  && match end_date with
     | Some d => String.leb (created_at r) d
     | None => true
     end.

(** The key of [ORDER BY b.week, p.name, b.id]. *)
Definition bet_order (r : Bet) : Z * string * Z :=
  (week r, player_name r, id r).

(** [get_bets], lines 281-326: the query the function runs.  (The
    [st.cache_data] wrapper, which may hand back the result of an earlier
    run with the same arguments, is outside the model.) *)
Definition get_bets (db : Database) (wk pid : option Z)
    (bet_type : option string) (start_date end_date : option string)
    : list Bet :=
  stable_sort (fun a b => key_leb (bet_order a) (bet_order b))
    (filter (bet_filter wk pid bet_type start_date end_date)
       (bets_join_players db)).

(** [get_players], lines 272-278: [SELECT * FROM players ORDER BY name]. *)
Definition get_players (db : Database) : list Player :=
  stable_sort (fun a b => key_leb (pl_name a) (pl_name b)) (players db).

(** The key constraints of the two tables. *)
Definition db_keys (db : Database) : Prop :=
  NoDup (map pl_id (players db))
  /\ NoDup (map pl_name (players db))
  /\ NoDup (map sb_id (bets db)).

(** The order laws sorting relies on. *)
Class KeyOrder (K : Type) `{Key K} : Prop := {
  key_leb_total : forall a b : K, key_leb a b = false -> key_leb b a = true;
  key_leb_trans :
    forall a b c : K, key_leb a b = true -> key_leb b c = true ->
                      key_leb a c = true;
  key_leb_antisym :
    forall a b : K, key_leb a b = true -> key_leb b a = true -> a = b
}.

(** A small database: two players, three bets. *)
Definition sample_db : Database :=
  {| players :=
       [ {| pl_id := 1; pl_name := "Logan"; pl_color := "#e74c3c" |};
         {| pl_id := 2; pl_name := "Caroline"; pl_color := "#3498db" |} ];
     bets :=
       [ {| sb_id := 1; sb_week := 1; sb_player_id := 1;
            sb_description := "Chiefs -7.5"; sb_american_odds := -110;
            sb_stake := Z2Qc 100; sb_is_triple := 0; sb_result := "win";
            sb_created_at := "2024-09-01 10:00:00";
            sb_updated_at := "2024-09-01 10:00:00" |};
         {| sb_id := 2; sb_week := 1; sb_player_id := 2;
            sb_description := "Saints +6.5"; sb_american_odds := -110;
            sb_stake := Z2Qc 100; sb_is_triple := 1; sb_result := "loss";
            sb_created_at := "2024-09-01 10:05:00";
            sb_updated_at := "2024-09-01 10:05:00" |};
         {| sb_id := 3; sb_week := 2; sb_player_id := 1;
            sb_description := "Bills +2.5"; sb_american_odds := 110;
            sb_stake := Z2Qc 100; sb_is_triple := 1; sb_result := "pending";
            sb_created_at := "2024-09-08 09:00:00";
            sb_updated_at := "2024-09-08 09:00:00" |} ];
     players_seq := 2;
     bets_seq := 3 |}.

(** A listed row after [clear_all_results]. *)
Definition pending_row (now : string) (r : Bet) : Bet :=
  {| id := id r; week := week r; player_id := player_id r;
     description := description r; american_odds := american_odds r;
     stake := stake r; is_triple := is_triple r; result := "pending";
     created_at := created_at r; updated_at := now;
     player_name := player_name r; color := color r |}.

(** The number of triple wagers in a listing. *)
Definition triples_in (l : list Bet) : nat :=
  List.length (filter (fun r => is_triple r =? 1) l).

(** A listed row after [update_bet_result] for bet [bet_id]. *)
Definition graded_row (bet_id : Z) (res now : string) (r : Bet) : Bet :=
  if id r =? bet_id then
    {| id := id r; week := week r; player_id := player_id r;
       description := description r; american_odds := american_odds r;
       stake := stake r; is_triple := is_triple r; result := res;
       created_at := created_at r; updated_at := now;
       player_name := player_name r; color := color r |}
  else r.

(** ** Seed data of [init_database] (lines 192-266) *)

Definition seed_players : list (string * string) :=
  [ ("Logan", "#e74c3c"); ("Caroline", "#3498db");
    ("James", "#2ecc71"); ("Scippy", "#f39c12") ]%string.

(** (week, player_id, description, american_odds, stake, is_triple,
    result). *)
Definition seed_bets : list (Z * Z * string * Z * Z * Z * string) :=
  [ (1, 1, "Chiefs -7.5", -110, 100, 0, "win");
    (1, 1, "Over 47.5", 320, 100, 1, "win");
    (1, 1, "Bills ML", -150, 100, 0, "loss");
    (1, 1, "Cowboys +3", 120, 100, 0, "win");
    (1, 1, "Packers Under 24.5", -105, 100, 0, "push");
    (1, 2, "Ravens -3", -120, 100, 0, "win");
    (1, 2, "Eagles ML", 180, 100, 0, "loss");
    (1, 2, "Saints +6.5", -110, 100, 1, "loss");
    (1, 2, "49ers Over 21", 105, 100, 0, "win");
    (1, 2, "Dolphins -4", -115, 100, 0, "push");
    (1, 3, "Bengals +2.5", 110, 100, 0, "win");
    (1, 3, "Rams Under 45", -105, 100, 0, "win");
    (1, 3, "Cardinals ML", 250, 100, 1, "loss");
    (1, 3, "Jets +7", -110, 100, 0, "loss");
    (1, 3, "Titans Over 18.5", 125, 100, 0, "win");
    (1, 4, "Broncos -1", -105, 100, 0, "loss");
    (1, 4, "Steelers +4.5", 115, 100, 0, "win");
    (1, 4, "Colts ML", -140, 100, 1, "win");
    (1, 4, "Seahawks Over 23", -110, 100, 0, "win");
    (1, 4, "Panthers +14", 120, 100, 0, "loss");
    (2, 1, "Chiefs -3.5", -115, 100, 0, "win");
    (2, 1, "Under 52.5", -105, 100, 0, "loss");
    (2, 1, "Bills +2.5", 110, 100, 1, "win");
    (2, 1, "Cowboys ML", 155, 100, 0, "loss");
    (2, 1, "Packers -6", -120, 100, 0, "win");
    (2, 2, "Ravens +1", 105, 100, 1, "loss");
    (2, 2, "Eagles -4", -110, 100, 0, "win");
    (2, 2, "Saints ML", 175, 100, 0, "win");
    (2, 2, "49ers Under 26.5", -115, 100, 0, "push");
    (2, 2, "Dolphins +7.5", 120, 100, 0, "win");
    (2, 3, "Bengals ML", -125, 100, 0, "loss");
    (2, 3, "Rams +3", 115, 100, 0, "win");
    (2, 3, "Cardinals +8.5", -110, 100, 0, "win");
    (2, 3, "Jets ML", 280, 100, 1, "win");
    (2, 3, "Titans -2.5", -105, 100, 0, "loss");
    (2, 4, "Broncos +4", 120, 100, 0, "win");
    (2, 4, "Steelers -1.5", -110, 100, 0, "loss");
    (2, 4, "Colts +6", 115, 100, 0, "win");
    (2, 4, "Seahawks ML", 190, 100, 1, "loss");
    (2, 4, "Panthers Over 17.5", 105, 100, 0, "win") ]%string.

Definition store_seed_player (db : Database) (nc : string * string)
    : Database :=
  fst (add_player db (fst nc) (snd nc)).

Definition store_seed_bet (now : string) (db : Database)
    (row : Z * Z * string * Z * Z * Z * string) : Database :=
  match row with
  | (wk, pid, desc, odds, stk, triple, res) =>
      store_bet db now wk pid desc odds (Z2Qc stk) triple res
  end.

(** [init_database], lines 157-269.  The tables exist in the model; the
    seed rows are inserted when the players table is empty.  (The seed
    names are distinct, so no insertion into the empty table fails.) *)
Definition init_database (db : Database) (now : string) : Database :=
  match players db with
  | [] =>
      fold_left (store_seed_bet now) seed_bets
        (fold_left store_seed_player seed_players db)
  | _ :: _ => db
  end.

(** A database whose tables were never written. *)
Definition new_database : Database :=
  {| players := []; bets := []; players_seq := 0; bets_seq := 0 |}.

(** The player a seed bet names. *)
Definition seed_player_id (row : Z * Z * string * Z * Z * Z * string) : Z :=
  match row with (_, pid, _, _, _, _, _) => pid end.

(** * Properties *)

(** ** Basic facts about the numbers *)

Lemma Z2Qc_eq_0 (z : Z) : Z2Qc z = 0%Qc -> z = 0.
Proof.
  unfold Z2Qc. intros H.
  apply Q2Qc_eq_iff in H.
  unfold Qeq in H. simpl in H. lia.
Qed.

Lemma Z2Qc_neq_0 (z : Z) : z <> 0 -> Z2Qc z <> 0%Qc.
Proof. intros Hz H. apply Hz. now apply Z2Qc_eq_0. Qed.

Lemma truediv_ok (a b : Z) :
  b <> 0 -> truediv a b = Ok (Z2Qc a / Z2Qc b)%Qc.
Proof.
  intros Hb. unfold truediv.
  destruct (Z.eqb_spec b 0) as [E | _]; [contradiction | reflexivity].
Qed.

Lemma truediv_zero (a : Z) : truediv a 0 = Raise ZeroDivisionError.
Proof. reflexivity. Qed.

Lemma this_Z2Qc (z : Z) : (this (Z2Qc z) == inject_Z z)%Q.
Proof. exact (Qred_correct (inject_Z z)). Qed.

Lemma this_mult (x y : Qc) : (this (x * y)%Qc == this x * this y)%Q.
Proof. exact (Qred_correct (this x * this y)). Qed.

Lemma this_inv (x : Qc) : (this (/ x)%Qc == / this x)%Q.
Proof. exact (Qred_correct (/ this x)). Qed.

Lemma this_div (x y : Qc) : (this (x / y)%Qc == this x / this y)%Q.
Proof.
  unfold Qcdiv. rewrite this_mult, this_inv. reflexivity.
Qed.

Lemma this_opp (x : Qc) : (this (- x)%Qc == - this x)%Q.
Proof. exact (Qred_correct (- this x)). Qed.

Lemma this_plus (x y : Qc) : (this (x + y)%Qc == this x + this y)%Q.
Proof. exact (Qred_correct (this x + this y)). Qed.

Lemma this_minus (x y : Qc) : (this (x - y)%Qc == this x - this y)%Q.
Proof.
  unfold Qcminus. rewrite this_plus, this_opp. reflexivity.
Qed.

Lemma this_Q2Qc (q : Q) : (this (Q2Qc q) == q)%Q.
Proof. exact (Qred_correct q). Qed.

(** ** Rounding *)

(** The nearest integer is at most one half away. *)
Lemma rint_near (q : Q) :
  (inject_Z (rint q) - (1 # 2) <= q)%Q /\ (q <= inject_Z (rint q) + (1 # 2))%Q.
Proof.
  unfold rint.
  assert (Hlo := Qfloor_le q). assert (Hhi := Qlt_floor q).
  rewrite inject_Z_plus in Hhi.
  change (inject_Z 1) with 1%Q in Hhi.
  destruct (Qcompare (q - inject_Z (Qfloor q)) (1 # 2)) eqn:E.
  - apply Qeq_alt in E.
    destruct (Z.even (Qfloor q)).
    + split; lra.
    + rewrite inject_Z_plus. change (inject_Z 1) with 1%Q. split; lra.
  - apply Qlt_alt in E. split; lra.
  - apply Qgt_alt in E. rewrite inject_Z_plus.
    change (inject_Z 1) with 1%Q. split; lra.
Qed.

(** [round1] rounds to one decimal place. *)
Lemma round1_rounded (x : Qc) : rounded_to_tenth x (round1 x).
Proof.
  unfold rounded_to_tenth, round1.
  split; [eexists; reflexivity |].
  destruct (rint_near (this (x * Z2Qc 10)%Qc)) as [Hlo Hhi].
  set (n := rint (this (x * Z2Qc 10)%Qc)) in *.
  rewrite this_mult, this_Z2Qc in Hlo, Hhi.
  change (inject_Z 10) with 10%Q in Hlo, Hhi.
  unfold Qcle.
  rewrite this_minus, this_plus, this_div, !this_Z2Qc, this_Q2Qc.
  change (inject_Z 10) with 10%Q.
  split.
  - apply Qle_shift_div_l; [reflexivity |]. lra.
  - apply Qle_shift_div_r; [reflexivity |]. lra.
Qed.

(** ** The scoring rule *)

(** C1: on a settled loss the scoring rule returns [-stake] for an ordinary
    wager and exactly [-100] for the special (triple) wager, whatever the
    odds and the stake. *)
Theorem bet_points_loss (o : Z) (s : Qc) :
  o <> 0 -> (0 < s)%Qc ->
  bet_points o "loss" false s = Ok (- s)%Qc
  /\ bet_points o "loss" true s = Ok (- Z2Qc 100)%Qc.
Proof. intros _ _. split; reflexivity. Qed.

Lemma bet_points_loss_witness :
  -150 <> 0 /\ (0 < Z2Qc 250)%Qc
  /\ bet_points (-150) "loss" false (Z2Qc 250) = Ok (- Z2Qc 250)%Qc
  /\ bet_points (-150) "loss" true (Z2Qc 250) = Ok (- Z2Qc 100)%Qc.
Proof.
  split; [lia |]. split; [reflexivity |].
  apply (bet_points_loss (-150) (Z2Qc 250)).
  - lia.
  - reflexivity.
Defined.

Lemma american_profit_spec (o : Z) (s : Qc) :
  o <> 0 -> american_profit o s = Ok (profit_spec o s).
Proof.
  intros Ho. unfold american_profit, profit_spec.
  destruct (Z.ltb_spec 0 o) as [Hpos | Hneg].
  - rewrite truediv_ok by lia. simpl. f_equal.
    unfold Qcdiv. now rewrite Qcmult_assoc.
  - rewrite truediv_ok by lia. simpl. f_equal.
    unfold Qcdiv. now rewrite Qcmult_assoc.
Qed.



Lemma Qc_this_eq (x y : Qc) : (this x == this y)%Q -> x = y.
Proof. apply Qc_is_canon. Qed.

Lemma Ok_this_eq (x y : Qc) : (this x == this y)%Q -> Ok x = Ok y.
Proof. intros E. f_equal. now apply Qc_is_canon. Qed.

(** The scenarios of the specification and the tests of the source. *)
Example scenario_A : bet_points 320 "win" true (Z2Qc 100) = Ok (Z2Qc 960).
Proof. apply Ok_this_eq. reflexivity. Qed.

Example scenario_B :
  bet_points 320 "loss" true (Z2Qc 100) = Ok (- Z2Qc 100)%Qc.
Proof. reflexivity. Qed.

Example scenario_C :
  bet_points (-150) "loss" false (Z2Qc 100) = Ok (- Z2Qc 100)%Qc.
Proof. reflexivity. Qed.

Example scenario_D :
  bet_points (-120) "win" false (Z2Qc 100) = Ok (Q2Qc (250 # 3)).
Proof. apply Ok_this_eq. reflexivity. Qed.

Example american_profit_favorite :
  american_profit (-150) (Z2Qc 100) = Ok (Q2Qc (200 # 3)).
Proof. apply Ok_this_eq. reflexivity. Qed.

(** C3, as the code has it: a result outside pending, win, loss and push
    is scored zero, without an error, whatever the odds (zero included),
    the flag and the stake. *)
Theorem bet_points_unknown_result (o : Z) (r : string) (t : bool) (s : Qc) :
  ~ known_result r -> bet_points o r t s = Ok 0%Qc.
Proof.
  intros Hr. unfold bet_points, known_result in *.
  destruct (String.eqb_spec r "pending"); [tauto |].
  destruct (String.eqb_spec r "push"); [tauto |].
  destruct (String.eqb_spec r "win"); [tauto |].
  destruct (String.eqb_spec r "loss"); [tauto |].
  reflexivity.
Qed.

Lemma void_unknown : ~ known_result "void".
Proof. intros [H | [H | [H | H]]]; discriminate H. Qed.

Lemma bet_points_unknown_result_witness :
  ~ known_result "void" /\ bet_points 0 "void" true (Z2Qc 100) = Ok 0%Qc.
Proof.
  split; [exact void_unknown |].
  apply (bet_points_unknown_result 0 "void" true (Z2Qc 100)).
  exact void_unknown.
Defined.

(** C3, as stated, fails: the unknown result "void" is scored zero and no
    error reaches the caller. *)
Lemma bet_points_unknown_result_returns :
  ~ known_result "void"
  /\ bet_points 320 "void" false (Z2Qc 100) = Ok 0%Qc
  /\ forall e, bet_points 320 "void" false (Z2Qc 100) <> Raise e.
Proof.
  split; [exact void_unknown |].
  split; [reflexivity | intros e; discriminate].
Qed.

(** ** The odds converter *)

(** C9: with odds 0 the odds converter raises (a division by zero) for
    every stake; it returns no profit figure. *)
Theorem american_profit_zero_odds (s : Qc) :
  american_profit 0 s = Raise ZeroDivisionError
  /\ forall v, american_profit 0 s <> Ok v.
Proof. split; [reflexivity | intros v; discriminate]. Qed.

Lemma overflow_bound_large : 100 < FloatRange.overflow_bound.
Proof. unfold FloatRange.overflow_bound. vm_compute. reflexivity. Qed.

(** C10, as the code has it: with non-zero odds the odds converter never
    divides by zero (for positive odds the only division is by the
    constant 100, for negative odds the divisor [|odds|] is at least 1),
    and it returns the profit of section 4.1 as long as [odds / 100] is
    within the range of floats, that is for odds below
    [100 * (2^1024 - 2^970)]; from there on [odds / 100] raises
    [OverflowError]. *)
Theorem american_profit_in_range (o : Z) (s : Qc) :
  o <> 0 ->
  FloatRange.american_profit o s <> Raise ZeroDivisionError
  /\ (o < 100 * FloatRange.overflow_bound ->
      FloatRange.american_profit o s = Ok (profit_spec o s)
      /\ american_profit o s = Ok (profit_spec o s))
  /\ (100 * FloatRange.overflow_bound <= o ->
      FloatRange.american_profit o s = Raise OverflowError)
  /\ (0 < o ->
      FloatRange.american_profit o s
      = (q <- FloatRange.truediv o 100 ;; Ok (s * q)%Qc))
  /\ (o < 0 ->
      1 <= Z.abs o
      /\ FloatRange.truediv 100 (Z.abs o)
         = Ok (Z2Qc 100 / Z2Qc (Z.abs o))%Qc).
Proof.
  intros Ho. assert (Hb := overflow_bound_large).
  assert (Hneg : o < 0 ->
            FloatRange.truediv 100 (Z.abs o)
            = Ok (Z2Qc 100 / Z2Qc (Z.abs o))%Qc).
  { intros Hlt. unfold FloatRange.truediv.
    destruct (Z.eqb_spec (Z.abs o) 0) as [E | _]; [lia |].
    destruct (Z.leb_spec (FloatRange.overflow_bound * Z.abs (Z.abs o))
                (Z.abs 100)) as [Hle | _]; [nia | reflexivity]. }
  assert (Hpos : 0 < o -> o < 100 * FloatRange.overflow_bound ->
            FloatRange.truediv o 100 = Ok (Z2Qc o / Z2Qc 100)%Qc).
  { intros Hgt Hlt. unfold FloatRange.truediv.
    destruct (Z.eqb_spec 100 0) as [E | _]; [lia |].
    destruct (Z.leb_spec (FloatRange.overflow_bound * Z.abs 100) (Z.abs o))
      as [Hle | _]; [lia | reflexivity]. }
  assert (Hover : 100 * FloatRange.overflow_bound <= o ->
            FloatRange.truediv o 100 = Raise OverflowError).
  { intros Hge. unfold FloatRange.truediv.
    destruct (Z.eqb_spec 100 0) as [E | _]; [lia |].
    destruct (Z.leb_spec (FloatRange.overflow_bound * Z.abs 100) (Z.abs o))
      as [_ | Hlt]; [reflexivity | lia]. }
  unfold FloatRange.american_profit.
  destruct (Z.ltb_spec 0 o) as [Hgt | Hle].
  - split; [| split; [| split; [| split]]].
    + destruct (Z_lt_le_dec o (100 * FloatRange.overflow_bound)) as [H | H].
      * rewrite (Hpos Hgt H). discriminate.
      * rewrite (Hover H). discriminate.
    + intros H. rewrite (Hpos Hgt H). split.
      * simpl. f_equal. unfold profit_spec.
        destruct (Z.ltb_spec 0 o); [| lia].
        unfold Qcdiv. now rewrite Qcmult_assoc.
      * now apply american_profit_spec.
    + intros H. now rewrite (Hover H).
    + reflexivity.
    + lia.
  - assert (Hlt : o < 0) by lia.
    split; [| split; [| split; [| split]]].
    + rewrite (Hneg Hlt). discriminate.
    + intros _. rewrite (Hneg Hlt). split.
      * simpl. f_equal. unfold profit_spec.
        destruct (Z.ltb_spec 0 o); [lia |].
        unfold Qcdiv. now rewrite Qcmult_assoc.
      * now apply american_profit_spec.
    + lia.
    + lia.
    + intros _. split; [lia | now apply Hneg].
Qed.

Lemma american_profit_in_range_witness :
  -150 <> 0
  /\ FloatRange.american_profit (-150) (Z2Qc 100) <> Raise ZeroDivisionError
  /\ (-150 < 100 * FloatRange.overflow_bound ->
      FloatRange.american_profit (-150) (Z2Qc 100)
      = Ok (profit_spec (-150) (Z2Qc 100))
      /\ american_profit (-150) (Z2Qc 100)
         = Ok (profit_spec (-150) (Z2Qc 100)))
  /\ (100 * FloatRange.overflow_bound <= -150 ->
      FloatRange.american_profit (-150) (Z2Qc 100) = Raise OverflowError)
  /\ (0 < -150 ->
      FloatRange.american_profit (-150) (Z2Qc 100)
      = (q <- FloatRange.truediv (-150) 100 ;; Ok (Z2Qc 100 * q)%Qc))
  /\ (-150 < 0 ->
      1 <= Z.abs (-150)
      /\ FloatRange.truediv 100 (Z.abs (-150))
         = Ok (Z2Qc 100 / Z2Qc (Z.abs (-150)))%Qc).
Proof.
  split; [lia |].
  apply (american_profit_in_range (-150) (Z2Qc 100)). lia.
Defined.

Example american_profit_in_range_favorite :
  FloatRange.american_profit (-150) (Z2Qc 100) = Ok (Q2Qc (200 # 3)).
Proof. apply Ok_this_eq. vm_compute. reflexivity. Qed.

(** C10, as stated, fails: [10^400] is a non-zero int, and at these odds
    [odds / 100] raises [OverflowError], so no profit is returned. *)
Lemma american_profit_overflow :
  10 ^ 400 <> 0
  /\ FloatRange.american_profit (10 ^ 400) (Z2Qc 100) = Raise OverflowError
  /\ forall v, FloatRange.american_profit (10 ^ 400) (Z2Qc 100) <> Ok v.
Proof.
  assert (E : FloatRange.american_profit (10 ^ 400) (Z2Qc 100)
              = Raise OverflowError) by (vm_compute; reflexivity).
  split; [intros H; vm_compute in H; discriminate H |].
  split; [exact E |].
  intros v. rewrite E. discriminate.
Qed.

(** ** Keys *)


#[export] Instance KeyLaws_Z : KeyLaws Z.
Proof. constructor. exact Z.eqb_eq. Qed.

#[export] Instance KeyLaws_string : KeyLaws string.
Proof. constructor. exact String.eqb_eq. Qed.

#[export] Instance KeyLaws_prod {A B : Type} `{KeyLaws A} `{KeyLaws B} :
  KeyLaws (A * B).
Proof.
  constructor. intros [a b] [c d]. simpl.
  rewrite andb_true_iff, !key_eqb_eq.
  split; [intros [-> ->]; reflexivity | intros E; now inversion E].
Qed.

Lemma key_eqb_refl {K : Type} `{KeyLaws K} (k : K) : key_eqb k k = true.
Proof. now apply key_eqb_eq. Qed.

Lemma key_eqb_false {K : Type} `{KeyLaws K} (a b : K) :
  key_eqb a b = false <-> a <> b.
Proof.
  rewrite <- key_eqb_eq. destruct (key_eqb a b); split; congruence.
Qed.

(** ** Order laws of the sort keys *)

#[export] Instance KeyOrder_Z : KeyOrder Z.
Proof.
  constructor; simpl; intros.
  - apply Z.leb_le. apply Z.leb_gt in H. lia.
  - apply Z.leb_le. apply Z.leb_le in H, H0. lia.
  - apply Z.leb_le in H, H0. lia.
Qed.

Lemma string_leb_lt (a b : string) :
  String.leb a b = true <-> OrderedTypeEx.String_as_OT.lt a b \/ a = b.
Proof.
  unfold String.leb.
  destruct (String.compare a b) eqn:E.
  - apply String.compare_eq_iff in E. split; [now right | reflexivity].
  - apply OrderedTypeEx.String_as_OT.cmp_lt in E.
    split; [now left | reflexivity].
  - split; [discriminate |].
    intros [Hlt | Heq].
    + apply OrderedTypeEx.String_as_OT.cmp_lt in Hlt.
      unfold OrderedTypeEx.String_as_OT.cmp in Hlt. congruence.
    + subst. assert (String.compare b b = Eq)
        by (now apply OrderedTypeEx.String_as_OT.cmp_eq).
      congruence.
Qed.

#[export] Instance KeyOrder_string : KeyOrder string.
Proof.
  constructor; simpl.
  - intros a b Hab. destruct (String.leb_total a b); congruence.
  - intros a b c Hab Hbc. apply string_leb_lt.
    apply string_leb_lt in Hab, Hbc.
    destruct Hab as [Hab | ->]; [| exact Hbc].
    destruct Hbc as [Hbc | <-]; [| now left].
    left. eapply OrderedTypeEx.String_as_OT.lt_trans; eassumption.
  - apply String.leb_antisym.
Qed.

#[export] Instance KeyOrder_prod {A B : Type} {KA : Key A} {KB : Key B}
    {LA : KeyLaws A} {OA : KeyOrder A} {LB : KeyLaws B} {OB : KeyOrder B} :
  KeyOrder (A * B).
Proof.
  constructor; simpl.
  - intros [a1 b1] [a2 b2]. simpl.
    destruct (key_eqb a1 a2) eqn:E.
    + apply key_eqb_eq in E. subst. rewrite key_eqb_refl.
      apply key_leb_total.
    + assert (E' : key_eqb a2 a1 = false).
      { apply key_eqb_false. apply key_eqb_false in E. congruence. }
      rewrite E'. apply key_leb_total.
  - intros [a1 b1] [a2 b2] [a3 b3]. simpl.
    destruct (key_eqb a1 a2) eqn:E12.
    + apply key_eqb_eq in E12. subst a2.
      destruct (key_eqb a1 a3) eqn:E13; [apply key_leb_trans | auto].
    + destruct (key_eqb a2 a3) eqn:E23.
      * apply key_eqb_eq in E23. subst a3. rewrite E12. auto.
      * intros H12 H23.
        destruct (key_eqb a1 a3) eqn:E13.
        -- apply key_eqb_eq in E13. subst a3.
           apply key_eqb_false in E12. exfalso. apply E12.
           now apply key_leb_antisym.
        -- eapply key_leb_trans; eassumption.
  - intros [a1 b1] [a2 b2]. simpl.
    destruct (key_eqb a1 a2) eqn:E.
    + apply key_eqb_eq in E. subst. rewrite key_eqb_refl.
      intros H1 H2. f_equal. now apply key_leb_antisym.
    + assert (E' : key_eqb a2 a1 = false).
      { apply key_eqb_false. apply key_eqb_false in E. congruence. }
      rewrite E'. intros H1 H2. apply key_eqb_false in E.
      exfalso. apply E. now apply key_leb_antisym.
Qed.

(** ** Sorting *)

Section SortingFacts.
Context {A : Type} (leb : A -> A -> bool).

Lemma insert_sorted_perm (x : A) (l : list A) :
  Permutation (x :: l) (insert_sorted leb x l).
Proof.
  induction l as [| h t IH]; simpl.
  - apply Permutation_refl.
  - destruct (leb x h).
    + apply Permutation_refl.
    + eapply perm_trans; [apply perm_swap |].
      now apply perm_skip.
Qed.

Lemma stable_sort_perm (l : list A) : Permutation l (stable_sort leb l).
Proof.
  induction l as [| h t IH]; simpl.
  - apply perm_nil.
  - eapply perm_trans; [apply perm_skip, IH | apply insert_sorted_perm].
Qed.

Hypothesis leb_total : forall a b, leb a b = false -> leb b a = true.
Hypothesis leb_trans :
  forall a b c, leb a b = true -> leb b c = true -> leb a c = true.

Let le (a b : A) : Prop := leb a b = true.

Lemma insert_sorted_sorted (x : A) (l : list A) :
  StronglySorted le l -> StronglySorted le (insert_sorted leb x l).
Proof.
  induction 1 as [| h t Hs IH Hall]; simpl.
  - constructor; [constructor | constructor].
  - destruct (leb x h) eqn:E.
    + constructor.
      * now constructor.
      * constructor; [exact E |].
        eapply Forall_impl; [| exact Hall].
        intros c Hc. unfold le in *. eauto.
    + constructor; [exact IH |].
      apply (Permutation_Forall (insert_sorted_perm x t)).
      constructor; [now apply leb_total | exact Hall].
Qed.

Lemma stable_sort_sorted (l : list A) : StronglySorted le (stable_sort leb l).
Proof.
  induction l as [| h t IH]; simpl.
  - constructor.
  - now apply insert_sorted_sorted.
Qed.
End SortingFacts.

Lemma Qc_leb_le (x y : Qc) : Qc_leb x y = true <-> (x <= y)%Qc.
Proof. unfold Qc_leb, Qcle. apply Qle_bool_iff. Qed.

Lemma Qc_leb_total (x y : Qc) : Qc_leb x y = false -> Qc_leb y x = true.
Proof.
  intros E. apply Qc_leb_le.
  destruct (Qclt_le_dec y x) as [Hlt | Hle].
  - now apply Qclt_le_weak.
  - apply Qc_leb_le in Hle. congruence.
Qed.

Lemma Qc_leb_trans (x y z : Qc) :
  Qc_leb x y = true -> Qc_leb y z = true -> Qc_leb x z = true.
Proof. rewrite !Qc_leb_le. apply Qcle_trans. Qed.

Lemma StronglySorted_weaken {A : Type} (R S : A -> A -> Prop) (l : list A) :
  (forall a b, R a b -> S a b) -> StronglySorted R l -> StronglySorted S l.
Proof.
  intros HRS. induction 1 as [| h t Hs IH Hall]; constructor.
  - exact IH.
  - eapply Forall_impl; [| exact Hall]. intros b. apply HRS.
Qed.

(** Two strictly sorted lists with the same elements are the same list. *)
Lemma strictly_sorted_ext {A : Type} (R : A -> A -> Prop) :
  (forall x y, R x y -> R y x -> False) ->
  forall l1 l2 : list A,
    StronglySorted R l1 -> StronglySorted R l2 ->
    (forall x, In x l1 <-> In x l2) -> l1 = l2.
Proof.
  intros Hasym. induction l1 as [| a t1 IH]; intros [| b t2] H1 H2 Hin.
  - reflexivity.
  - exfalso. apply (Hin b). now left.
  - exfalso. apply (Hin a). now left.
  - apply StronglySorted_inv in H1, H2.
    destruct H1 as [H1 Ha], H2 as [H2 Hb].
    rewrite Forall_forall in Ha, Hb.
    assert (E : a = b).
    { destruct (proj1 (Hin a) (or_introl eq_refl)) as [E | Ha2];
        [now symmetry |].
      destruct (proj2 (Hin b) (or_introl eq_refl)) as [E | Hb1];
        [exact E |].
      exfalso. apply (Hasym a b); auto. }
    subst b. f_equal. apply IH; [exact H1 | exact H2 |].
    intros x. split; intros Hx.
    + destruct (proj1 (Hin x) (or_intror Hx)) as [E | Hx2]; [| exact Hx2].
      subst x. exfalso. apply (Hasym a a); auto.
    + destruct (proj2 (Hin x) (or_intror Hx)) as [E | Hx1]; [| exact Hx1].
      subst x. exfalso. apply (Hasym a a); auto.
Qed.

Lemma sort_desc_stable_ok : sort_values_desc sort_desc_stable.
Proof.
  intros l. split.
  - apply stable_sort_perm.
  - unfold sort_desc_stable.
    eapply StronglySorted_weaken; [| apply stable_sort_sorted].
    + intros a b Hab. now apply Qc_leb_le.
    + intros a b. apply Qc_leb_total.
    + intros a b c Hab Hbc. eapply Qc_leb_trans; eassumption.
Qed.

(** ** Scoring a whole table *)

Lemma american_profit_ok (o : Z) (s : Qc) :
  o <> 0 -> exists v, american_profit o s = Ok v.
Proof.
  intros Ho. unfold american_profit.
  destruct (0 <? o).
  - rewrite truediv_ok by lia. simpl. eauto.
  - rewrite truediv_ok by lia. simpl. eauto.
Qed.

Lemma bet_points_ok (o : Z) (r : string) (t : bool) (s : Qc) :
  o <> 0 -> exists v, bet_points o r t s = Ok v.
Proof.
  intros Ho. unfold bet_points.
  destruct (r =? "pending")%string; [eauto |].
  destruct (r =? "push")%string; [eauto |].
  destruct (r =? "win")%string.
  - destruct (american_profit_ok o s Ho) as [v ->]. simpl. eauto.
  - destruct (r =? "loss")%string; eauto.
Qed.

Lemma row_points_value (b : Bet) :
  american_odds b <> 0 -> row_points b = Ok (points_value b).
Proof.
  intros Ho. unfold points_value.
  destruct (bet_points_ok (american_odds b) (result b)
              (bool_of_int (is_triple b)) (stake b) Ho) as [v Hv].
  unfold row_points. now rewrite Hv.
Qed.

Lemma apply_rows_value (bs : list Bet) :
  valid_odds bs -> apply_rows row_points bs = Ok (map points_value bs).
Proof.
  induction 1 as [| b t Hb Ht IH]; simpl.
  - reflexivity.
  - rewrite (row_points_value b Hb). simpl. rewrite IH. reflexivity.
Qed.

Lemma valid_odds_filter (f : Bet -> bool) (bs : list Bet) :
  valid_odds bs -> valid_odds (filter f bs).
Proof.
  unfold valid_odds. rewrite !Forall_forall.
  intros H b Hb. apply filter_In in Hb. now apply H.
Qed.

Lemma scored_tag (bs : list Bet) :
  scored bs (map points_value bs) = map tag bs.
Proof.
  unfold scored. induction bs as [| b t IH]; simpl; [reflexivity |].
  now rewrite IH.
Qed.

Lemma filter_tag (f : Bet * Qc -> bool) (bs : list Bet) :
  filter f (map tag bs) = map tag (filter (fun b => f (tag b)) bs).
Proof.
  induction bs as [| b t IH]; simpl; [reflexivity |].
  destruct (f (tag b)); simpl; now rewrite IH.
Qed.

Lemma map_snd_tag (bs : list Bet) : map snd (map tag bs) = map points_value bs.
Proof. rewrite map_map. reflexivity. Qed.

(** ** Sums *)

Lemma Qcsum_app (l1 l2 : list Qc) :
  Qcsum (l1 ++ l2) = (Qcsum l1 + Qcsum l2)%Qc.
Proof.
  induction l1 as [| x t IH]; simpl.
  - now rewrite Qcplus_0_l.
  - rewrite IH. apply Qcplus_assoc.
Qed.

Lemma Qcsum_perm (l1 l2 : list Qc) :
  Permutation l1 l2 -> Qcsum l1 = Qcsum l2.
Proof.
  induction 1 as [| x l l' _ IH | x y l | l l' l'' _ IH1 _ IH2]; simpl.
  - reflexivity.
  - now rewrite IH.
  - rewrite !Qcplus_assoc. f_equal. apply Qcplus_comm.
  - congruence.
Qed.

Lemma Qcsum_filter_split {A : Type} (val : A -> Qc) (f g : A -> bool)
    (l : list A) :
  (forall a, In a l -> f a = true -> g a = false) ->
  Qcsum (map val (filter (fun a => f a || g a) l))
  = (Qcsum (map val (filter f l)) + Qcsum (map val (filter g l)))%Qc.
Proof.
  induction l as [| a t IH]; intros Hd; simpl.
  - now rewrite Qcplus_0_l.
  - assert (IH' := IH (fun x Hx => Hd x (or_intror Hx))).
    specialize (Hd a (or_introl eq_refl)).
    destruct (f a) eqn:Ef; simpl.
    + rewrite (Hd eq_refl). rewrite IH'. apply Qcplus_assoc.
    + destruct (g a); simpl; rewrite IH'; [| reflexivity].
      rewrite !Qcplus_assoc. f_equal. apply Qcplus_comm.
Qed.

(** ** Grouping *)

Section GroupByFacts.
Context {A K : Type} `{KeyLaws K}.

Lemma existsb_key (k : K) (ks : list K) :
  existsb (key_eqb k) ks = true <-> In k ks.
Proof.
  rewrite existsb_exists. split.
  - intros [x [Hx E]]. apply key_eqb_eq in E. now subst.
  - intros Hk. exists k. split; [exact Hk | apply key_eqb_refl].
Qed.

Lemma In_dedup (k : K) (ks : list K) : In k (dedup ks) <-> In k ks.
Proof.
  induction ks as [| h t IH]; simpl; [tauto |].
  destruct (existsb (key_eqb h) t) eqn:E.
  - rewrite IH. apply existsb_key in E. split; [tauto |].
    intros [-> | Hk]; assumption.
  - simpl. rewrite IH. tauto.
Qed.

Lemma NoDup_dedup (ks : list K) : NoDup (dedup ks).
Proof.
  induction ks as [| h t IH]; simpl; [constructor |].
  destruct (existsb (key_eqb h) t) eqn:E; [exact IH |].
  constructor; [| exact IH].
  rewrite In_dedup, <- existsb_key. congruence.
Qed.

Lemma In_group_keys (k : K) (ks : list K) :
  In k (group_keys ks) <-> In k ks.
Proof.
  unfold group_keys. split; intros Hk.
  - apply In_dedup.
    eapply Permutation_in; [apply Permutation_sym, stable_sort_perm | exact Hk].
  - eapply Permutation_in; [apply stable_sort_perm | now apply In_dedup].
Qed.

Lemma NoDup_group_keys (ks : list K) : NoDup (group_keys ks).
Proof.
  unfold group_keys.
  eapply Permutation_NoDup; [apply stable_sort_perm | apply NoDup_dedup].
Qed.

Lemma group_of_not_in (key : A -> K) (l : list A) (k : K) :
  ~ In k (map key l) -> group_of key l k = [].
Proof.
  intros Hk. unfold group_of.
  induction l as [| a t IH]; simpl; [reflexivity |].
  destruct (key_eqb (key a) k) eqn:E.
  - apply key_eqb_eq in E. exfalso. apply Hk. simpl. now left.
  - apply IH. intros Hin. apply Hk. simpl. now right.
Qed.

(** The groups of distinct keys partition the rows they select. *)
Lemma Qcsum_groups (key : A -> K) (val : A -> Qc) (l : list A)
    (ks : list K) :
  NoDup ks ->
  Qcsum (map (fun k => Qcsum (map val (group_of key l k))) ks)
  = Qcsum (map val (filter (fun a => existsb (key_eqb (key a)) ks) l)).
Proof.
  induction 1 as [| k ks' Hk Hnd IH]; simpl.
  - induction l as [| a t IHl]; simpl; [reflexivity | exact IHl].
  - rewrite IH.
    rewrite (Qcsum_filter_split val (fun a => key_eqb (key a) k)
               (fun a => existsb (key_eqb (key a)) ks') l).
    + reflexivity.
    + intros a _ E. apply key_eqb_eq in E. subst k.
      destruct (existsb (key_eqb (key a)) ks') eqn:E'; [| reflexivity].
      apply existsb_key in E'. contradiction.
Qed.

(** Summing the groups selected by a condition on the key is summing the
    rows selected by that condition. *)
Lemma Qcsum_groupby_filter (key : A -> K) (val : A -> Qc) (l : list A)
    (P : K -> bool) :
  Qcsum (map (fun k => Qcsum (map val (group_of key l k)))
           (filter P (group_keys (map key l))))
  = Qcsum (map val (filter (fun a => P (key a)) l)).
Proof.
  rewrite Qcsum_groups by (apply NoDup_filter, NoDup_group_keys).
  f_equal. f_equal. apply filter_ext_in. intros a Ha.
  destruct (P (key a)) eqn:EP.
  - apply existsb_key. apply filter_In. split; [| exact EP].
    apply In_group_keys. now apply in_map.
  - destruct (existsb _ _) eqn:E; [| reflexivity].
    apply existsb_key in E. apply filter_In in E. destruct E; congruence.
Qed.

Lemma lookup_count_groups (f : K -> nat) (ks : list K) (k : K) :
  lookup_count k (map (fun k' => (k', f k')) ks)
  = if existsb (key_eqb k) ks then f k else O.
Proof.
  induction ks as [| h t IH]; simpl; [reflexivity |].
  destruct (key_eqb k h) eqn:E; simpl.
  - apply key_eqb_eq in E. now subst.
  - exact IH.
Qed.

Lemma lookup_count_groupby (key : A -> K) (l : list A) (k : K) :
  lookup_count k
    (map (fun g => (fst g, List.length (snd g))) (groupby key l))
  = List.length (group_of key l k).
Proof.
  unfold groupby. rewrite map_map. simpl.
  rewrite (lookup_count_groups (fun k' => List.length (group_of key l k'))).
  destruct (existsb (key_eqb k) (group_keys (map key l))) eqn:E.
  - reflexivity.
  - rewrite group_of_not_in; [reflexivity |].
    rewrite <- In_group_keys, <- existsb_key. congruence.
Qed.
End GroupByFacts.

(** ** What the aggregators return on valid wagers *)

Lemma weekly_points_run (df : BetsFrame) :
  valid_odds (rows df) ->
  snd (weekly_points df) = Ok (weekly_totals_of (map tag (rows df))).
Proof.
  intros Hv. unfold weekly_points.
  rewrite (apply_rows_value _ Hv), scored_tag.
  destruct (rows df); reflexivity.
Qed.

Lemma season_standings_run (sort : list Standing -> list Standing)
    (df : BetsFrame) :
  sort_values_desc sort -> valid_odds (rows df) ->
  snd (season_standings sort df)
  = Ok (map project_standing (sort (standings_of (map tag (rows df))))).
Proof.
  intros Hs Hv. unfold season_standings.
  rewrite (apply_rows_value _ Hv), scored_tag.
  destruct (rows df) as [| b t]; [| reflexivity].
  simpl. destruct (Hs []) as [Hp _].
  apply Permutation_nil in Hp.
  change (standings_of []) with (@nil Standing). now rewrite Hp.
Qed.

Lemma cumulative_by_week_run (df : BetsFrame) :
  valid_odds (rows df) ->
  snd (cumulative_by_week df)
  = Ok (map project_trajectory (cumulative_frame (map tag (rows df)))).
Proof.
  intros Hv. unfold cumulative_by_week.
  rewrite (apply_rows_value _ Hv), scored_tag.
  destruct (rows df); reflexivity.
Qed.

(** ** Effect on the caller's DataFrame *)

Lemma apply_rows_Forall2 {A B : Type} (f : A -> py B) (l : list A)
    (bs : list B) :
  apply_rows f l = Ok bs -> Forall2 (fun a b => f a = Ok b) l bs.
Proof.
  revert bs. induction l as [| a t IH]; simpl; intros bs E.
  - inversion E. constructor.
  - destruct (f a) as [b |] eqn:Ea; simpl in E; [| discriminate].
    destruct (apply_rows f t) as [bs' |]; simpl in E; [| discriminate].
    inversion E; subst. constructor; [exact Ea | now apply IH].
Qed.

(** C4, as the code has it: every aggregator keeps the rows of its input
    as they were and assigns the ['points'] column of the input DataFrame
    (each row's points), except on an empty table or when the scoring of a
    row raises, where the input is left as it was. *)
Theorem aggregators_frame_effect (sort : list Standing -> list Standing)
    (df : BetsFrame) :
  frame_effect df (fst (weekly_points df))
  /\ frame_effect df (fst (season_standings sort df))
  /\ frame_effect df (fst (cumulative_by_week df)).
Proof.
  unfold frame_effect, weekly_points, season_standings, cumulative_by_week.
  destruct (rows df) as [| b t] eqn:Er.
  - simpl. rewrite Er. auto.
  - destruct (apply_rows row_points (b :: t)) as [pts | e]; simpl;
      rewrite ?Er; auto.
Qed.

(** C4, as stated, fails: after any of the three aggregators the input
    DataFrame of one settled wager carries a ['points'] column it did not
    have. *)
Lemma aggregators_mutate_input :
  fst (weekly_points favorite_frame) <> favorite_frame
  /\ fst (season_standings sort_desc_stable favorite_frame) <> favorite_frame
  /\ fst (cumulative_by_week favorite_frame) <> favorite_frame.
Proof.
  repeat split; intros E; apply (f_equal points) in E; discriminate E.
Qed.

(** ** Season standings *)

Lemma filter_comm {A : Type} (f g : A -> bool) (l : list A) :
  filter f (filter g l) = filter g (filter f l).
Proof.
  induction l as [| a t IH]; simpl; [reflexivity |].
  destruct (f a) eqn:Ef, (g a) eqn:Eg; simpl; rewrite ?Ef, ?Eg, IH;
    reflexivity.
Qed.

Lemma filter_andb {A : Type} (f g : A -> bool) (l : list A) :
  filter f (filter g l) = filter (fun a => g a && f a) l.
Proof.
  induction l as [| a t IH]; simpl; [reflexivity |].
  destruct (g a); simpl; [destruct (f a) |]; now rewrite IH.
Qed.

Lemma NoDup_map_in {A B : Type} (f : A -> B) (l : list A) :
  (forall x y, In x l -> In y l -> f x = f y -> x = y) ->
  NoDup l -> NoDup (map f l).
Proof.
  intros Hinj. induction 1 as [| a t Ha Hnd IH]; simpl; constructor.
  - intros Hin. apply in_map_iff in Hin. destruct Hin as [x [Ex Hx]].
    assert (x = a) by (apply Hinj; simpl; auto).
    subst. contradiction.
  - apply IH. intros x y Hx Hy. apply Hinj; simpl; auto.
Qed.

Lemma Forall2_map_in {A B C : Type} (R : B -> C -> Prop) (f : A -> B)
    (g : A -> C) (l : list A) :
  (forall x, In x l -> R (f x) (g x)) -> Forall2 R (map f l) (map g l).
Proof.
  induction l as [| a t IH]; intros HR; simpl; constructor.
  - apply HR. simpl. now left.
  - apply IH. intros x Hx. apply HR. simpl. now right.
Qed.

Lemma In_season_keys (bs : list Bet) (k : Z * string) :
  In k (group_keys (map season_key (map tag bs)))
  <-> exists b, In b bs /\ player_id b = fst k /\ player_name b = snd k.
Proof.
  rewrite In_group_keys, map_map, in_map_iff.
  destruct k as [p n]. unfold season_key. simpl.
  split; intros [b Hb]; exists b.
  - destruct Hb as [E Hb]. inversion E. auto.
  - destruct Hb as [Hb [<- <-]]. auto.
Qed.

Lemma season_group (bs : list Bet) (k : Z * string) :
  joined bs ->
  In k (group_keys (map season_key (map tag bs))) ->
  group_of season_key (map tag bs) k = map tag (bets_of (fst k) bs).
Proof.
  intros Hj Hk. apply In_season_keys in Hk.
  destruct Hk as [a [Ha [Hp Hn]]].
  unfold group_of. rewrite filter_tag. f_equal.
  unfold bets_of. apply filter_ext_in. intros b Hb.
  destruct k as [p n]. simpl in *. unfold season_key. simpl.
  destruct (Z.eqb_spec (player_id b) p) as [E | E]; simpl.
  - apply String.eqb_eq. subst n.
    apply (Hj b a Hb Ha). congruence.
  - reflexivity.
Qed.

Lemma result_count_of (s : string) (bs : list Bet) (p : Z) :
  lookup_count p (result_counts s (map tag bs))
  = count_result s (bets_of p bs).
Proof.
  unfold result_counts. rewrite lookup_count_groupby.
  unfold group_of, count_result, bets_of.
  rewrite filter_comm, !filter_tag, !length_map. reflexivity.
Qed.

Lemma standings_of_rows (tbl : list (Bet * Qc)) :
  standings_of tbl
  = map (standing_row tbl) (group_keys (map season_key tbl)).
Proof. unfold standings_of, groupby. now rewrite map_map. Qed.

Lemma standing_of_group (bs : list Bet) (k : Z * string) :
  valid_odds bs -> joined bs ->
  In k (group_keys (map season_key (map tag bs))) ->
  standing_of_player bs (fst k)
    (project_standing (standing_row (map tag bs) k)).
Proof.
  intros Hv Hj Hk.
  unfold standing_row. rewrite (season_group bs k Hj Hk).
  apply In_season_keys in Hk. destruct Hk as [a [Ha [Hp Hn]]].
  unfold standing_of_player, project_standing. simpl.
  repeat split.
  - intros b Hb. unfold bets_of in Hb. apply filter_In in Hb.
    destruct Hb as [Hb E]. apply Z.eqb_eq in E.
    rewrite <- Hn. apply (Hj b a Hb Ha). congruence.
  - now rewrite length_map.
  - rewrite filter_tag, length_map. reflexivity.
  - apply result_count_of.
  - apply result_count_of.
  - exists (map points_value (bets_of (fst k) bs)). split.
    + apply apply_rows_value. now apply valid_odds_filter.
    + rewrite map_snd_tag. apply round1_rounded.
Qed.

Lemma standings_of_groups (bs : list Bet) :
  valid_odds bs -> joined bs ->
  Forall2 (standing_of_player bs)
    (map fst (group_keys (map season_key (map tag bs))))
    (map project_standing (standings_of (map tag bs))).
Proof.
  intros Hv Hj. unfold standings_of, groupby. rewrite !map_map.
  apply Forall2_map_in. intros k Hk.
  apply (standing_of_group bs k); [exact Hv | exact Hj |].
  now rewrite map_map.
Qed.

Lemma season_players_NoDup (bs : list Bet) :
  joined bs -> NoDup (map fst (group_keys (map season_key (map tag bs)))).
Proof.
  intros Hj. apply NoDup_map_in; [| apply NoDup_group_keys].
  intros [p n] [p' n'] Hk Hk' E. simpl in E. subst p'.
  apply In_season_keys in Hk, Hk'. simpl in *.
  destruct Hk as [a [Ha [Hpa Hna]]], Hk' as [b [Hb [Hpb Hnb]]].
  f_equal. subst n n'. apply (Hj a b Ha Hb). congruence.
Qed.

Lemma season_players_In (bs : list Bet) (p : Z) :
  In p (map fst (group_keys (map season_key (map tag bs))))
  <-> exists b, In b bs /\ player_id b = p.
Proof.
  rewrite in_map_iff. split.
  - intros [k [E Hk]]. apply In_season_keys in Hk.
    destruct Hk as [b [Hb [Hp _]]]. exists b. split; congruence.
  - intros [b [Hb E]]. exists (player_id b, player_name b). split; [exact E |].
    apply In_season_keys. exists b. auto.
Qed.

(** The sample league meets the assumptions on the input. *)
Lemma league_valid_odds : valid_odds (rows league_frame).
Proof. repeat constructor; discriminate. Qed.

Lemma league_joined : joined (rows league_frame).
Proof.
  intros a b Ha Hb. simpl in Ha, Hb.
  repeat (destruct Ha as [<- | Ha]; [| try contradiction]);
    repeat (destruct Hb as [<- | Hb]; [| try contradiction]);
    simpl; intros E; first [discriminate E | split; reflexivity].
Qed.

(** C6: the season standings have exactly one row per participant with at
    least one wager; its [total_bets] counts all the participant's rows
    (whatever their status), [wins], [losses] and [pushes] count the rows
    of each status, and [season_points] is the sum of the points of the
    participant's rows rounded to one decimal place. *)
Theorem season_standings_rows (sort : list Standing -> list Standing)
    (df : BetsFrame) :
  sort_values_desc sort -> valid_odds (rows df) -> joined (rows df) ->
  exists out ps,
    snd (season_standings sort df) = Ok out
    /\ NoDup ps
    /\ (forall p, In p ps <-> exists b, In b (rows df) /\ player_id b = p)
    /\ Forall2 (standing_of_player (rows df)) ps out.
Proof.
  intros Hs Hv Hj.
  rewrite (season_standings_run sort df Hs Hv).
  set (bs := rows df) in *.
  assert (HF := standings_of_groups bs Hv Hj).
  apply Forall2_flip in HF.
  destruct (Hs (standings_of (map tag bs))) as [Hperm _].
  apply (Permutation_map project_standing) in Hperm.
  destruct (Permutation_Forall2 Hperm HF) as [ps [Hps HF']].
  apply Forall2_flip in HF'.
  exists (map project_standing (sort (standings_of (map tag bs)))), ps.
  repeat split.
  - eapply Permutation_NoDup; [exact Hps | now apply season_players_NoDup].
  - intros Hp. apply season_players_In.
    eapply Permutation_in; [apply Permutation_sym, Hps | exact Hp].
  - intros Hp. eapply Permutation_in; [exact Hps |].
    now apply season_players_In.
  - exact HF'.
Qed.

Lemma season_standings_rows_witness :
  sort_values_desc sort_desc_stable
  /\ valid_odds (rows league_frame) /\ joined (rows league_frame)
  /\ exists out ps,
       snd (season_standings sort_desc_stable league_frame) = Ok out
       /\ NoDup ps
       /\ (forall p, In p ps <->
             exists b, In b (rows league_frame) /\ player_id b = p)
       /\ Forall2 (standing_of_player (rows league_frame)) ps out.
Proof.
  split; [exact sort_desc_stable_ok |].
  split; [exact league_valid_odds |].
  split; [exact league_joined |].
  apply (season_standings_rows sort_desc_stable league_frame).
  - exact sort_desc_stable_ok.
  - exact league_valid_odds.
  - exact league_joined.
Defined.

Lemma StronglySorted_map {A B : Type} (R : B -> B -> Prop) (f : A -> B)
    (l : list A) :
  StronglySorted (fun a b => R (f a) (f b)) l -> StronglySorted R (map f l).
Proof.
  induction 1 as [| h t Hs IH Hall]; simpl; constructor.
  - exact IH.
  - apply Forall_map. exact Hall.
Qed.

(** *** The order of the rows *)

Section StableSort.
Context {A : Type} (leb : A -> A -> bool) (before : A -> A -> Prop).
Hypothesis leb_total : forall a b, leb a b = false -> leb b a = true.
Hypothesis leb_trans :
  forall a b c, leb a b = true -> leb b c = true -> leb a c = true.



End StableSort.

Lemma group_keys_sorted {K : Type} `{KeyOrder K} (ks : list K) :
  StronglySorted (fun a b => key_leb a b = true) (group_keys ks).
Proof.
  unfold group_keys.
  apply stable_sort_sorted; [apply key_leb_total | apply key_leb_trans].
Qed.













(** Two participants tied on 100.0 points come out in grouping order. *)
Example tied_standings :
  show_standings (snd (season_standings sort_desc_stable tied_frame))
  = [("Logan", 1%nat, 1%nat, 0%nat, 0%nat, 100 # 1);
     ("Caroline", 1%nat, 1%nat, 0%nat, 0%nat, 100 # 1)]%string.
Proof. vm_compute. reflexivity. Qed.

(** ** Cumulative points by week *)

Lemma filter_perm {A : Type} (f : A -> bool) (l l' : list A) :
  Permutation l l' -> Permutation (filter f l) (filter f l').
Proof.
  induction 1 as [| x l l' _ IH | x y l | l l' l'' _ IH1 _ IH2]; simpl.
  - apply perm_nil.
  - destruct (f x); [now apply perm_skip | exact IH].
  - destruct (f x), (f y); try apply Permutation_refl. apply perm_swap.
  - eapply perm_trans; eassumption.
Qed.

Lemma Qcsum_map_filter_perm {A : Type} (val : A -> Qc) (f : A -> bool)
    (l l' : list A) :
  Permutation l l' ->
  Qcsum (map val (filter f l)) = Qcsum (map val (filter f l')).
Proof.
  intros Hp. apply Qcsum_perm, Permutation_map, filter_perm, Hp.
Qed.

Lemma StronglySorted_app_inv {A : Type} (R : A -> A -> Prop)
    (pre post : list A) (x : A) :
  StronglySorted R (pre ++ x :: post) ->
  Forall (fun a => R a x) pre /\ Forall (R x) post.
Proof.
  induction pre as [| h t IH]; simpl; intros Hs.
  - apply StronglySorted_inv in Hs. split; [constructor | tauto].
  - apply StronglySorted_inv in Hs. destruct Hs as [Hs Hall].
    destruct (IH Hs) as [Hpre Hpost]. split; [| exact Hpost].
    constructor; [| exact Hpre].
    rewrite Forall_forall in Hall. apply Hall.
    apply in_or_app. right. now left.
Qed.

Section CumsumFacts.
Context {A K : Type} `{KeyLaws K}.
Variables (key : A -> K) (val : A -> Qc).

Lemma cumsum_by_length (acc : K -> Qc) (l : list A) :
  List.length (cumsum_by key val acc l) = List.length l.
Proof.
  revert acc. induction l as [| a t IH]; intros acc; simpl;
    [reflexivity | now rewrite IH].
Qed.

(** Each entry is the accumulator of its group, plus the earlier rows of
    the group, plus the row itself. *)
Lemma cumsum_by_In (acc : K -> Qc) (l : list A) (r : A) (c : Qc) :
  In (r, c) (combine l (cumsum_by key val acc l)) ->
  exists pre post,
    l = pre ++ r :: post
    /\ c = (acc (key r)
            + Qcsum (map val
                       (filter (fun x => key_eqb (key x) (key r)) pre))
            + val r)%Qc.
Proof.
  revert acc. induction l as [| a t IH]; intros acc; simpl; [tauto |].
  intros [E | Hin].
  - inversion E; subst. exists [], t. split; [reflexivity |].
    simpl. now rewrite Qcplus_0_r.
  - destruct (IH _ Hin) as [pre [post [-> Hc]]].
    exists (a :: pre), post. split; [reflexivity |].
    rewrite Hc. simpl.
    destruct (key_eqb (key r) (key a)) eqn:E.
    + apply key_eqb_eq in E. rewrite E, key_eqb_refl. simpl.
      rewrite !Qcplus_assoc. reflexivity.
    + assert (E' : key_eqb (key a) (key r) = false).
      { apply key_eqb_false. apply key_eqb_false in E. congruence. }
      rewrite E'. reflexivity.
Qed.
End CumsumFacts.

Lemma player_week_leb_le (a b : WeekPoints) :
  key_leb (player_week a) (player_week b) = true <-> player_week_le a b.
Proof.
  unfold player_week_le, player_week. simpl.
  destruct (Z.eqb_spec (wp_player_id a) (wp_player_id b)) as [E | E].
  - rewrite Z.leb_le. lia.
  - rewrite Z.leb_le. lia.
Qed.

Lemma sort_player_week_perm (l : list WeekPoints) :
  Permutation l (sort_player_week l).
Proof. apply stable_sort_perm. Qed.

Lemma sort_player_week_sorted (l : list WeekPoints) :
  StronglySorted player_week_le (sort_player_week l).
Proof.
  unfold sort_player_week.
  eapply StronglySorted_weaken; [| apply stable_sort_sorted].
  - intros a b Hab. now apply player_week_leb_le.
  - intros a b Hab. apply player_week_leb_le.
    assert (Hn : ~ player_week_le a b).
    { intros Hle. apply player_week_leb_le in Hle. congruence. }
    unfold player_week_le in *. lia.
  - intros a b c Hab Hbc. apply player_week_leb_le.
    apply player_week_leb_le in Hab, Hbc.
    unfold player_week_le in *. lia.
Qed.

(** Without two rows for the same participant and week, ascending is
    strictly ascending. *)
Lemma sorted_strict (l : list WeekPoints) :
  NoDup (map player_week l) ->
  StronglySorted player_week_le l -> StronglySorted player_week_lt l.
Proof.
  intros Hnd. induction 1 as [| h t Hs IH Hall]; [constructor |].
  simpl in Hnd. inversion Hnd as [| ? ? Hh Ht]; subst.
  constructor; [now apply IH |].
  rewrite Forall_forall in *. intros x Hx.
  specialize (Hall x Hx).
  assert (Hne : player_week h <> player_week x).
  { intros E. apply Hh. rewrite E. now apply in_map. }
  unfold player_week_le, player_week_lt, player_week in *.
  destruct Hall as [Hlt | [Ep Hw]]; [now left |].
  right. split; [exact Ep |].
  assert (wp_week h <> wp_week x) by congruence. lia.
Qed.

Lemma filter_none {A : Type} (f : A -> bool) (l : list A) :
  (forall x, In x l -> f x = false) -> filter f l = [].
Proof.
  induction l as [| a t IH]; intros Hf; simpl; [reflexivity |].
  rewrite (Hf a (or_introl eq_refl)).
  apply IH. intros x Hx. apply Hf. now right.
Qed.

(** In a strictly sorted frame the rows of a participant up to a week are
    the participant's rows before that row, and the row. *)
Lemma same_player_up_to_split (pre post : list WeekPoints) (r : WeekPoints) :
  StronglySorted player_week_lt (pre ++ r :: post) ->
  same_player_up_to r (pre ++ r :: post)
  = filter (fun x => key_eqb (wp_player_id x) (wp_player_id r)) pre ++ [r].
Proof.
  intros Hs. apply StronglySorted_app_inv in Hs. destruct Hs as [Hpre Hpost].
  unfold same_player_up_to. rewrite filter_app. simpl.
  rewrite Z.eqb_refl, Z.leb_refl. simpl. f_equal.
  - apply filter_ext_in. intros x Hx.
    rewrite Forall_forall in Hpre. specialize (Hpre x Hx).
    unfold player_week_lt in Hpre.
    destruct (Z.eqb_spec (wp_player_id x) (wp_player_id r)); simpl;
      [| reflexivity].
    apply Z.leb_le. lia.
  - f_equal. apply filter_none.
    intros x Hx. rewrite Forall_forall in Hpost. specialize (Hpost x Hx).
    unfold player_week_lt in Hpost.
    destruct (Z.eqb_spec (wp_player_id x) (wp_player_id r)); simpl;
      [| reflexivity].
    apply Z.leb_gt. lia.
Qed.

(** The running total of a strictly sorted frame: at every row, the sum of
    the weekly totals of the row's participant up to the row's week. *)
Lemma cumsum_running_total (l : list WeekPoints) (r : WeekPoints) (c : Qc) :
  StronglySorted player_week_lt l ->
  In (r, c)
     (combine l (cumsum_by wp_player_id wp_points (fun _ => 0%Qc) l)) ->
  c = Qcsum (map wp_points (same_player_up_to r l)).
Proof.
  intros Hs Hin.
  apply cumsum_by_In in Hin. destruct Hin as [pre [post [-> Hc]]].
  rewrite (same_player_up_to_split pre post r Hs).
  rewrite map_app, Qcsum_app. simpl.
  rewrite Hc, Qcplus_0_l, Qcplus_0_r. reflexivity.
Qed.

Lemma week_points_of_rows (tbl : list (Bet * Qc)) :
  week_points_of tbl
  = map (week_points_row tbl) (group_keys (map trajectory_key tbl)).
Proof. unfold week_points_of, groupby. now rewrite map_map. Qed.

Lemma In_trajectory_keys (bs : list Bet) (k : Z * string * string * Z) :
  In k (group_keys (map trajectory_key (map tag bs)))
  <-> exists b, In b bs /\ trajectory_key (tag b) = k.
Proof.
  rewrite In_group_keys, map_map, in_map_iff.
  split; intros [b Hb]; exists b; tauto.
Qed.

Lemma trajectory_group (bs : list Bet) (b : Bet) :
  joined bs -> In b bs ->
  group_of trajectory_key (map tag bs) (trajectory_key (tag b))
  = map tag (in_week (week b) (bets_of (player_id b) bs)).
Proof.
  intros Hj Hb. unfold group_of, in_week, bets_of.
  rewrite filter_tag, filter_andb. f_equal.
  apply filter_ext_in. intros a Ha.
  unfold trajectory_key. simpl.
  destruct (Z.eqb_spec (player_id a) (player_id b)) as [E | E]; simpl.
  - destruct (Hj a b Ha Hb E) as [-> ->].
    now rewrite !String.eqb_refl.
  - reflexivity.
Qed.

Lemma In_week_points (bs : list Bet) (r : WeekPoints) :
  joined bs ->
  In r (week_points_of (map tag bs)) <->
  exists b, In b bs
    /\ r = {| wp_player_id := player_id b;
              wp_player_name := player_name b;
              wp_color := color b;
              wp_week := week b;
              wp_points :=
                total_points (in_week (week b) (bets_of (player_id b) bs)) |}.
Proof.
  intros Hj. rewrite week_points_of_rows, in_map_iff. split.
  - intros [k [<- Hk]]. apply In_trajectory_keys in Hk.
    destruct Hk as [b [Hb <-]]. exists b. split; [exact Hb |].
    unfold week_points_row.
    rewrite (trajectory_group bs b Hj Hb), map_snd_tag. reflexivity.
  - intros [b [Hb ->]]. exists (trajectory_key (tag b)). split.
    + unfold week_points_row.
      rewrite (trajectory_group bs b Hj Hb), map_snd_tag. reflexivity.
    + apply In_trajectory_keys. now exists b.
Qed.

Lemma week_points_NoDup (bs : list Bet) :
  joined bs -> NoDup (map player_week (week_points_of (map tag bs))).
Proof.
  intros Hj. rewrite week_points_of_rows, map_map.
  apply NoDup_map_in; [| apply NoDup_group_keys].
  intros k k' Hk Hk' E.
  apply In_trajectory_keys in Hk, Hk'.
  destruct Hk as [a [Ha <-]], Hk' as [b [Hb <-]].
  unfold player_week, week_points_row, trajectory_key in *. simpl in *.
  inversion E as [[Ep Ew]].
  destruct (Hj a b Ha Hb Ep) as [-> ->]. now rewrite Ep, Ew.
Qed.

(** Summing the weekly totals of a participant up to a week is summing the
    points of the participant's wagers up to that week. *)
Lemma week_points_up_to (bs : list Bet) (r : WeekPoints) :
  Qcsum (map wp_points (same_player_up_to r (week_points_of (map tag bs))))
  = total_points (up_to_week (wp_week r) (bets_of (wp_player_id r) bs)).
Proof.
  unfold same_player_up_to. rewrite week_points_of_rows.
  rewrite filter_map_swap, map_map.
  change (fun x => wp_points (week_points_row (map tag bs) x))
    with (fun k => Qcsum (map snd (group_of trajectory_key (map tag bs) k))).
  change (fun a => (wp_player_id (week_points_row (map tag bs) a)
                    =? wp_player_id r)
                   && (wp_week (week_points_row (map tag bs) a)
                       <=? wp_week r))
    with (fun k : Z * string * string * Z =>
            (fst (fst (fst k)) =? wp_player_id r) && (snd k <=? wp_week r)).
  rewrite (Qcsum_groupby_filter trajectory_key snd (map tag bs)
             (fun k => (fst (fst (fst k)) =? wp_player_id r)
                       && (snd k <=? wp_week r))).
  rewrite filter_tag, map_snd_tag.
  unfold total_points, up_to_week, bets_of.
  rewrite filter_andb. reflexivity.
Qed.

Lemma map_fst_combine {A B : Type} (l : list A) (l' : list B) :
  List.length l = List.length l' -> map fst (combine l l') = l.
Proof.
  revert l'. induction l as [| a t IH]; intros [| b t'] E; simpl in *;
    try discriminate; [reflexivity |].
  f_equal. apply IH. now inversion E.
Qed.

Lemma In_combine_left {A B : Type} (l : list A) (l' : list B) (a : A) :
  List.length l = List.length l' -> In a l ->
  exists b, In (a, b) (combine l l').
Proof.
  revert l'. induction l as [| h t IH]; intros [| b t'] E Ha; simpl in *;
    try discriminate; [contradiction |].
  destruct Ha as [-> | Ha].
  - exists b. now left.
  - destruct (IH t' (eq_add_S _ _ E) Ha) as [b' Hb']. exists b'. now right.
Qed.

Lemma cumulative_frame_fst (tbl : list (Bet * Qc)) :
  map fst (cumulative_frame tbl) = sort_player_week (week_points_of tbl).
Proof.
  unfold cumulative_frame. apply map_fst_combine.
  symmetry. apply cumsum_by_length.
Qed.

Lemma cumulative_frame_sorted (bs : list Bet) :
  joined bs ->
  StronglySorted player_week_lt (map fst (cumulative_frame (map tag bs))).
Proof.
  intros Hj. rewrite cumulative_frame_fst.
  apply sorted_strict; [| apply sort_player_week_sorted].
  eapply Permutation_NoDup; [| apply (week_points_NoDup bs Hj)].
  apply Permutation_map, sort_player_week_perm.
Qed.

Lemma In_sorted_week_points (tbl : list (Bet * Qc)) (r : WeekPoints) :
  In r (sort_player_week (week_points_of tbl)) <-> In r (week_points_of tbl).
Proof.
  split; apply Permutation_in;
    [apply Permutation_sym |]; apply sort_player_week_perm.
Qed.

(** The rows of the cumulative frame: one per participant and week with a
    wager, carrying the participant's points up to that week. *)
Lemma In_cumulative_frame (bs : list Bet) (r : WeekPoints) (c : Qc) :
  joined bs ->
  In (r, c) (cumulative_frame (map tag bs)) <->
  In r (week_points_of (map tag bs))
  /\ c = total_points (up_to_week (wp_week r) (bets_of (wp_player_id r) bs)).
Proof.
  intros Hj.
  assert (Hs := cumulative_frame_sorted bs Hj).
  rewrite cumulative_frame_fst in Hs.
  assert (Hc : forall c', In (r, c') (cumulative_frame (map tag bs)) ->
            c' = total_points
                   (up_to_week (wp_week r) (bets_of (wp_player_id r) bs))).
  { intros c' Hin. unfold cumulative_frame in Hin.
    rewrite (cumsum_running_total _ r c' Hs Hin).
    rewrite <- week_points_up_to. unfold same_player_up_to.
    apply Qcsum_map_filter_perm, Permutation_sym, sort_player_week_perm. }
  split.
  - intros Hin. split; [| now apply Hc].
    apply In_sorted_week_points. rewrite <- cumulative_frame_fst.
    change r with (fst (r, c)). now apply in_map.
  - intros [Hr ->].
    apply In_sorted_week_points in Hr.
    destruct (In_combine_left _
                (cumsum_by wp_player_id wp_points (fun _ => 0%Qc)
                   (sort_player_week (week_points_of (map tag bs))))
                r (eq_sym (cumsum_by_length _ _ _ _)) Hr) as [c' Hc'].
    fold (cumulative_frame (map tag bs)) in Hc'.
    now rewrite <- (Hc c' Hc').
Qed.

Lemma StronglySorted_map_inv {A B : Type} (R : B -> B -> Prop) (f : A -> B)
    (l : list A) :
  StronglySorted R (map f l) -> StronglySorted (fun a b => R (f a) (f b)) l.
Proof.
  induction l as [| h t IH]; simpl; intros Hs; [constructor |].
  apply StronglySorted_inv in Hs. destruct Hs as [Hs Hall].
  constructor; [now apply IH |].
  rewrite Forall_map in Hall. exact Hall.
Qed.

Lemma joined_perm (bs bs' : list Bet) :
  Permutation bs bs' -> joined bs -> joined bs'.
Proof.
  intros Hp Hj a b Ha Hb. apply Hj; eapply Permutation_in;
    try (apply Permutation_sym; exact Hp); assumption.
Qed.

Lemma total_points_perm (f g : Bet -> bool) (bs bs' : list Bet) :
  Permutation bs bs' ->
  total_points (filter f (filter g bs)) = total_points (filter f (filter g bs')).
Proof.
  intros Hp. unfold total_points.
  apply Qcsum_perm, Permutation_map, filter_perm, filter_perm, Hp.
Qed.

Lemma In_week_points_perm (bs bs' : list Bet) (r : WeekPoints) :
  joined bs -> Permutation bs bs' ->
  In r (week_points_of (map tag bs)) -> In r (week_points_of (map tag bs')).
Proof.
  intros Hj Hp Hr.
  apply (In_week_points bs r Hj) in Hr. destruct Hr as [b [Hb ->]].
  apply (In_week_points bs' _ (joined_perm bs bs' Hp Hj)).
  exists b. split; [eapply Permutation_in; eassumption |].
  f_equal. unfold in_week, bets_of. now apply total_points_perm.
Qed.

(** The cumulative frame does not depend on the order of the input rows. *)
Lemma cumulative_frame_perm (bs bs' : list Bet) :
  joined bs -> Permutation bs bs' ->
  cumulative_frame (map tag bs') = cumulative_frame (map tag bs).
Proof.
  intros Hj Hp.
  assert (Hj' := joined_perm bs bs' Hp Hj).
  apply (strictly_sorted_ext
           (fun x y : WeekPoints * Qc => player_week_lt (fst x) (fst y))).
  - intros x y. unfold player_week_lt. lia.
  - apply StronglySorted_map_inv. now apply cumulative_frame_sorted.
  - apply StronglySorted_map_inv. now apply cumulative_frame_sorted.
  - intros [r c].
    rewrite (In_cumulative_frame bs' r c Hj'), (In_cumulative_frame bs r c Hj).
    unfold up_to_week, bets_of.
    rewrite (total_points_perm _ _ bs bs' Hp).
    split; intros [Hr Hc]; (split; [| exact Hc]).
    + now apply (In_week_points_perm bs' bs r Hj' (Permutation_sym Hp)).
    + now apply (In_week_points_perm bs bs' r Hj Hp).
Qed.

Lemma running_total_up_to (p w : Z) (bs : list Bet) :
  running_total p w bs = total_points (up_to_week w (bets_of p bs)).
Proof.
  exact (Qcsum_groupby_filter week points_value (bets_of p bs)
           (fun w' => w' <=? w)).
Qed.

Lemma In_player_weeks (bs : list Bet) (p w : Z) :
  In (p, w) (player_weeks bs)
  <-> exists b, In b bs /\ player_id b = p /\ week b = w.
Proof.
  unfold player_weeks. rewrite In_group_keys, in_map_iff.
  split; intros [b Hb]; exists b.
  - destruct Hb as [E Hb]. inversion E. auto.
  - destruct Hb as [Hb [<- <-]]. auto.
Qed.

Lemma sorted_strict_pair (l : list (Z * Z)) :
  NoDup l -> StronglySorted (fun a b => key_leb a b = true) l ->
  StronglySorted player_week_before l.
Proof.
  intros Hnd Hs. induction Hs as [| h t Hs IH Hall]; constructor.
  - apply IH. now inversion Hnd.
  - inversion Hnd as [| ? ? Hh _]; subst.
    rewrite Forall_forall in *. intros x Hx.
    specialize (Hall x Hx). simpl in Hall.
    assert (Hne : h <> x) by (intros ->; contradiction).
    unfold player_week_before.
    destruct h as [p w], x as [p' w']. simpl in *.
    destruct (Z.eqb_spec p p') as [E | E].
    + apply Z.leb_le in Hall. right. split; [exact E |].
      assert (w <> w') by congruence. lia.
    + apply Z.leb_le in Hall. left. lia.
Qed.

Lemma player_weeks_sorted (bs : list Bet) :
  StronglySorted player_week_before (player_weeks bs).
Proof.
  apply sorted_strict_pair; [apply NoDup_group_keys | apply group_keys_sorted].
Qed.

(** The rows of the cumulative frame are those of [player_weeks], in that
    order. *)
Lemma cumulative_frame_player_weeks (bs : list Bet) :
  joined bs ->
  map (fun x => player_week (fst x)) (cumulative_frame (map tag bs))
  = player_weeks bs.
Proof.
  intros Hj. apply (strictly_sorted_ext player_week_before).
  - intros x y. unfold player_week_before. lia.
  - rewrite <- (map_map fst player_week).
    apply StronglySorted_map. exact (cumulative_frame_sorted bs Hj).
  - apply player_weeks_sorted.
  - intros [p w]. rewrite In_player_weeks, in_map_iff. split.
    + intros [[r c] [E Hin]].
      apply (In_cumulative_frame bs r c Hj) in Hin. destruct Hin as [Hr _].
      apply (In_week_points bs r Hj) in Hr. destruct Hr as [b [Hb ->]].
      inversion E. exists b. auto.
    + intros [b [Hb [<- <-]]].
      exists ({| wp_player_id := player_id b;
                 wp_player_name := player_name b;
                 wp_color := color b;
                 wp_week := week b;
                 wp_points :=
                   total_points
                     (in_week (week b) (bets_of (player_id b) bs)) |},
              total_points (up_to_week (week b) (bets_of (player_id b) bs))).
      split; [reflexivity |].
      apply (In_cumulative_frame bs _ _ Hj). split; [| reflexivity].
      apply (In_week_points bs _ Hj). exists b. split; [exact Hb | reflexivity].
Qed.

(** C7: whatever the order of the input rows, the trajectory has one row
    for every participant and week with a wager, by participant and
    strictly ascending week.  The row carries the participant's name and
    colour, the week, and as cumulative value the running sum of that
    participant's weekly totals, taken by ascending week up to that week;
    this is the sum of the points of that participant's wagers up to that
    week, with no other participant's points in it.  Reordering the input
    rows does not change the output. *)
Theorem cumulative_by_week_running_sum (df : BetsFrame) :
  valid_odds (rows df) -> joined (rows df) ->
  exists out,
    snd (cumulative_by_week df) = Ok out
    /\ Forall2 (trajectory_point_of (rows df)) (player_weeks (rows df)) out
    /\ StronglySorted player_week_before (player_weeks (rows df))
    /\ (forall p w, In (p, w) (player_weeks (rows df)) <->
          exists b, In b (rows df) /\ player_id b = p /\ week b = w)
    /\ (forall p w,
          running_total p w (rows df)
          = total_points (up_to_week w (bets_of p (rows df))))
    /\ (forall df', Permutation (rows df) (rows df') ->
          snd (cumulative_by_week df') = Ok out).
Proof.
  intros Hv Hj. set (bs := rows df) in *.
  exists (map project_trajectory (cumulative_frame (map tag bs))).
  split; [now apply cumulative_by_week_run |].
  split; [| split; [| split; [| split]]].
  - rewrite <- (cumulative_frame_player_weeks bs Hj).
    apply Forall2_map_in. intros [r c] Hin.
    apply (In_cumulative_frame bs r c Hj) in Hin. destruct Hin as [Hr ->].
    apply (In_week_points bs r Hj) in Hr. destruct Hr as [b0 [Hb0 ->]].
    unfold trajectory_point_of, project_trajectory, player_week. simpl.
    split; [reflexivity |]. split; [now rewrite running_total_up_to |].
    intros b Hb E. symmetry in E. apply (Hj b0 b Hb0 Hb E).
  - apply player_weeks_sorted.
  - intros p w. apply In_player_weeks.
  - intros p w. apply running_total_up_to.
  - intros df' Hp.
    assert (Hv' : valid_odds (rows df'))
      by (eapply Permutation_Forall; eassumption).
    rewrite (cumulative_by_week_run df' Hv').
    now rewrite (cumulative_frame_perm bs (rows df') Hj Hp).
Qed.

Lemma cumulative_by_week_running_sum_witness :
  valid_odds (rows league_frame) /\ joined (rows league_frame)
  /\ exists out,
       snd (cumulative_by_week league_frame) = Ok out
       /\ Forall2 (trajectory_point_of (rows league_frame))
            (player_weeks (rows league_frame)) out
       /\ StronglySorted player_week_before (player_weeks (rows league_frame))
       /\ (forall p w, In (p, w) (player_weeks (rows league_frame)) <->
             exists b, In b (rows league_frame)
                       /\ player_id b = p /\ week b = w)
       /\ (forall p w,
             running_total p w (rows league_frame)
             = total_points (up_to_week w (bets_of p (rows league_frame))))
       /\ (forall df', Permutation (rows league_frame) (rows df') ->
             snd (cumulative_by_week df') = Ok out).
Proof.
  split; [exact league_valid_odds |].
  split; [exact league_joined |].
  apply (cumulative_by_week_running_sum league_frame).
  - exact league_valid_odds.
  - exact league_joined.
Defined.

(** ** Season points against the trajectory *)


Lemma In_standings (bs : list Bet) (s : Standing) :
  joined bs ->
  In s (standings_of (map tag bs)) <->
  exists b, In b bs
    /\ s = standing_row (map tag bs) (player_id b, player_name b)
    /\ st_season_points s = round1 (total_points (bets_of (player_id b) bs)).
Proof.
  intros Hj. rewrite standings_of_rows, in_map_iff. split.
  - intros [k [<- Hk]]. assert (Hk' := Hk).
    apply In_season_keys in Hk'. destruct Hk' as [b [Hb [Hp Hn]]].
    exists b. destruct k as [p n]. simpl in Hp, Hn. subst p n.
    split; [exact Hb |]. split; [reflexivity |].
    simpl. rewrite (season_group bs _ Hj Hk), map_snd_tag. reflexivity.
  - intros [b [Hb [-> _]]]. eexists. split; [reflexivity |].
    apply In_season_keys. exists b. auto.
Qed.

Lemma exists_last_week (l : list Bet) :
  l <> [] -> exists m, In m l /\ forall x, In x l -> week x <= week m.
Proof.
  induction l as [| a t IH]; [congruence | intros _].
  destruct t as [| b t'].
  - exists a. split; [now left |]. intros x [<- | []]. lia.
  - destruct IH as [m [Hm Hmax]]; [discriminate |].
    destruct (Z_le_gt_dec (week a) (week m)) as [Hle | Hgt].
    + exists m. split; [now right |].
      intros x [<- | Hx]; [exact Hle | now apply Hmax].
    + exists a. split; [now left |].
      intros x [<- | Hx]; [lia |]. specialize (Hmax x Hx). lia.
Qed.

Lemma up_to_last_week (w : Z) (l : list Bet) :
  (forall x, In x l -> week x <= w) -> up_to_week w l = l.
Proof.
  intros Hw. unfold up_to_week.
  rewrite (filter_ext_in _ (fun _ => true)); [apply filter_true |].
  intros x Hx. apply Z.leb_le. now apply Hw.
Qed.

Example scenario_E_standings :
  show_standings (snd (season_standings sort_desc_stable scenario_E_frame))
  = [("Logan", 2%nat, 2%nat, 0%nat, 0%nat, 80 # 1);
     ("Caroline", 1%nat, 0%nat, 1%nat, 0%nat, -100 # 1)]%string.
Proof. vm_compute. reflexivity. Qed.

Example scenario_E_trajectory :
  show_trajectory (snd (cumulative_by_week scenario_E_frame))
  = [("Logan", 1, 50 # 1); ("Logan", 2, 80 # 1);
     ("Caroline", 1, -100 # 1)]%string.
Proof. vm_compute. reflexivity. Qed.

Example league_standings :
  show_standings (snd (season_standings sort_desc_stable league_frame))
  = [("Logan", 3%nat, 2%nat, 0%nat, 0%nat, 1167 # 10);
     ("Caroline", 2%nat, 1%nat, 1%nat, 0%nat, 0 # 1)]%string.
Proof. vm_compute. reflexivity. Qed.

Example league_trajectory :
  show_trajectory (snd (cumulative_by_week league_frame))
  = [("Logan", 1, 50 # 1); ("Logan", 2, 350 # 3);
     ("Caroline", 1, -100 # 1); ("Caroline", 2, 0 # 1)]%string.
Proof. vm_compute. reflexivity. Qed.

(** The rows of the two returned tables, read off the input. *)
Lemma In_trajectory (bs : list Bet) (t : TrajectoryPoint) :
  joined bs ->
  In t (map project_trajectory (cumulative_frame (map tag bs))) <->
  exists b, In b bs
    /\ t = {| tp_player_name := player_name b;
              tp_week := week b;
              tp_cumulative_points :=
                total_points (up_to_week (week b) (bets_of (player_id b) bs));
              tp_color := color b |}.
Proof.
  intros Hj. rewrite in_map_iff. split.
  - intros [[r c] [<- Hin]].
    apply (In_cumulative_frame bs r c Hj) in Hin. destruct Hin as [Hr ->].
    apply (In_week_points bs r Hj) in Hr. destruct Hr as [b [Hb ->]].
    exists b. split; [exact Hb | reflexivity].
  - intros [b [Hb ->]].
    exists ({| wp_player_id := player_id b;
               wp_player_name := player_name b;
               wp_color := color b;
               wp_week := week b;
               wp_points :=
                 total_points
                   (in_week (week b) (bets_of (player_id b) bs)) |},
            total_points (up_to_week (week b) (bets_of (player_id b) bs))).
    split; [reflexivity |].
    apply (In_cumulative_frame bs _ _ Hj). split; [| reflexivity].
    apply (In_week_points bs _ Hj). exists b. split; [exact Hb | reflexivity].
Qed.

Lemma standing_row_fields (bs : list Bet) (b : Bet) :
  joined bs -> In b bs ->
  let r := project_standing
             (standing_row (map tag bs) (player_id b, player_name b)) in
  sr_player_name r = player_name b
  /\ sr_total_bets r = List.length (bets_of (player_id b) bs)
  /\ sr_season_points r = round1 (total_points (bets_of (player_id b) bs)).
Proof.
  intros Hj Hb.
  assert (Hk : In (player_id b, player_name b)
                 (group_keys (map season_key (map tag bs)))).
  { apply In_season_keys. exists b. auto. }
  unfold standing_row, project_standing. cbn [sr_player_name sr_total_bets
    sr_season_points st_player_name st_total_bets st_season_points snd].
  rewrite (season_group bs _ Hj Hk). cbn [fst].
  rewrite length_map, map_snd_tag. auto.
Qed.

Lemma In_standings_rows (sort : list Standing -> list Standing)
    (bs : list Bet) (r : StandingsRow) :
  sort_values_desc sort -> joined bs ->
  In r (map project_standing (sort (standings_of (map tag bs)))) <->
  exists b, In b bs
    /\ r = project_standing
             (standing_row (map tag bs) (player_id b, player_name b)).
Proof.
  intros Hs Hj.
  destruct (Hs (standings_of (map tag bs))) as [Hperm _].
  rewrite in_map_iff. split.
  - intros [x [<- Hx]].
    apply (Permutation_in _ (Permutation_sym Hperm)) in Hx.
    apply (In_standings bs x Hj) in Hx. destruct Hx as [b [Hb [-> _]]].
    exists b. auto.
  - intros [b [Hb ->]]. eexists. split; [reflexivity |].
    apply (Permutation_in _ Hperm).
    apply (In_standings bs _ Hj). exists b.
    split; [exact Hb |]. split; [reflexivity |].
    apply (standing_row_fields bs b Hj Hb).
Qed.

(** C8, as the code has it: for every participant the two tables agree up
    to the rounding of the standings.  The trajectory has a row for the
    participant's last week whose cumulative value is the sum of the
    points of all the participant's wagers, and the participant's season
    points are that value rounded to one decimal place: a whole number of
    tenths at most 0.05 away from it.  Where names identify participants,
    this relates any standings row to the last trajectory row of the same
    name. *)
Theorem season_points_round_last_cumulative
    (sort : list Standing -> list Standing) (df : BetsFrame) :
  sort_values_desc sort -> valid_odds (rows df) -> joined (rows df) ->
  exists standings trajectory,
    snd (season_standings sort df) = Ok standings
    /\ snd (cumulative_by_week df) = Ok trajectory
    /\ (forall b, In b (rows df) ->
          exists r t,
            In r standings /\ In t trajectory
            /\ sr_player_name r = player_name b
            /\ tp_player_name t = player_name b
            /\ sr_total_bets r
               = List.length (bets_of (player_id b) (rows df))
            /\ (exists b', In b' (rows df)
                   /\ player_id b' = player_id b /\ week b' = tp_week t)
            /\ (forall b', In b' (rows df) -> player_id b' = player_id b ->
                  week b' <= tp_week t)
            /\ tp_cumulative_points t
               = total_points (bets_of (player_id b) (rows df))
            /\ rounded_to_tenth (tp_cumulative_points t)
                 (sr_season_points r))
    /\ (unique_names (rows df) ->
        forall r t,
          In r standings -> In t trajectory ->
          sr_player_name r = tp_player_name t ->
          (forall t', In t' trajectory ->
             tp_player_name t' = tp_player_name t ->
             tp_week t' <= tp_week t) ->
          rounded_to_tenth (tp_cumulative_points t) (sr_season_points r)).
Proof.
  intros Hs Hv Hj. set (bs := rows df) in *.
  exists (map project_standing (sort (standings_of (map tag bs)))),
    (map project_trajectory (cumulative_frame (map tag bs))).
  split; [now apply season_standings_run |].
  split; [now apply cumulative_by_week_run |].
  split.
  - intros b Hb.
    destruct (exists_last_week (bets_of (player_id b) bs)) as [m [Hm Hmax]].
    { intros E. assert (Hin : In b (bets_of (player_id b) bs)).
      { apply filter_In. split; [exact Hb | apply Z.eqb_refl]. }
      rewrite E in Hin. contradiction. }
    apply filter_In in Hm. destruct Hm as [Hm Em]. apply Z.eqb_eq in Em.
    destruct (standing_row_fields bs b Hj Hb) as [Hname [Htotal Hpts]].
    assert (Hall : up_to_week (week m) (bets_of (player_id b) bs)
                   = bets_of (player_id b) bs)
      by (now apply up_to_last_week).
    eexists _, _.
    split; [apply (In_standings_rows sort bs _ Hs Hj); exists b; eauto |].
    split; [apply (In_trajectory bs _ Hj); exists m; eauto |].
    cbn [tp_player_name tp_week tp_cumulative_points].
    split; [exact Hname |].
    split; [apply (Hj m b Hm Hb Em) |].
    split; [exact Htotal |].
    split; [exists m; auto |].
    split.
    { intros b' Hb' Ep. apply Hmax. apply filter_In.
      split; [exact Hb' | now apply Z.eqb_eq]. }
    rewrite Em, Hall, Hpts.
    split; [reflexivity | apply round1_rounded].
  - intros Hu r t Hr Ht Ename Hlast.
    apply (In_standings_rows sort bs r Hs Hj) in Hr.
    destruct Hr as [b [Hb ->]].
    destruct (standing_row_fields bs b Hj Hb) as [Hname [_ Hpts]].
    assert (Ht' := Ht).
    apply (In_trajectory bs t Hj) in Ht'. destruct Ht' as [m [Hm Et]].
    rewrite Hpts. rewrite Hname in Ename.
    assert (Ep : player_id m = player_id b).
    { apply (Hu m b Hm Hb). rewrite Ename, Et. reflexivity. }
    assert (Hall : up_to_week (week m) (bets_of (player_id b) bs)
                   = bets_of (player_id b) bs).
    { apply up_to_last_week. intros x Hx.
      apply filter_In in Hx. destruct Hx as [Hx Ex]. apply Z.eqb_eq in Ex.
      assert (Hweek : tp_week t = week m) by (rewrite Et; reflexivity).
      rewrite <- Hweek.
      specialize (Hlast
        {| tp_player_name := player_name x;
           tp_week := week x;
           tp_cumulative_points :=
             total_points (up_to_week (week x) (bets_of (player_id x) bs));
           tp_color := color x |}).
      cbn [tp_player_name tp_week] in Hlast. apply Hlast.
      - apply (In_trajectory bs _ Hj). exists x. auto.
      - rewrite <- Ename. apply (Hj x b Hx Hb Ex). }
    rewrite Et. cbn [tp_cumulative_points].
    rewrite Ep, Hall. apply round1_rounded.
Qed.

Lemma league_unique_names : unique_names (rows league_frame).
Proof.
  intros a b Ha Hb. simpl in Ha, Hb.
  repeat (destruct Ha as [<- | Ha]; [| try contradiction]);
    repeat (destruct Hb as [<- | Hb]; [| try contradiction]);
    simpl; intros E; first [discriminate E | reflexivity].
Qed.

Lemma season_points_round_last_cumulative_witness :
  sort_values_desc sort_desc_stable
  /\ valid_odds (rows league_frame) /\ joined (rows league_frame)
  /\ exists standings trajectory,
       snd (season_standings sort_desc_stable league_frame) = Ok standings
       /\ snd (cumulative_by_week league_frame) = Ok trajectory
       /\ (forall b, In b (rows league_frame) ->
             exists r t,
               In r standings /\ In t trajectory
               /\ sr_player_name r = player_name b
               /\ tp_player_name t = player_name b
               /\ sr_total_bets r
                  = List.length (bets_of (player_id b) (rows league_frame))
               /\ (exists b', In b' (rows league_frame)
                      /\ player_id b' = player_id b /\ week b' = tp_week t)
               /\ (forall b', In b' (rows league_frame) ->
                     player_id b' = player_id b -> week b' <= tp_week t)
               /\ tp_cumulative_points t
                  = total_points (bets_of (player_id b) (rows league_frame))
               /\ rounded_to_tenth (tp_cumulative_points t)
                    (sr_season_points r))
       /\ (unique_names (rows league_frame) ->
           forall r t,
             In r standings -> In t trajectory ->
             sr_player_name r = tp_player_name t ->
             (forall t', In t' trajectory ->
                tp_player_name t' = tp_player_name t ->
                tp_week t' <= tp_week t) ->
             rounded_to_tenth (tp_cumulative_points t) (sr_season_points r)).
Proof.
  split; [exact sort_desc_stable_ok |].
  split; [exact league_valid_odds |].
  split; [exact league_joined |].
  apply (season_points_round_last_cumulative sort_desc_stable league_frame).
  - exact sort_desc_stable_ok.
  - exact league_valid_odds.
  - exact league_joined.
Defined.

(** C8, as stated, fails: one winning wager of 100 at -150 gives a
    cumulative value of 200/3 at the participant's only week and season
    points of 66.7. *)
Lemma last_cumulative_not_season_points :
  exists s t,
    snd (season_standings sort_desc_stable favorite_frame) = Ok [s]
    /\ snd (cumulative_by_week favorite_frame) = Ok [t]
    /\ sr_player_name s = tp_player_name t
    /\ tp_week t = 1
    /\ tp_cumulative_points t = Q2Qc (200 # 3)
    /\ sr_season_points s = Q2Qc (667 # 10)
    /\ tp_cumulative_points t <> sr_season_points s.
Proof.
  eexists _, _.
  split; [reflexivity |]. split; [reflexivity |].
  split; [reflexivity |]. split; [reflexivity |].
  split; [apply Qc_this_eq; vm_compute; reflexivity |].
  split; [apply Qc_this_eq; vm_compute; reflexivity |].
  intros E. apply (f_equal this) in E. vm_compute in E. discriminate E.
Qed.

(** * Further properties *)

(** ** Order facts on the numbers *)

Lemma Z2Qc_pos (z : Z) : 0 < z -> (0 < Z2Qc z)%Qc.
Proof.
  intros Hz. unfold Qclt. rewrite this_Z2Qc.
  change (this 0%Qc) with (inject_Z 0). now rewrite <- Zlt_Qlt.
Qed.


Lemma Qcmult_pos (x y : Qc) : (0 < x -> 0 < y -> 0 < x * y)%Qc.
Proof.
  intros Hx Hy. rewrite <- (Qcmult_0_l y).
  now apply Qcmult_lt_compat_r.
Qed.

Lemma Qcinv_pos (x : Qc) : (0 < x -> 0 < / x)%Qc.
Proof.
  unfold Qclt. intros Hx. rewrite this_inv.
  now apply Qinv_lt_0_compat.
Qed.

Lemma Qcdiv_pos (x y : Qc) : (0 < x -> 0 < y -> 0 < x / y)%Qc.
Proof.
  intros Hx Hy. unfold Qcdiv. apply Qcmult_pos; [exact Hx |].
  now apply Qcinv_pos.
Qed.



(** ** More on the odds converter and the scoring rule *)

Lemma profit_spec_pos (o : Z) (s : Qc) :
  o <> 0 -> (0 < s)%Qc -> (0 < profit_spec o s)%Qc.
Proof.
  intros Ho Hs. unfold profit_spec.
  destruct (Z.ltb_spec 0 o) as [Hpos | Hneg].
  - apply Qcdiv_pos; [| now apply Z2Qc_pos].
    apply Qcmult_pos; [exact Hs | now apply Z2Qc_pos].
  - apply Qcdiv_pos; [| apply Z2Qc_pos; lia].
    apply Qcmult_pos; [exact Hs | now apply Z2Qc_pos].
Qed.

(** The profit of a winning wager is positive. *)
Theorem american_profit_positive (o : Z) (s : Qc) :
  o <> 0 -> (0 < s)%Qc ->
  exists v, american_profit o s = Ok v /\ (0 < v)%Qc.
Proof.
  intros Ho Hs. exists (profit_spec o s). split.
  - now apply american_profit_spec.
  - now apply profit_spec_pos.
Qed.

Lemma american_profit_positive_witness :
  -150 <> 0 /\ (0 < Z2Qc 100)%Qc
  /\ exists v, american_profit (-150) (Z2Qc 100) = Ok v /\ (0 < v)%Qc.
Proof.
  split; [lia |]. split; [reflexivity |].
  apply (american_profit_positive (-150) (Z2Qc 100)).
  - lia.
  - reflexivity.
Defined.

Lemma american_profit_raises (o : Z) (s : Qc) (e : PyError) :
  american_profit o s = Raise e -> o = 0.
Proof.
  intros E. destruct (Z.eq_dec o 0) as [Ho | Ho]; [exact Ho |].
  rewrite (american_profit_spec o s Ho) in E. discriminate E.
Qed.

Lemma bet_points_raises_iff_aux (o : Z) (r : string) (t : bool) (s : Qc) :
  bet_points o r t s = Raise ZeroDivisionError <-> r = "win"%string /\ o = 0.
Proof.
  split.
  - unfold bet_points.
    destruct (String.eqb_spec r "pending"); [discriminate |].
    destruct (String.eqb_spec r "push"); [discriminate |].
    destruct (String.eqb_spec r "win") as [-> | Hw].
    + destruct (american_profit o s) as [v |] eqn:E; simpl; [discriminate |].
      intros _. split; [reflexivity |].
      now apply (american_profit_raises o s e).
    + destruct (r =? "loss")%string; discriminate.
  - intros [-> ->]. reflexivity.
Qed.

(** X1: The scoring rule raises exactly on a win at odds 0: a pending, pushed,
    lost or unknown wager is scored even when its odds are 0. *)
Theorem bet_points_raises_iff (o : Z) (r : string) (t : bool) (s : Qc) :
  bet_points o r t s = Raise ZeroDivisionError <-> r = "win"%string /\ o = 0.
Proof. apply bet_points_raises_iff_aux. Qed.

















(** ** When the aggregators raise *)

Lemma row_points_raises (b : Bet) :
  row_points b = Raise ZeroDivisionError
  <-> result b = "win"%string /\ american_odds b = 0.
Proof. unfold row_points. apply bet_points_raises_iff_aux. Qed.

(** Division by zero is the only exception of the scoring rule. *)
Lemma truediv_error (a b : Z) (e : PyError) :
  truediv a b = Raise e -> e = ZeroDivisionError.
Proof.
  unfold truediv. destruct (b =? 0); intros E; inversion E; reflexivity.
Qed.

Lemma american_profit_error (o : Z) (s : Qc) (e : PyError) :
  american_profit o s = Raise e -> e = ZeroDivisionError.
Proof.
  unfold american_profit.
  destruct (0 <? o).
  - destruct (truediv o 100) as [q |] eqn:E; simpl; intros H; inversion H.
    subst. now apply (truediv_error o 100).
  - destruct (truediv 100 (Z.abs o)) as [q |] eqn:E; simpl; intros H;
      inversion H.
    subst. now apply (truediv_error 100 (Z.abs o)).
Qed.

Lemma row_points_error (b : Bet) (e : PyError) :
  row_points b = Raise e -> e = ZeroDivisionError.
Proof.
  unfold row_points, bet_points.
  destruct (result b =? "pending")%string; [discriminate |].
  destruct (result b =? "push")%string; [discriminate |].
  destruct (result b =? "win")%string.
  - destruct (american_profit (american_odds b) (stake b)) as [q |] eqn:E;
      simpl; intros H; inversion H.
    subst. now apply (american_profit_error (american_odds b) (stake b)).
  - destruct (result b =? "loss")%string; discriminate.
Qed.

Lemma apply_rows_error (bs : list Bet) (e : PyError) :
  apply_rows row_points bs = Raise e -> e = ZeroDivisionError.
Proof.
  induction bs as [| b t IH]; simpl; [discriminate |].
  destruct (row_points b) as [v | e'] eqn:Eb; simpl.
  - destruct (apply_rows row_points t) as [vs | e'']; simpl; intros H;
      inversion H.
    subst. now apply IH.
  - intros H. inversion H. subst. now apply (row_points_error b).
Qed.

Lemma apply_rows_raises (bs : list Bet) :
  apply_rows row_points bs = Raise ZeroDivisionError <-> has_zero_odds_win bs.
Proof.
  unfold has_zero_odds_win. induction bs as [| b t IH]; simpl.
  - split; [discriminate | intros [b [[] _]]].
  - destruct (row_points b) as [v | e] eqn:Eb; simpl.
    + destruct (apply_rows row_points t) as [vs | e] eqn:Et; simpl.
      * split; [discriminate |].
        intros [x [[<- | Hx] Hbad]].
        -- apply row_points_raises in Hbad. congruence.
        -- assert (Ht : @Ok (list Qc) vs = Raise ZeroDivisionError)
             by (apply IH; eauto).
           discriminate Ht.
      * assert (He := apply_rows_error t e Et). subst e.
        split; [| reflexivity].
        intros _. destruct (proj1 IH eq_refl) as [x [Hx Hbad]].
        exists x. auto.
    + assert (He := row_points_error b e Eb). subst e.
      split; [| reflexivity].
      intros _. exists b. split; [now left |].
      now apply row_points_raises.
Qed.

(** X5: Each aggregator raises exactly when the table holds a win at odds 0,
    whatever else it holds, and then leaves the caller's DataFrame as it
    was. *)
Theorem aggregators_raise_iff (sort : list Standing -> list Standing)
    (df : BetsFrame) :
  (snd (weekly_points df) = Raise ZeroDivisionError
   <-> has_zero_odds_win (rows df))
  /\ (snd (season_standings sort df) = Raise ZeroDivisionError
      <-> has_zero_odds_win (rows df))
  /\ (snd (cumulative_by_week df) = Raise ZeroDivisionError
      <-> has_zero_odds_win (rows df))
  /\ (has_zero_odds_win (rows df) ->
      fst (weekly_points df) = df
      /\ fst (season_standings sort df) = df
      /\ fst (cumulative_by_week df) = df).
Proof.
  assert (Hr := apply_rows_raises (rows df)).
  unfold weekly_points, season_standings, cumulative_by_week.
  destruct (rows df) as [| b t] eqn:Er.
  - assert (Hno : ~ has_zero_odds_win []) by (intros [x [[] _]]).
    repeat split; try discriminate; try tauto.
  - destruct (apply_rows row_points (b :: t)) as [pts | e] eqn:Ea; simpl.
    + assert (Hno : ~ has_zero_odds_win (b :: t)).
      { intros Hbad. apply Hr in Hbad. discriminate Hbad. }
      repeat split; try discriminate; try tauto.
    + assert (He := apply_rows_error (b :: t) e Ea). subst e.
      repeat split; auto; intros _; now apply Hr.
Qed.

(** ** Weekly totals *)

Lemma weekly_totals_of_rows (tbl : list (Bet * Qc)) :
  weekly_totals_of tbl
  = map (weekly_row tbl) (group_keys (map weekly_key tbl)).
Proof. unfold weekly_totals_of, groupby. now rewrite map_map. Qed.

Lemma In_weekly_keys (bs : list Bet) (k : Z * string * Z) :
  In k (group_keys (map weekly_key (map tag bs)))
  <-> exists b, In b bs /\ weekly_key (tag b) = k.
Proof.
  rewrite In_group_keys, map_map, in_map_iff.
  split; intros [b Hb]; exists b; tauto.
Qed.

Lemma weekly_group (bs : list Bet) (b : Bet) :
  joined bs -> In b bs ->
  group_of weekly_key (map tag bs) (weekly_key (tag b))
  = map tag (in_week (week b) (bets_of (player_id b) bs)).
Proof.
  intros Hj Hb. unfold group_of, in_week, bets_of.
  rewrite filter_tag, filter_andb. f_equal.
  apply filter_ext_in. intros a Ha.
  unfold weekly_key. simpl.
  destruct (Z.eqb_spec (player_id a) (player_id b)) as [E | E]; simpl.
  - destruct (Hj a b Ha Hb E) as [-> _].
    now rewrite String.eqb_refl.
  - reflexivity.
Qed.

Lemma In_weekly_totals (bs : list Bet) (r : WeeklyTotal) :
  joined bs ->
  In r (weekly_totals_of (map tag bs)) <->
  exists b, In b bs
    /\ r = {| wt_player_id := player_id b;
              wt_player_name := player_name b;
              wt_week := week b;
              wt_points :=
                total_points (in_week (week b) (bets_of (player_id b) bs)) |}.
Proof.
  intros Hj. rewrite weekly_totals_of_rows, in_map_iff. split.
  - intros [k [<- Hk]]. apply In_weekly_keys in Hk.
    destruct Hk as [b [Hb <-]]. exists b. split; [exact Hb |].
    unfold weekly_row.
    rewrite (weekly_group bs b Hj Hb), map_snd_tag. reflexivity.
  - intros [b [Hb ->]]. exists (weekly_key (tag b)). split.
    + unfold weekly_row.
      rewrite (weekly_group bs b Hj Hb), map_snd_tag. reflexivity.
    + apply In_weekly_keys. now exists b.
Qed.

Lemma weekly_totals_NoDup (bs : list Bet) :
  joined bs ->
  NoDup (map weekly_player_week (weekly_totals_of (map tag bs))).
Proof.
  intros Hj. rewrite weekly_totals_of_rows, map_map.
  apply NoDup_map_in; [| apply NoDup_group_keys].
  intros k k' Hk Hk' E.
  apply In_weekly_keys in Hk, Hk'.
  destruct Hk as [a [Ha <-]], Hk' as [b [Hb <-]].
  unfold weekly_player_week, weekly_row, weekly_key in *. simpl in *.
  inversion E as [[Ep Ew]].
  destruct (Hj a b Ha Hb Ep) as [-> _]. now rewrite Ep, Ew.
Qed.

(** X8: Given the wagers of any number of weeks, the weekly aggregator returns
    one total per participant and week with a wager (it does not merge the
    weeks), each the sum of the points of that participant's wagers of that
    week. *)
Theorem weekly_points_rows (df : BetsFrame) :
  valid_odds (rows df) -> joined (rows df) ->
  exists out,
    snd (weekly_points df) = Ok out
    /\ NoDup (map weekly_player_week out)
    /\ (forall b, In b (rows df) ->
          exists r, In r out
            /\ wt_player_id r = player_id b /\ wt_week r = week b
            /\ wt_player_name r = player_name b)
    /\ (forall r, In r out ->
          (exists b, In b (rows df)
             /\ player_id b = wt_player_id r /\ week b = wt_week r)
          /\ wt_points r
             = total_points
                 (in_week (wt_week r) (bets_of (wt_player_id r) (rows df)))).
Proof.
  intros Hv Hj. rewrite (weekly_points_run df Hv).
  eexists. split; [reflexivity |].
  split; [now apply weekly_totals_NoDup |].
  split.
  - intros b Hb. eexists. split.
    + apply (In_weekly_totals _ _ Hj). exists b. split; [exact Hb | reflexivity].
    + simpl. auto.
  - intros r Hr. apply (In_weekly_totals _ _ Hj) in Hr.
    destruct Hr as [b [Hb ->]]. simpl. split; [| reflexivity].
    exists b. auto.
Qed.

Lemma weekly_points_rows_witness :
  valid_odds (rows league_frame) /\ joined (rows league_frame)
  /\ exists out,
       snd (weekly_points league_frame) = Ok out
       /\ NoDup (map weekly_player_week out).
Proof.
  split; [exact league_valid_odds |].
  split; [exact league_joined |].
  destruct (weekly_points_rows league_frame league_valid_odds league_joined)
    as [out [Hrun [Hnd _]]].
  exists out. split; [exact Hrun | exact Hnd].
Defined.

Lemma Qcsum_groupby_all {A K : Type} `{KeyLaws K} (key : A -> K)
    (val : A -> Qc) (l : list A) :
  Qcsum (map (fun k => Qcsum (map val (group_of key l k)))
           (group_keys (map key l)))
  = Qcsum (map val l).
Proof.
  rewrite <- (filter_true (group_keys (map key l))) at 1.
  rewrite (Qcsum_groupby_filter key val l (fun _ => true)).
  now rewrite filter_true.
Qed.

(** X9: The weekly totals add up to the points of all the wagers: no wager is
    lost or counted twice by the grouping, even when a participant appears
    under two names. *)
Theorem weekly_points_conserve (df : BetsFrame) :
  valid_odds (rows df) ->
  exists out,
    snd (weekly_points df) = Ok out
    /\ Qcsum (map wt_points out) = total_points (rows df).
Proof.
  intros Hv. rewrite (weekly_points_run df Hv).
  eexists. split; [reflexivity |].
  rewrite weekly_totals_of_rows, map_map.
  change (fun x => wt_points (weekly_row (map tag (rows df)) x))
    with (fun k => Qcsum (map snd (group_of weekly_key (map tag (rows df)) k))).
  rewrite (Qcsum_groupby_all weekly_key snd (map tag (rows df))).
  now rewrite map_snd_tag.
Qed.

Lemma weekly_points_conserve_witness :
  valid_odds (rows league_frame)
  /\ exists out,
       snd (weekly_points league_frame) = Ok out
       /\ Qcsum (map wt_points out) = total_points (rows league_frame).
Proof.
  split; [exact league_valid_odds |].
  apply (weekly_points_conserve league_frame).
  exact league_valid_odds.
Defined.

(** X10: Where names identify participants, the trajectory is the running
    sum of the weekly aggregator's totals: the cumulative value of a
    trajectory row is the sum of the points that [weekly_points] returns
    for the participant of that name in the weeks up to that of the row. *)
Theorem cumulative_sums_weekly_points (df : BetsFrame) :
  valid_odds (rows df) -> joined (rows df) -> unique_names (rows df) ->
  exists weekly trajectory,
    snd (weekly_points df) = Ok weekly
    /\ snd (cumulative_by_week df) = Ok trajectory
    /\ forall t, In t trajectory ->
         tp_cumulative_points t
         = Qcsum (map wt_points (weekly_up_to t weekly)).
Proof.
  intros Hv Hj Hu. set (bs := rows df) in *.
  rewrite (weekly_points_run df Hv), (cumulative_by_week_run df Hv).
  fold bs.
  eexists _, _. split; [reflexivity |]. split; [reflexivity |].
  intros t Ht.
  apply (In_trajectory bs t Hj) in Ht. destruct Ht as [b [Hb ->]].
  unfold weekly_up_to. cbn [tp_player_name tp_week tp_cumulative_points].
  rewrite weekly_totals_of_rows.
  rewrite filter_map_swap.
  rewrite (map_map (weekly_row (map tag bs)) wt_points).
  change (fun x => wt_points (weekly_row (map tag bs) x))
    with (fun k => Qcsum (map snd (group_of weekly_key (map tag bs) k))).
  change (fun a => (wt_player_name (weekly_row (map tag bs) a)
                    =? player_name b)%string
                   && (wt_week (weekly_row (map tag bs) a) <=? week b))
    with (fun k : Z * string * Z =>
            (snd (fst k) =? player_name b)%string && (snd k <=? week b)).
  rewrite (Qcsum_groupby_filter weekly_key snd (map tag bs)
             (fun k => (snd (fst k) =? player_name b)%string
                       && (snd k <=? week b))).
  rewrite filter_tag, map_snd_tag.
  unfold total_points, up_to_week, bets_of.
  rewrite filter_andb. f_equal. f_equal.
  apply filter_ext_in. intros a Ha.
  unfold weekly_key, tag. simpl. f_equal.
  destruct (Z.eqb_spec (player_id a) (player_id b)) as [E | E].
  - symmetry. apply String.eqb_eq. apply (Hj a b Ha Hb E).
  - symmetry. apply String.eqb_neq. intros En. apply E.
    now apply (Hu a b Ha Hb).
Qed.

Lemma cumulative_sums_weekly_points_witness :
  valid_odds (rows league_frame) /\ joined (rows league_frame)
  /\ unique_names (rows league_frame)
  /\ exists weekly trajectory,
       snd (weekly_points league_frame) = Ok weekly
       /\ snd (cumulative_by_week league_frame) = Ok trajectory
       /\ forall t, In t trajectory ->
            tp_cumulative_points t
            = Qcsum (map wt_points (weekly_up_to t weekly)).
Proof.
  split; [exact league_valid_odds |].
  split; [exact league_joined |].
  split; [exact league_unique_names |].
  apply (cumulative_sums_weekly_points league_frame).
  - exact league_valid_odds.
  - exact league_joined.
  - exact league_unique_names.
Defined.

(** ** Counting in the season standings *)

Lemma length_filter_split {A : Type} (f g : A -> bool) (l : list A) :
  (forall a, In a l -> f a = true -> g a = false) ->
  List.length (filter (fun a => f a || g a) l)
  = (List.length (filter f l) + List.length (filter g l))%nat.
Proof.
  induction l as [| a t IH]; intros Hd; simpl; [reflexivity |].
  assert (IH' := IH (fun x Hx => Hd x (or_intror Hx))).
  specialize (Hd a (or_introl eq_refl)).
  destruct (f a) eqn:Ef; simpl.
  - rewrite (Hd eq_refl). simpl. now rewrite IH'.
  - destruct (g a); simpl; rewrite IH'; lia.
Qed.

Lemma list_sum_perm (l l' : list nat) :
  Permutation l l' -> list_sum l = list_sum l'.
Proof.
  induction 1 as [| x l l' _ IH | x y l | l l' l'' _ IH1 _ IH2]; simpl; lia.
Qed.

Section CountFacts.
Context {A K : Type} `{KeyLaws K}.

Lemma length_groups (key : A -> K) (l : list A) (ks : list K) :
  NoDup ks ->
  list_sum (map (fun k => List.length (group_of key l k)) ks)
  = List.length (filter (fun a => existsb (key_eqb (key a)) ks) l).
Proof.
  induction 1 as [| k ks' Hk Hnd IH]; simpl.
  - induction l as [| a t IHl]; simpl; [reflexivity | exact IHl].
  - rewrite IH.
    rewrite (length_filter_split (fun a => key_eqb (key a) k)
               (fun a => existsb (key_eqb (key a)) ks') l).
    + reflexivity.
    + intros a _ E. apply key_eqb_eq in E. subst k.
      destruct (existsb (key_eqb (key a)) ks') eqn:E'; [| reflexivity].
      apply existsb_key in E'. contradiction.
Qed.

(** Groups of distinct keys that cover the rows hold every row once. *)
Lemma length_groups_cover (key : A -> K) (l : list A) (ks : list K) :
  NoDup ks -> (forall a, In a l -> In (key a) ks) ->
  list_sum (map (fun k => List.length (group_of key l k)) ks)
  = List.length l.
Proof.
  intros Hnd Hcover. rewrite (length_groups key l ks Hnd).
  rewrite (filter_ext_in _ (fun _ => true)); [now rewrite filter_true |].
  intros a Ha. apply existsb_key. now apply Hcover.
Qed.
End CountFacts.

Lemma standings_total_bets (bs : list Bet) :
  list_sum (map st_total_bets (standings_of (map tag bs))) = List.length bs.
Proof.
  rewrite standings_of_rows, map_map.
  change (fun x => st_total_bets (standing_row (map tag bs) x))
    with (fun k => List.length (group_of season_key (map tag bs) k)).
  rewrite length_groups_cover.
  - apply length_map.
  - apply NoDup_group_keys.
  - intros a Ha. apply In_group_keys. now apply in_map.
Qed.

Lemma group_of_filter {A K : Type} `{Key K} (key : A -> K) (f : A -> bool)
    (l : list A) (k : K) :
  filter f (group_of key l k) = group_of key (filter f l) k.
Proof. unfold group_of. apply filter_comm. Qed.

Lemma standings_wins (bs : list Bet) :
  list_sum (map st_wins (standings_of (map tag bs))) = count_result "win" bs.
Proof.
  rewrite standings_of_rows, map_map.
  change (fun x => st_wins (standing_row (map tag bs) x))
    with (fun k => List.length
                     (filter (has_result "win")
                        (group_of season_key (map tag bs) k))).
  rewrite (map_ext _ (fun k => List.length
                                (group_of season_key
                                   (filter (has_result "win") (map tag bs)) k)))
    by (intros k; now rewrite group_of_filter).
  rewrite length_groups_cover.
  - unfold count_result. rewrite filter_tag, length_map. reflexivity.
  - apply NoDup_group_keys.
  - intros a Ha. apply In_group_keys. apply in_map.
    apply filter_In in Ha. tauto.
Qed.

Lemma standings_result_count (s : string) (bs : list Bet) :
  joined bs ->
  list_sum
    (map (fun k => lookup_count (fst k) (result_counts s (map tag bs)))
       (group_keys (map season_key (map tag bs))))
  = count_result s bs.
Proof.
  intros Hj.
  rewrite (map_ext _ (fun k =>
             List.length
               (group_of player_id
                  (filter (fun b => (result b =? s)%string) bs) (fst k)))).
  - rewrite <- (map_map fst
                  (fun p => List.length
                              (group_of player_id
                                 (filter (fun b => (result b =? s)%string) bs)
                                 p))).
    rewrite length_groups_cover.
    + reflexivity.
    + now apply season_players_NoDup.
    + intros a Ha. apply season_players_In.
      apply filter_In in Ha. exists a. tauto.
  - intros k. rewrite result_count_of.
    unfold count_result, bets_of, group_of.
    now rewrite filter_comm.
Qed.

(** X11: Every wager is counted once in the standings: the [total_bets] add up
    to the number of rows and the [wins] to the number of winning rows;
    for joined rows the [losses] and [pushes] add up likewise. *)
Theorem season_standings_counts (sort : list Standing -> list Standing)
    (df : BetsFrame) :
  sort_values_desc sort -> valid_odds (rows df) ->
  exists out,
    snd (season_standings sort df) = Ok out
    /\ list_sum (map sr_total_bets out) = List.length (rows df)
    /\ list_sum (map sr_wins out) = count_result "win" (rows df)
    /\ (joined (rows df) ->
        list_sum (map sr_losses out) = count_result "loss" (rows df)
        /\ list_sum (map sr_pushes out) = count_result "push" (rows df)).
Proof.
  intros Hs Hv. rewrite (season_standings_run sort df Hs Hv).
  eexists. split; [reflexivity |].
  destruct (Hs (standings_of (map tag (rows df)))) as [Hperm _].
  rewrite !map_map.
  change (fun x => sr_total_bets (project_standing x)) with st_total_bets.
  change (fun x => sr_wins (project_standing x)) with st_wins.
  change (fun x => sr_losses (project_standing x)) with st_losses.
  change (fun x => sr_pushes (project_standing x)) with st_pushes.
  rewrite <- (list_sum_perm _ _ (Permutation_map st_total_bets Hperm)).
  rewrite <- (list_sum_perm _ _ (Permutation_map st_wins Hperm)).
  rewrite <- (list_sum_perm _ _ (Permutation_map st_losses Hperm)).
  rewrite <- (list_sum_perm _ _ (Permutation_map st_pushes Hperm)).
  split; [apply standings_total_bets |].
  split; [apply standings_wins |].
  intros Hj. rewrite standings_of_rows.
  rewrite (map_map (standing_row (map tag (rows df))) st_losses).
  rewrite (map_map (standing_row (map tag (rows df))) st_pushes).
  split; now apply standings_result_count.
Qed.

Lemma season_standings_counts_witness :
  sort_values_desc sort_desc_stable /\ valid_odds (rows league_frame)
  /\ exists out,
       snd (season_standings sort_desc_stable league_frame) = Ok out
       /\ list_sum (map sr_total_bets out) = List.length (rows league_frame)
       /\ list_sum (map sr_wins out) = count_result "win" (rows league_frame).
Proof.
  split; [exact sort_desc_stable_ok |].
  split; [exact league_valid_odds |].
  destruct (season_standings_counts sort_desc_stable league_frame
              sort_desc_stable_ok league_valid_odds)
    as [out [Hrun [Htotal [Hwins _]]]].
  exists out. split; [exact Hrun |]. split; [exact Htotal | exact Hwins].
Defined.

Lemma season_standings_players (sort : list Standing -> list Standing)
    (bs : list Bet) :
  sort_values_desc sort -> valid_odds bs -> joined bs ->
  forall r,
    In r (map project_standing (sort (standings_of (map tag bs)))) ->
    exists p, standing_of_player bs p r.
Proof.
  intros Hs Hv Hj r Hr.
  destruct (Hs (standings_of (map tag bs))) as [Hperm _].
  apply (Permutation_in _
           (Permutation_sym (Permutation_map project_standing Hperm))) in Hr.
  assert (HF := standings_of_groups bs Hv Hj).
  revert Hr. generalize dependent (map project_standing
                                     (standings_of (map tag bs))).
  generalize (map fst (group_keys (map season_key (map tag bs)))).
  intros ps out HF. induction HF as [| p x ps' out' Hpx _ IH]; simpl.
  - tauto.
  - intros [<- | Hr]; [now exists p | now apply IH].
Qed.

Lemma length_by_result (l : list Bet) :
  List.length l
  = (count_result "win" l + count_result "loss" l + count_result "push" l
     + List.length (filter unsettled l))%nat.
Proof.
  unfold count_result, unsettled.
  induction l as [| b t IH]; simpl; [reflexivity |].
  destruct (String.eqb_spec (result b) "win") as [E | _].
  - rewrite E. simpl. lia.
  - destruct (String.eqb_spec (result b) "loss") as [E | _].
    + rewrite E. simpl. lia.
    + destruct (String.eqb_spec (result b) "push") as [E | _]; simpl; lia.
Qed.

(** X12: In every standings row the wins, losses and pushes account for all the
    participant's wagers but the unsettled ones (pending, or any other
    status): [total_bets] is their sum plus the number of those. *)
Theorem season_standings_settled (sort : list Standing -> list Standing)
    (df : BetsFrame) :
  sort_values_desc sort -> valid_odds (rows df) -> joined (rows df) ->
  exists out,
    snd (season_standings sort df) = Ok out
    /\ forall r, In r out ->
         exists p,
           (forall b, In b (bets_of p (rows df)) ->
              player_name b = sr_player_name r)
           /\ sr_total_bets r
              = (sr_wins r + sr_losses r + sr_pushes r
                 + List.length (filter unsettled (bets_of p (rows df))))%nat.
Proof.
  intros Hs Hv Hj. rewrite (season_standings_run sort df Hs Hv).
  eexists. split; [reflexivity |].
  intros r Hr.
  destruct (season_standings_players sort (rows df) Hs Hv Hj r Hr)
    as [p [Hname [Htotal [Hwins [Hlosses [Hpushes _]]]]]].
  exists p. split; [exact Hname |].
  rewrite Htotal, Hwins, Hlosses, Hpushes. apply length_by_result.
Qed.

Lemma season_standings_settled_witness :
  sort_values_desc sort_desc_stable
  /\ valid_odds (rows league_frame) /\ joined (rows league_frame)
  /\ exists out,
       snd (season_standings sort_desc_stable league_frame) = Ok out
       /\ forall r, In r out ->
            exists p,
              (forall b, In b (bets_of p (rows league_frame)) ->
                 player_name b = sr_player_name r)
              /\ sr_total_bets r
                 = (sr_wins r + sr_losses r + sr_pushes r
                    + List.length
                        (filter unsettled (bets_of p (rows league_frame))))%nat.
Proof.
  split; [exact sort_desc_stable_ok |].
  split; [exact league_valid_odds |].
  split; [exact league_joined |].
  apply (season_standings_settled sort_desc_stable league_frame).
  - exact sort_desc_stable_ok.
  - exact league_valid_odds.
  - exact league_joined.
Defined.

(** ** Chaining the aggregators on one DataFrame *)

Lemma frame_effect_rows (df df' : BetsFrame) :
  frame_effect df df' ->
  rows df' = rows df
  /\ (rows df = [] \/ (exists e, apply_rows row_points (rows df) = Raise e) ->
      df' = df).
Proof.
  intros [Hr Hp]. split; [exact Hr |].
  intros Hcase. destruct df as [bs pts], df' as [bs' pts']. simpl in *.
  subst bs'. f_equal.
  destruct bs as [| b t].
  - exact Hp.
  - destruct Hcase as [E | [e E]]; [discriminate |].
    rewrite E in Hp. exact Hp.
Qed.

(** X6: An aggregator gives the same result, and leaves the same DataFrame, on
    the frame another aggregator left behind as on the original: the
    ['points'] column is recomputed, never read.  (So [charts_tab] may call
    [cumulative_by_week] and then [season_standings] on one table.) *)
Theorem aggregators_chain (sort : list Standing -> list Standing)
    (df df' : BetsFrame) :
  frame_effect df df' ->
  weekly_points df' = weekly_points df
  /\ season_standings sort df' = season_standings sort df
  /\ cumulative_by_week df' = cumulative_by_week df.
Proof.
  intros Hf. destruct (frame_effect_rows df df' Hf) as [Hr Hsame].
  unfold weekly_points, season_standings, cumulative_by_week.
  rewrite Hr.
  destruct (rows df) as [| b t] eqn:Er.
  - rewrite Hsame by (now left). auto.
  - destruct (apply_rows row_points (b :: t)) as [pts | e] eqn:Ea.
    + auto.
    + rewrite Hsame by (right; now exists e). auto.
Qed.

Lemma aggregators_chain_witness :
  frame_effect league_frame (fst (cumulative_by_week league_frame))
  /\ season_standings sort_desc_stable (fst (cumulative_by_week league_frame))
     = season_standings sort_desc_stable league_frame.
Proof.
  assert (Hf : frame_effect league_frame
                 (fst (cumulative_by_week league_frame))).
  { split; reflexivity. }
  split; [exact Hf |].
  apply (aggregators_chain sort_desc_stable league_frame
           (fst (cumulative_by_week league_frame)) Hf).
Defined.

(** ** Tables without a settled win or loss *)

Lemma apply_rows_ok_in (bs : list Bet) :
  (forall b, In b bs -> row_points b = Ok (points_value b)) ->
  apply_rows row_points bs = Ok (map points_value bs).
Proof.
  induction bs as [| b t IH]; intros Hok; simpl; [reflexivity |].
  rewrite (Hok b (or_introl eq_refl)). simpl.
  rewrite IH by (intros x Hx; apply Hok; now right). reflexivity.
Qed.

Lemma row_points_unsettled (b : Bet) :
  result b <> "win"%string -> result b <> "loss"%string ->
  row_points b = Ok 0%Qc.
Proof.
  intros Hw Hl. unfold row_points, bet_points.
  destruct (result b =? "pending")%string; [reflexivity |].
  destruct (result b =? "push")%string; [reflexivity |].
  destruct (String.eqb_spec (result b) "win"); [contradiction |].
  destruct (String.eqb_spec (result b) "loss"); [contradiction |].
  reflexivity.
Qed.

Lemma Qcsum_all_zero (l : list Qc) :
  (forall x, In x l -> x = 0%Qc) -> Qcsum l = 0%Qc.
Proof.
  induction l as [| x t IH]; intros Hz; simpl; [reflexivity |].
  rewrite (Hz x (or_introl eq_refl)), Qcplus_0_l.
  apply IH. intros y Hy. apply Hz. now right.
Qed.

Lemma round1_zero : round1 0%Qc = 0%Qc.
Proof. apply Qc_this_eq. reflexivity. Qed.

Lemma group_points_zero {K : Type} `{Key K} (key : Bet * Qc -> K)
    (bs : list Bet) (k : K) :
  (forall b, In b bs -> points_value b = 0%Qc) ->
  Qcsum (map snd (group_of key (map tag bs) k)) = 0%Qc.
Proof.
  intros Hz. apply Qcsum_all_zero. intros x Hx.
  apply in_map_iff in Hx. destruct Hx as [[b q] [<- Hin]].
  apply filter_In in Hin. destruct Hin as [Hin _].
  apply in_map_iff in Hin. destruct Hin as [b' [E Hb']].
  inversion E; subst. simpl. now apply Hz.
Qed.

Lemma unsettled_scores_zero_aux (sort : list Standing -> list Standing)
    (df : BetsFrame) :
  sort_values_desc sort ->
  Forall (fun b => result b <> "win"%string /\ result b <> "loss"%string)
    (rows df) ->
  exists weekly standings trajectory,
    snd (weekly_points df) = Ok weekly
    /\ snd (season_standings sort df) = Ok standings
    /\ snd (cumulative_by_week df) = Ok trajectory
    /\ Forall (fun r => wt_points r = 0%Qc) weekly
    /\ Forall (fun r => sr_season_points r = 0%Qc
                        /\ sr_wins r = 0%nat /\ sr_losses r = 0%nat)
         standings
    /\ Forall (fun r => tp_cumulative_points r = 0%Qc) trajectory.
Proof.
  intros Hs Hun. rewrite Forall_forall in Hun.
  set (bs := rows df) in *.
  assert (Hrow : forall b, In b bs -> row_points b = Ok 0%Qc).
  { intros b Hb. destruct (Hun b Hb). now apply row_points_unsettled. }
  assert (Hzero : forall b, In b bs -> points_value b = 0%Qc).
  { intros b Hb. unfold points_value. now rewrite (Hrow b Hb). }
  assert (Hrun : apply_rows row_points bs = Ok (map points_value bs)).
  { apply apply_rows_ok_in. intros b Hb.
    now rewrite (Hrow b Hb), (Hzero b Hb). }
  destruct (Hs (standings_of (map tag bs))) as [Hperm _].
  exists (weekly_totals_of (map tag bs)),
    (map project_standing (sort (standings_of (map tag bs)))),
    (map project_trajectory (cumulative_frame (map tag bs))).
  split; [| split; [| split]].
  - unfold weekly_points. fold bs. rewrite Hrun, scored_tag.
    destruct bs; reflexivity.
  - unfold season_standings. fold bs. rewrite Hrun, scored_tag.
    destruct bs as [| b t]; [| reflexivity].
    simpl. destruct (Hs []) as [Hp _]. apply Permutation_nil in Hp.
    change (standings_of []) with (@nil Standing). now rewrite Hp.
  - unfold cumulative_by_week. fold bs. rewrite Hrun, scored_tag.
    destruct bs; reflexivity.
  - split; [| split].
    + rewrite weekly_totals_of_rows. apply Forall_map, Forall_forall.
      intros k _. unfold weekly_row. simpl. now apply group_points_zero.
    + apply Forall_map.
      apply (Permutation_Forall Hperm).
      rewrite standings_of_rows. apply Forall_map, Forall_forall.
      intros k _. unfold standing_row, project_standing. simpl.
      split; [| split].
      * rewrite group_points_zero by exact Hzero. apply round1_zero.
      * rewrite group_of_filter, filter_none; [reflexivity |].
        intros x Hx. apply in_map_iff in Hx. destruct Hx as [b [<- Hb]].
        unfold has_result. simpl. apply String.eqb_neq.
        now destruct (Hun b Hb).
      * unfold result_counts. rewrite lookup_count_groupby.
        rewrite filter_none; [reflexivity |].
        intros x Hx. apply in_map_iff in Hx. destruct Hx as [b [<- Hb]].
        unfold has_result. simpl. apply String.eqb_neq.
        now destruct (Hun b Hb).
    + apply Forall_map, Forall_forall. intros [r c] Hin.
      unfold project_trajectory. simpl.
      unfold cumulative_frame in Hin.
      apply cumsum_by_In in Hin. destruct Hin as [pre [post [Es ->]]].
      assert (Hall : forall x,
                In x (sort_player_week (week_points_of (map tag bs))) ->
                wp_points x = 0%Qc).
      { intros x Hx. apply In_sorted_week_points in Hx.
        rewrite week_points_of_rows in Hx. apply in_map_iff in Hx.
        destruct Hx as [k [<- _]]. unfold week_points_row. simpl.
        now apply group_points_zero. }
      rewrite Es in Hall.
      rewrite (Hall r) by (apply in_or_app; right; now left).
      rewrite Qcsum_all_zero; [now rewrite !Qcplus_0_l |].
      intros q Hq. apply in_map_iff in Hq. destruct Hq as [x [<- Hx]].
      apply filter_In in Hx. apply Hall. apply in_or_app. left. tauto.
Qed.

(** X7: A table with no won and no lost wager (all pending, pushed or of an
    unknown status) scores zero everywhere, in all three aggregators and
    whatever the odds, zero included. *)
Theorem unsettled_table_scores_zero (sort : list Standing -> list Standing)
    (df : BetsFrame) :
  sort_values_desc sort ->
  Forall (fun b => result b <> "win"%string /\ result b <> "loss"%string)
    (rows df) ->
  exists weekly standings trajectory,
    snd (weekly_points df) = Ok weekly
    /\ snd (season_standings sort df) = Ok standings
    /\ snd (cumulative_by_week df) = Ok trajectory
    /\ Forall (fun r => wt_points r = 0%Qc) weekly
    /\ Forall (fun r => sr_season_points r = 0%Qc
                        /\ sr_wins r = 0%nat /\ sr_losses r = 0%nat)
         standings
    /\ Forall (fun r => tp_cumulative_points r = 0%Qc) trajectory.
Proof. apply unsettled_scores_zero_aux. Qed.

Lemma unsettled_table_scores_zero_witness :
  sort_values_desc sort_desc_stable
  /\ Forall (fun b => result b <> "win"%string /\ result b <> "loss"%string)
       (rows (frame_of [sample_bet 1 1 1 "Logan" "#e74c3c" 0 (Z2Qc 100) 1
                          "pending"]))
  /\ exists weekly standings trajectory,
       snd (weekly_points
              (frame_of [sample_bet 1 1 1 "Logan" "#e74c3c" 0 (Z2Qc 100) 1
                           "pending"])) = Ok weekly
       /\ snd (season_standings sort_desc_stable
                 (frame_of [sample_bet 1 1 1 "Logan" "#e74c3c" 0 (Z2Qc 100) 1
                              "pending"])) = Ok standings
       /\ snd (cumulative_by_week
                 (frame_of [sample_bet 1 1 1 "Logan" "#e74c3c" 0 (Z2Qc 100) 1
                              "pending"])) = Ok trajectory
       /\ Forall (fun r => wt_points r = 0%Qc) weekly
       /\ Forall (fun r => sr_season_points r = 0%Qc
                           /\ sr_wins r = 0%nat /\ sr_losses r = 0%nat)
            standings
       /\ Forall (fun r => tp_cumulative_points r = 0%Qc) trajectory.
Proof.
  assert (Hun : Forall (fun b => result b <> "win"%string
                                 /\ result b <> "loss"%string)
                  (rows (frame_of [sample_bet 1 1 1 "Logan" "#e74c3c" 0
                                     (Z2Qc 100) 1 "pending"]))).
  { repeat constructor; discriminate. }
  split; [exact sort_desc_stable_ok |].
  split; [exact Hun |].
  apply (unsettled_table_scores_zero sort_desc_stable _
           sort_desc_stable_ok Hun).
Defined.

(** ** Pagination *)

Lemma firstn_skipn_add {A : Type} (a b : nat) (l : list A) :
  firstn a l ++ firstn b (skipn a l) = firstn (a + b) l.
Proof.
  revert l. induction a as [| a IH]; intros l; simpl; [reflexivity |].
  destruct l as [| x t]; simpl.
  - now rewrite firstn_nil.
  - now rewrite IH.
Qed.

Lemma firstn_min_length {A : Type} (a : nat) (l : list A) :
  firstn (Nat.min a (List.length l)) l = firstn a l.
Proof.
  destruct (Nat.le_ge_cases a (List.length l)) as [Hle | Hge].
  - now rewrite Nat.min_l.
  - rewrite Nat.min_r by exact Hge.
    now rewrite !firstn_all2 by lia.
Qed.

(** A slice from a non-negative start of positive length is the chunk of
    that length at that offset. *)
Lemma iloc_slice_chunk {A : Type} (l : list A) (start size : nat) :
  iloc_slice l (Z.of_nat start) (Z.of_nat start + Z.of_nat size)
  = firstn size (skipn start l).
Proof.
  unfold iloc_slice, slice_bound.
  set (n := List.length l).
  destruct (Z.ltb_spec (Z.of_nat start) 0) as [Hneg | _]; [lia |].
  destruct (Z.ltb_spec (Z.of_nat start + Z.of_nat size) 0) as [Hneg | _];
    [lia |].
  destruct (Nat.le_gt_cases n start) as [Hout | Hin].
  - rewrite !Z.min_r by lia. rewrite Z.sub_diag. simpl.
    rewrite (skipn_all2 l) by (fold n; lia). now rewrite firstn_nil.
  - rewrite (Z.min_l (Z.of_nat start)) by lia. rewrite Nat2Z.id.
    rewrite <- (firstn_min_length size (skipn start l)).
    rewrite length_skipn. fold n. f_equal.
    destruct (Z.min_spec (Z.of_nat start + Z.of_nat size) (Z.of_nat n))
      as [[Hz ->] | [Hz ->]];
      destruct (Nat.min_spec size (n - start)) as [[Hn ->] | [Hn ->]]; lia.
Qed.

Lemma concat_chunks {A : Type} (l : list A) (size m : nat) :
  List.concat (map (fun i => firstn size (skipn (i * size) l)) (seq 0 m))
  = firstn (m * size) l.
Proof.
  induction m as [| m IH]; [reflexivity |].
  rewrite seq_S, map_app, concat_app, IH. simpl.
  rewrite app_nil_r, firstn_skipn_add. f_equal. lia.
Qed.

Lemma total_pages_bounds (n size : nat) :
  (0 < size)%nat ->
  exists m : nat,
    total_pages (Z.of_nat n) (Z.of_nat size) = Ok (Z.of_nat m)
    /\ (n <= m * size)%nat
    /\ (forall i, (i < m)%nat -> (i * size < n)%nat).
Proof.
  intros Hsize. unfold total_pages.
  destruct (Z.eqb_spec (Z.of_nat size) 0) as [E | _]; [lia |].
  set (q := (Z.of_nat n - 1) / Z.of_nat size).
  assert (Hq : Z.of_nat size * q <= Z.of_nat n - 1
               < Z.of_nat size * (q + 1)).
  { unfold q. split.
    - apply Z.mul_div_le. lia.
    - apply Z.mul_succ_div_gt. lia. }
  assert (Hq0 : -1 <= q) by nia.
  exists (Z.to_nat (q + 1)). rewrite Z2Nat.id by lia.
  split; [reflexivity |]. split.
  - nia.
  - intros i Hi. nia.
Qed.

Lemma paginate_chunk {A : Type} (df : list A) (size i : nat) :
  (0 < size)%nat -> (i * size < List.length df)%nat ->
  paginate_dataframe df (Z.of_nat size) (Z.of_nat i + 1)
  = Ok (firstn size (skipn (i * size) df)).
Proof.
  intros Hsize Hi. unfold paginate_dataframe, total_pages.
  destruct (Z.eqb_spec (Z.of_nat size) 0) as [E | _]; [lia |].
  cbn [bind]. unfold number_input.
  set (q := (Z.of_nat (List.length df) - 1) / Z.of_nat size).
  assert (Hq : Z.of_nat i <= q).
  { unfold q. apply Z.div_le_lower_bound; nia. }
  destruct (Z.ltb_spec 1 1) as [H1 | _]; [lia |].
  destruct (Z.ltb_spec (q + 1) 1) as [H2 | _]; [lia |].
  cbn [orb bind].
  replace (Z.max 1 (Z.min (Z.of_nat i + 1) (q + 1)))
    with (Z.of_nat i + 1) by lia.
  f_equal.
  replace ((Z.of_nat i + 1 - 1) * Z.of_nat size)
    with (Z.of_nat (i * size)) by lia.
  apply iloc_slice_chunk.
Qed.

(** X13: With a positive page size the pages 1 to [total_pages] are non-empty,
    hold at most [page_size] rows each and, put end to end, are the table;
    an empty table has no page at all ([total_pages] is 0). *)
Theorem paginate_dataframe_pages {A : Type} (df : list A) (page_size : Z) :
  0 < page_size ->
  exists count pages,
    total_pages (Z.of_nat (List.length df)) page_size = Ok count
    /\ 0 <= count
    /\ (count = 0 <-> df = [])
    /\ pages_of df page_size count = map Ok pages
    /\ List.concat pages = df
    /\ Forall (fun p => p <> []
                        /\ Z.of_nat (List.length p) <= page_size) pages.
Proof.
  intros Hps.
  set (size := Z.to_nat page_size).
  assert (Hsize : (0 < size)%nat) by (unfold size; lia).
  assert (Eps : page_size = Z.of_nat size) by (unfold size; lia).
  destruct (total_pages_bounds (List.length df) size Hsize)
    as [m [Htotal [Hupper Hlower]]].
  exists (Z.of_nat m),
    (map (fun i => firstn size (skipn (i * size) df)) (seq 0 m)).
  rewrite Eps. split; [exact Htotal |]. split; [lia |].
  split; [| split; [| split]].
  - split.
    + intros E. assert (m = 0%nat) by lia. subst m.
      simpl in Hupper. destruct df; [reflexivity | simpl in Hupper; lia].
    + intros ->. destruct m as [| m']; [reflexivity |].
      specialize (Hlower 0%nat ltac:(lia)). simpl in Hlower. lia.
  - unfold pages_of. rewrite Nat2Z.id, map_map.
    apply map_ext_in. intros i Hi. apply in_seq in Hi.
    apply paginate_chunk; [exact Hsize | apply Hlower; lia].
  - rewrite concat_chunks. apply firstn_all2. exact Hupper.
  - apply Forall_map, Forall_forall. intros i Hi.
    apply in_seq in Hi. specialize (Hlower i ltac:(lia)).
    split.
    + intros E. apply (f_equal (@List.length A)) in E.
      rewrite length_firstn, length_skipn in E. simpl in E. lia.
    + assert (Hlen := firstn_le_length size (skipn (i * size) df)). lia.
Qed.

Lemma paginate_dataframe_pages_witness :
  0 < 2
  /\ exists count pages,
       total_pages (Z.of_nat (List.length [1; 2; 3; 4; 5])) 2 = Ok count
       /\ 0 <= count
       /\ (count = 0 <-> [1; 2; 3; 4; 5] = [])
       /\ pages_of [1; 2; 3; 4; 5] 2 count = map Ok pages
       /\ List.concat pages = [1; 2; 3; 4; 5]
       /\ Forall (fun p => p <> [] /\ Z.of_nat (List.length p) <= 2) pages.
Proof.
  split; [lia |].
  apply (paginate_dataframe_pages [1; 2; 3; 4; 5] 2).
  lia.
Defined.

(** X14: On an empty table the page widget is refused (its range 1 to 0 is
    empty) and the function raises; otherwise page [page] of 1 to
    [total_pages] shows, in order, the rows of the table at the positions
    from [(page - 1) * page_size] on, [page_size] of them or as many as
    are left, and at least one. *)
Theorem paginate_dataframe_rows {A : Type} (df : list A)
    (page_size page count : Z) :
  0 < page_size ->
  total_pages (Z.of_nat (List.length df)) page_size = Ok count ->
  (df = [] ->
   paginate_dataframe df page_size page = Raise StreamlitAPIException)
  /\ (1 <= page <= count ->
      exists shown,
        paginate_dataframe df page_size page = Ok shown
        /\ shown <> []
        /\ Z.of_nat (List.length shown)
           = Z.min page_size
               (Z.of_nat (List.length df) - (page - 1) * page_size)
        /\ forall j : nat,
             Z.of_nat j < page_size ->
             nth_error shown j
             = nth_error df (Z.to_nat ((page - 1) * page_size) + j)).
Proof.
  intros Hps Hcount. split.
  - intros ->. unfold paginate_dataframe, total_pages. simpl.
    destruct (Z.eqb_spec page_size 0) as [E | _]; [lia |].
    cbn [bind]. unfold number_input.
    replace (-1 / page_size) with (-1); [reflexivity |].
    apply Z.div_unique with (r := page_size - 1); lia.
  - intros Hpage.
    set (size := Z.to_nat page_size).
    set (i := Z.to_nat (page - 1)).
    assert (Hsize : (0 < size)%nat) by (unfold size; lia).
    assert (Eps : page_size = Z.of_nat size) by (unfold size; lia).
    assert (Epage : page = Z.of_nat i + 1) by (unfold i; lia).
    destruct (total_pages_bounds (List.length df) size Hsize)
      as [m [Htotal [_ Hlower]]].
    rewrite Eps, Htotal in Hcount. inversion Hcount; subst count.
    assert (Hi : (i * size < List.length df)%nat) by (apply Hlower; lia).
    exists (firstn size (skipn (i * size) df)).
    rewrite Eps, Epage. split; [now apply paginate_chunk |].
    replace ((Z.of_nat i + 1 - 1) * Z.of_nat size)
      with (Z.of_nat (i * size)) by lia.
    split; [| split].
    + intros E. apply (f_equal (@List.length A)) in E.
      rewrite length_firstn, length_skipn in E. simpl in E. lia.
    + rewrite length_firstn, length_skipn.
      destruct (Nat.min_spec size (List.length df - i * size))
        as [[Hn ->] | [Hn ->]]; lia.
    + intros j Hj. rewrite nth_error_firstn, nth_error_skipn, Nat2Z.id.
      destruct (Nat.ltb_spec j size); [reflexivity | lia].
Qed.

Lemma paginate_dataframe_rows_witness :
  0 < 2
  /\ total_pages (Z.of_nat (List.length [1; 2; 3; 4; 5])) 2 = Ok 3
  /\ ([1; 2; 3; 4; 5] = [] ->
      paginate_dataframe [1; 2; 3; 4; 5] 2 3 = Raise StreamlitAPIException)
  /\ (1 <= 3 <= 3 ->
      exists shown,
        paginate_dataframe [1; 2; 3; 4; 5] 2 3 = Ok shown
        /\ shown <> []
        /\ Z.of_nat (List.length shown)
           = Z.min 2 (Z.of_nat (List.length [1; 2; 3; 4; 5]) - (3 - 1) * 2)
        /\ forall j : nat,
             Z.of_nat j < 2 ->
             nth_error shown j
             = nth_error [1; 2; 3; 4; 5] (Z.to_nat ((3 - 1) * 2) + j)).
Proof.
  split; [lia |]. split; [reflexivity |].
  apply (paginate_dataframe_rows [1; 2; 3; 4; 5] 2 3 3); [lia | reflexivity].
Defined.

Example paginate_last_page :
  paginate_dataframe [1; 2; 3; 4; 5] 2 3 = Ok [5].
Proof. reflexivity. Qed.

Example paginate_empty_table :
  paginate_dataframe (@nil Z) 5 1 = Raise StreamlitAPIException.
Proof. reflexivity. Qed.

(** ** Historical analysis *)

Lemma result_count_get_pos (s : string) (bs : list Bet) :
  (0 < count_result s bs)%nat ->
  forall d, result_count_get s d bs = Z.of_nat (count_result s bs).
Proof.
  intros Hn d. unfold result_count_get.
  destruct (count_result s bs); [lia | reflexivity].
Qed.

Lemma result_count_get_none (s : string) (bs : list Bet) :
  count_result s bs = 0%nat -> forall d, result_count_get s d bs = d.
Proof. intros Hn d. unfold result_count_get. now rewrite Hn. Qed.

(** X15: The win/loss ratio never divides by zero: it is the number of wins
    over the number of losses when there is a loss, and the number of wins
    when there is none. *)
Theorem win_loss_ratio_value (bs : list Bet) :
  ((0 < count_result "loss" bs)%nat ->
   win_loss_ratio bs
   = Ok (Z2Qc (Z.of_nat (count_result "win" bs))
         / Z2Qc (Z.of_nat (count_result "loss" bs)))%Qc)
  /\ (count_result "loss" bs = 0%nat ->
      win_loss_ratio bs = Ok (Z2Qc (Z.of_nat (count_result "win" bs)))).
Proof.
  assert (Hwin : result_count_get "win" 0 bs
                 = Z.of_nat (count_result "win" bs)).
  { destruct (count_result "win" bs) as [| n] eqn:E.
    - now rewrite result_count_get_none.
    - rewrite result_count_get_pos by lia. now rewrite E. }
  unfold win_loss_ratio. rewrite Hwin. split.
  - intros Hl. rewrite result_count_get_pos by exact Hl.
    rewrite Z.max_l by lia. apply truediv_ok. lia.
  - intros Hl. rewrite result_count_get_none by exact Hl.
    rewrite truediv_ok by discriminate. f_equal.
    change (Z2Qc (Z.max 1 1)) with 1%Qc.
    unfold Qcdiv. change (/ 1)%Qc with 1%Qc. apply Qcmult_1_r.
Qed.

Lemma py_max_ge_1 (a : Qc) : (1 <= a)%Qc -> py_max a 1 = a.
Proof.
  intros Ha. unfold py_max.
  destruct (Qclt_le_dec a 1) as [Hlt | _]; [| reflexivity].
  exfalso. now apply (Qcle_not_lt _ _ Ha).
Qed.

(** X16: Without a winning wager the return on investment is exactly -100
    percent, as soon as the stakes add up to at least 1. *)
Theorem roi_without_wins (bs : list Bet) :
  count_result "win" bs = 0%nat -> (1 <= total_stake bs)%Qc ->
  roi bs = (- Z2Qc 100)%Qc.
Proof.
  intros Hw Hs.
  assert (Hnil : wins_of bs = []).
  { unfold count_result in Hw. unfold wins_of.
    now apply length_zero_iff_nil. }
  assert (Hne : total_stake bs <> 0%Qc).
  { intros E. rewrite E in Hs. now apply Hs. }
  assert (Hp : total_profit bs = 0%Qc).
  { unfold total_profit. rewrite Hnil.
    change (total_stake []) with 0%Qc.
    unfold Qcdiv. now rewrite !Qcmult_0_l. }
  unfold roi. rewrite Hp, (py_max_ge_1 _ Hs).
  unfold Qcminus. rewrite Qcplus_0_l.
  field. exact Hne.
Qed.

Lemma roi_without_wins_witness :
  count_result "win" (rows (frame_of
     [sample_bet 1 1 1 "Logan" "#e74c3c" 120 (Z2Qc 100) 0 "loss"])) = 0%nat
  /\ (1 <= total_stake (rows (frame_of
     [sample_bet 1 1 1 "Logan" "#e74c3c" 120 (Z2Qc 100) 0 "loss"])))%Qc
  /\ roi (rows (frame_of
     [sample_bet 1 1 1 "Logan" "#e74c3c" 120 (Z2Qc 100) 0 "loss"]))
     = (- Z2Qc 100)%Qc.
Proof.
  split; [reflexivity |]. split; [discriminate |].
  apply (roi_without_wins
           (rows (frame_of
              [sample_bet 1 1 1 "Logan" "#e74c3c" 120 (Z2Qc 100) 0 "loss"]))).
  - reflexivity.
  - discriminate.
Defined.

(** ** Sorting against filtering and mapping *)

Section SortCommutes.
Context {A : Type} (leb : A -> A -> bool).
Hypothesis leb_total : forall a b, leb a b = false -> leb b a = true.
Hypothesis leb_trans :
  forall a b c, leb a b = true -> leb b c = true -> leb a c = true.

Lemma insert_sorted_head (x : A) (l : list A) :
  Forall (fun a => leb x a = true) l -> insert_sorted leb x l = x :: l.
Proof.
  intros Hall. destruct l as [| h t]; [reflexivity |].
  simpl. inversion Hall as [| ? ? Hh _]; subst. now rewrite Hh.
Qed.

Lemma filter_insert_sorted (f : A -> bool) (x : A) (l : list A) :
  StronglySorted (fun a b => leb a b = true) l ->
  filter f (insert_sorted leb x l)
  = if f x then insert_sorted leb x (filter f l) else filter f l.
Proof.
  induction 1 as [| h t Hs IH Hall]; simpl.
  - destruct (f x); reflexivity.
  - destruct (leb x h) eqn:E.
    + cbn [filter]. destruct (f x) eqn:Ex; [| reflexivity].
      destruct (f h) eqn:Eh.
      * simpl. now rewrite E.
      * symmetry. apply insert_sorted_head.
        apply Forall_forall. intros a Ha. apply filter_In in Ha.
        rewrite Forall_forall in Hall.
        apply (leb_trans x h a E). apply Hall. tauto.
    + cbn [filter]. rewrite IH.
      destruct (f h) eqn:Eh, (f x) eqn:Ex; try reflexivity.
      simpl. now rewrite E.
Qed.

Lemma filter_stable_sort (f : A -> bool) (l : list A) :
  filter f (stable_sort leb l) = stable_sort leb (filter f l).
Proof.
  induction l as [| x t IH]; [reflexivity |].
  cbn [stable_sort fold_right].
  change (fold_right (insert_sorted leb) [] t) with (stable_sort leb t).
  rewrite filter_insert_sorted
    by (apply stable_sort_sorted; [exact leb_total | exact leb_trans]).
  cbn [filter]. destruct (f x); [| exact IH].
  rewrite IH. reflexivity.
Qed.
End SortCommutes.

Lemma map_stable_sort {A : Type} (leb : A -> A -> bool) (g : A -> A)
    (l : list A) :
  (forall a b, leb (g a) (g b) = leb a b) ->
  map g (stable_sort leb l) = stable_sort leb (map g l).
Proof.
  intros Hg.
  assert (Hins : forall x l', map g (insert_sorted leb x l')
                              = insert_sorted leb (g x) (map g l')).
  { intros x l'. induction l' as [| h t IH]; [reflexivity |].
    simpl. rewrite Hg. destruct (leb x h); simpl; [reflexivity |].
    now rewrite IH. }
  induction l as [| x t IH]; [reflexivity |].
  cbn [stable_sort fold_right map].
  change (fold_right (insert_sorted leb) [] t) with (stable_sort leb t).
  change (fold_right (insert_sorted leb) [] (map g t))
    with (stable_sort leb (map g t)).
  now rewrite Hins, IH.
Qed.

(** ** Listing the bets *)

Lemma In_bets_join_players (db : Database) (r : Bet) :
  In r (bets_join_players db) <->
  exists b p,
    In b (bets db) /\ In p (players db)
    /\ pl_id p = sb_player_id b /\ r = join_row b p.
Proof.
  unfold bets_join_players. rewrite in_flat_map. split.
  - intros [b [Hb Hr]]. apply in_map_iff in Hr.
    destruct Hr as [p [<- Hp]]. apply filter_In in Hp.
    destruct Hp as [Hp E]. apply Z.eqb_eq in E.
    exists b, p. auto.
  - intros [b [p [Hb [Hp [E ->]]]]]. exists b. split; [exact Hb |].
    apply in_map. apply filter_In. split; [exact Hp | now apply Z.eqb_eq].
Qed.

Lemma bet_order_total (a b : Bet) :
  key_leb (bet_order a) (bet_order b) = false ->
  key_leb (bet_order b) (bet_order a) = true.
Proof. apply key_leb_total. Qed.

Lemma bet_order_trans (a b c : Bet) :
  key_leb (bet_order a) (bet_order b) = true ->
  key_leb (bet_order b) (bet_order c) = true ->
  key_leb (bet_order a) (bet_order c) = true.
Proof. apply key_leb_trans. Qed.

Lemma In_get_bets (db : Database) (wk pid : option Z)
    (bet_type start_date end_date : option string) (r : Bet) :
  In r (get_bets db wk pid bet_type start_date end_date) <->
  In r (bets_join_players db)
  /\ bet_filter wk pid bet_type start_date end_date r = true.
Proof.
  unfold get_bets. rewrite <- filter_In. split.
  - apply Permutation_in, Permutation_sym, stable_sort_perm.
  - apply Permutation_in, stable_sort_perm.
Qed.

(** X17: [get_bets] lists exactly the bets whose player exists and that pass
    every filter given, each with its player's name and colour, ordered by
    week, then player name, then id. *)
Theorem get_bets_rows (db : Database) (wk pid : option Z)
    (bet_type start_date end_date : option string) :
  (forall r,
     In r (get_bets db wk pid bet_type start_date end_date) <->
     exists b p,
       In b (bets db) /\ In p (players db)
       /\ pl_id p = sb_player_id b /\ r = join_row b p
       /\ (forall w, wk = Some w -> sb_week b = w)
       /\ (forall i, pid = Some i -> sb_player_id b = i)
       /\ (bet_type = Some "single"%string -> sb_is_triple b = 0)
       /\ (bet_type = Some "triple"%string -> sb_is_triple b = 1)
       /\ (forall d, start_date = Some d ->
             String.leb d (sb_created_at b) = true)
       /\ (forall d, end_date = Some d ->
             String.leb (sb_created_at b) d = true))
  /\ StronglySorted
       (fun a b => key_leb (bet_order a) (bet_order b) = true)
       (get_bets db wk pid bet_type start_date end_date).
Proof.
  split.
  - intros r. rewrite In_get_bets, In_bets_join_players.
    assert (Hf : forall b p,
              bet_filter wk pid bet_type start_date end_date (join_row b p)
              = true <->
              (forall w, wk = Some w -> sb_week b = w)
              /\ (forall i, pid = Some i -> sb_player_id b = i)
              /\ (bet_type = Some "single"%string -> sb_is_triple b = 0)
              /\ (bet_type = Some "triple"%string -> sb_is_triple b = 1)
              /\ (forall d, start_date = Some d ->
                    String.leb d (sb_created_at b) = true)
              /\ (forall d, end_date = Some d ->
                    String.leb (sb_created_at b) d = true)).
    { intros b p. unfold bet_filter. simpl.
      rewrite !andb_true_iff.
      assert (H1 : match wk with Some w => sb_week b =? w | None => true end
                   = true <-> forall w, wk = Some w -> sb_week b = w).
      { destruct wk as [w |].
        - rewrite Z.eqb_eq. split; [intros E w' [= <-]; exact E | auto].
        - split; [discriminate | reflexivity]. }
      assert (H2 : match pid with
                   | Some i => sb_player_id b =? i | None => true end
                   = true <-> forall i, pid = Some i -> sb_player_id b = i).
      { destruct pid as [i |].
        - rewrite Z.eqb_eq. split; [intros E i' [= <-]; exact E | auto].
        - split; [discriminate | reflexivity]. }
      assert (H3 : match bet_type with
                   | Some t =>
                       if (t =? "single")%string then sb_is_triple b =? 0
                       else if (t =? "triple")%string
                            then sb_is_triple b =? 1 else true
                   | None => true
                   end = true <->
                   (bet_type = Some "single"%string -> sb_is_triple b = 0)
                   /\ (bet_type = Some "triple"%string ->
                       sb_is_triple b = 1)).
      { destruct bet_type as [t |].
        - destruct (String.eqb_spec t "single") as [-> | Hs].
          + rewrite Z.eqb_eq. split; [intros E; split; [auto | discriminate]
                                     | intros [E _]; auto].
          + destruct (String.eqb_spec t "triple") as [-> | Ht].
            * rewrite Z.eqb_eq.
              split; [intros E; split; [discriminate | auto]
                     | intros [_ E]; auto].
            * split; [intros _; split; intros [= E]; congruence
                     | reflexivity].
        - split; [intros _; split; discriminate | reflexivity]. }
      assert (H4 : match start_date with
                   | Some d => String.leb d (sb_created_at b) | None => true
                   end = true <->
                   forall d, start_date = Some d ->
                             String.leb d (sb_created_at b) = true).
      { destruct start_date as [d |].
        - split; [intros E d' [= <-]; exact E | auto].
        - split; [discriminate | reflexivity]. }
      assert (H5 : match end_date with
                   | Some d => String.leb (sb_created_at b) d | None => true
                   end = true <->
                   forall d, end_date = Some d ->
                             String.leb (sb_created_at b) d = true).
      { destruct end_date as [d |].
        - split; [intros E d' [= <-]; exact E | auto].
        - split; [discriminate | reflexivity]. }
      rewrite H1, H2, H3, H4, H5. tauto. }
    split.
    + intros [[b [p [Hb [Hp [E ->]]]]] Hpass].
      exists b, p. apply Hf in Hpass. tauto.
    + intros [b [p [Hb [Hp [E [-> Hpass]]]]]]. split.
      * exists b, p. auto.
      * apply Hf. exact Hpass.
  - unfold get_bets. apply stable_sort_sorted.
    + intros a b. apply bet_order_total.
    + intros a b c. apply bet_order_trans.
Qed.

(** X18: A bet type other than "single" and "triple" (the "Parlay" and "Teaser"
    choices of the grading tab) filters nothing: the listing is the one
    without a bet type. *)
Theorem get_bets_other_type (db : Database) (wk pid : option Z)
    (t : string) (start_date end_date : option string) :
  t <> "single"%string -> t <> "triple"%string ->
  get_bets db wk pid (Some t) start_date end_date
  = get_bets db wk pid None start_date end_date.
Proof.
  intros Hs Ht. unfold get_bets. f_equal. apply filter_ext. intros r.
  unfold bet_filter.
  destruct (String.eqb_spec t "single"); [contradiction |].
  destruct (String.eqb_spec t "triple"); [contradiction |].
  reflexivity.
Qed.

Lemma get_bets_other_type_witness :
  "parlay"%string <> "single"%string /\ "parlay"%string <> "triple"%string
  /\ get_bets sample_db None None (Some "parlay"%string) None None
     = get_bets sample_db None None None None None
  /\ map id (get_bets sample_db None None (Some "parlay"%string) None None)
     = [2; 1; 3]
  /\ map id (get_bets sample_db None None (Some "single"%string) None None)
     = [1].
Proof.
  split; [discriminate |]. split; [discriminate |].
  split; [| split; reflexivity].
  apply (get_bets_other_type sample_db None None "parlay" None None);
    discriminate.
Defined.

Lemma bets_join_players_joined (db : Database) :
  NoDup (map pl_id (players db)) -> joined (bets_join_players db).
Proof.
  intros Hnd a b Ha Hb E.
  apply In_bets_join_players in Ha, Hb.
  destruct Ha as [b1 [p1 [_ [Hp1 [E1 ->]]]]].
  destruct Hb as [b2 [p2 [_ [Hp2 [E2 ->]]]]].
  simpl in *.
  assert (Ep : p1 = p2).
  { assert (Hid : pl_id p1 = pl_id p2) by congruence.
    clear - Hnd Hp1 Hp2 Hid.
    induction (players db) as [| q t IH]; [contradiction |].
    simpl in Hnd. inversion Hnd as [| ? ? Hq Ht]; subst.
    destruct Hp1 as [-> | Hp1], Hp2 as [-> | Hp2].
    - reflexivity.
    - exfalso. apply Hq. rewrite Hid. now apply in_map.
    - exfalso. apply Hq. rewrite <- Hid. now apply in_map.
    - now apply IH. }
  subst. auto.
Qed.

(** X19: The rows [get_bets] returns are what the aggregator theorems assume:
    with the primary key on [players.id], the name and colour of a row are
    determined by its player id, and the rows carry non-zero odds if the
    stored bets do. *)
Theorem get_bets_joined (db : Database) (wk pid : option Z)
    (bet_type start_date end_date : option string) :
  NoDup (map pl_id (players db)) ->
  joined (get_bets db wk pid bet_type start_date end_date)
  /\ (Forall (fun b => sb_american_odds b <> 0) (bets db) ->
      valid_odds (get_bets db wk pid bet_type start_date end_date)).
Proof.
  intros Hnd. split.
  - intros a b Ha Hb. apply In_get_bets in Ha, Hb.
    apply (bets_join_players_joined db Hnd); tauto.
  - intros Hodds. apply Forall_forall. intros r Hr.
    apply In_get_bets in Hr. destruct Hr as [Hr _].
    apply In_bets_join_players in Hr.
    destruct Hr as [b [p [Hb [_ [_ ->]]]]]. simpl.
    rewrite Forall_forall in Hodds. now apply Hodds.
Qed.

Lemma sample_db_player_ids : NoDup (map pl_id (players sample_db)).
Proof.
  simpl. repeat constructor; simpl; intuition discriminate.
Qed.

Lemma get_bets_joined_witness :
  NoDup (map pl_id (players sample_db))
  /\ joined (get_bets sample_db (Some 1) None None None None)
  /\ (Forall (fun b => sb_american_odds b <> 0) (bets sample_db) ->
      valid_odds (get_bets sample_db (Some 1) None None None None)).
Proof.
  split; [exact sample_db_player_ids |].
  apply (get_bets_joined sample_db (Some 1) None None None None).
  exact sample_db_player_ids.
Defined.

Example sample_db_listing :
  map (fun r => (week r, player_name r, id r))
      (get_bets sample_db None None None None None)
  = [(1, "Caroline", 2); (1, "Logan", 1); (2, "Logan", 3)]%string.
Proof. reflexivity. Qed.

(** ** Deleting *)

Lemma flat_map_filter {A B : Type} (f : A -> list B) (g : A -> bool)
    (l : list A) :
  flat_map f (filter g l)
  = flat_map (fun a => if g a then f a else []) l.
Proof.
  induction l as [| a t IH]; simpl; [reflexivity |].
  destruct (g a); simpl; now rewrite IH.
Qed.

Lemma filter_flat_map {A B : Type} (f : A -> list B) (h : B -> bool)
    (l : list A) :
  filter h (flat_map f l) = flat_map (fun a => filter h (f a)) l.
Proof.
  induction l as [| a t IH]; simpl; [reflexivity |].
  now rewrite filter_app, IH.
Qed.

Lemma delete_player_join (db : Database) (p : Z) :
  bets_join_players (delete_player db p)
  = filter (fun r => negb (player_id r =? p)) (bets_join_players db).
Proof.
  unfold bets_join_players, delete_player. simpl.
  rewrite flat_map_filter, filter_flat_map.
  apply flat_map_ext. intros b.
  rewrite filter_map_swap. simpl.
  destruct (Z.eqb_spec (sb_player_id b) p) as [E | E]; simpl.
  - now rewrite filter_false.
  - rewrite filter_true. f_equal.
    rewrite filter_andb. apply filter_ext. intros q.
    destruct (Z.eqb_spec (pl_id q) p) as [Eq | Eq]; simpl; [| reflexivity].
    symmetry. apply Z.eqb_neq. congruence.
Qed.

Lemma get_bets_filter_join (db db' : Database) (f : Bet -> bool)
    (wk pid : option Z) (bet_type start_date end_date : option string) :
  bets_join_players db' = filter f (bets_join_players db) ->
  get_bets db' wk pid bet_type start_date end_date
  = filter f (get_bets db wk pid bet_type start_date end_date).
Proof.
  intros E. unfold get_bets. rewrite E.
  rewrite (filter_stable_sort _ bet_order_total bet_order_trans).
  f_equal. apply filter_comm.
Qed.

(** X23: After [delete_player] the player and the player's bets are gone from
    the tables, and every listing of the bets is the earlier listing
    without that player's rows, the others in the same order. *)
Theorem delete_player_listing (db : Database) (p : Z) (wk pid : option Z)
    (bet_type start_date end_date : option string) :
  (forall q, In q (players (delete_player db p)) <->
             In q (players db) /\ pl_id q <> p)
  /\ (forall b, In b (bets (delete_player db p)) <->
                In b (bets db) /\ sb_player_id b <> p)
  /\ get_bets (delete_player db p) wk pid bet_type start_date end_date
     = filter (fun r => negb (player_id r =? p))
         (get_bets db wk pid bet_type start_date end_date).
Proof.
  split; [| split].
  - intros q. unfold delete_player. simpl. rewrite filter_In.
    rewrite negb_true_iff, Z.eqb_neq. tauto.
  - intros b. unfold delete_player. simpl. rewrite filter_In.
    rewrite negb_true_iff, Z.eqb_neq. tauto.
  - apply get_bets_filter_join, delete_player_join.
Qed.

Lemma reset_week_join (db : Database) (w : Z) :
  bets_join_players (reset_week db w)
  = filter (fun r => negb (week r =? w)) (bets_join_players db).
Proof.
  unfold bets_join_players, reset_week, with_bets. simpl.
  rewrite flat_map_filter, filter_flat_map.
  apply flat_map_ext. intros b.
  rewrite filter_map_swap. simpl.
  destruct (sb_week b =? w); simpl.
  - now rewrite filter_false.
  - now rewrite filter_true.
Qed.

(** X24: After [reset_week] no bet of that week is left, the players and the
    bets of the other weeks are untouched, and every listing is the
    earlier listing without the rows of that week. *)
Theorem reset_week_listing (db : Database) (w : Z) (wk pid : option Z)
    (bet_type start_date end_date : option string) :
  players (reset_week db w) = players db
  /\ (forall b, In b (bets (reset_week db w)) <->
                In b (bets db) /\ sb_week b <> w)
  /\ get_bets (reset_week db w) wk pid bet_type start_date end_date
     = filter (fun r => negb (week r =? w))
         (get_bets db wk pid bet_type start_date end_date)
  /\ get_bets (reset_week db w) (Some w) pid bet_type start_date end_date
     = [].
Proof.
  assert (Hl : forall wk',
            get_bets (reset_week db w) wk' pid bet_type start_date end_date
            = filter (fun r => negb (week r =? w))
                (get_bets db wk' pid bet_type start_date end_date)).
  { intros wk'. apply get_bets_filter_join, reset_week_join. }
  split; [reflexivity |]. split; [| split].
  - intros b. unfold reset_week, with_bets. simpl. rewrite filter_In.
    rewrite negb_true_iff, Z.eqb_neq. tauto.
  - apply Hl.
  - rewrite Hl. apply filter_none. intros r Hr.
    apply In_get_bets in Hr. destruct Hr as [_ Hpass].
    unfold bet_filter in Hpass. rewrite !andb_true_iff in Hpass.
    destruct Hpass as [[[[Hw _] _] _] _]. now rewrite Hw.
Qed.

(** ** Clearing the results *)

Lemma clear_all_results_join (db : Database) (now : string) :
  bets_join_players (clear_all_results db now)
  = map (pending_row now) (bets_join_players db).
Proof.
  unfold bets_join_players, clear_all_results, with_bets. simpl.
  induction (bets db) as [| b t IH]; simpl; [reflexivity |].
  rewrite map_app, IH. f_equal.
  rewrite map_map. reflexivity.
Qed.

Lemma clear_all_results_get_bets (db : Database) (now : string)
    (wk pid : option Z) (bet_type start_date end_date : option string) :
  get_bets (clear_all_results db now) wk pid bet_type start_date end_date
  = map (pending_row now)
      (get_bets db wk pid bet_type start_date end_date).
Proof.
  unfold get_bets. rewrite clear_all_results_join.
  rewrite filter_map_swap.
  rewrite (map_stable_sort _ (pending_row now)) by reflexivity.
  reflexivity.
Qed.

(** X25: After [clear_all_results] every listing holds the same bets as before,
    all pending, and the season standings computed from it show no win,
    no loss and 0.0 points for everybody. *)
Theorem clear_all_results_standings (sort : list Standing -> list Standing)
    (db : Database) (now : string) (wk pid : option Z)
    (bet_type start_date end_date : option string) :
  sort_values_desc sort ->
  get_bets (clear_all_results db now) wk pid bet_type start_date end_date
  = map (pending_row now) (get_bets db wk pid bet_type start_date end_date)
  /\ exists standings,
       snd (season_standings sort
              (frame_of (get_bets (clear_all_results db now) wk pid bet_type
                           start_date end_date)))
       = Ok standings
       /\ Forall (fun r => sr_season_points r = 0%Qc
                           /\ sr_wins r = 0%nat /\ sr_losses r = 0%nat)
            standings.
Proof.
  intros Hs. split; [apply clear_all_results_get_bets |].
  destruct (unsettled_scores_zero_aux sort
              (frame_of (get_bets (clear_all_results db now) wk pid bet_type
                           start_date end_date)) Hs)
    as [_ [standings [_ [_ [Hrun [_ [_ [Hzero _]]]]]]]].
  - simpl. rewrite clear_all_results_get_bets.
    apply Forall_map, Forall_forall. intros r _. simpl.
    split; discriminate.
  - exists standings. split; assumption.
Qed.

Lemma clear_all_results_standings_witness :
  sort_values_desc sort_desc_stable
  /\ exists standings,
       snd (season_standings sort_desc_stable
              (frame_of (get_bets (clear_all_results sample_db "now")
                           None None None None None)))
       = Ok standings
       /\ Forall (fun r => sr_season_points r = 0%Qc
                           /\ sr_wins r = 0%nat /\ sr_losses r = 0%nat)
            standings.
Proof.
  split; [exact sort_desc_stable_ok |].
  destruct (clear_all_results_standings sort_desc_stable sample_db "now"
              None None None None None sort_desc_stable_ok) as [_ H].
  exact H.
Defined.

(** ** Inserting a bet *)

Lemma fold_max_ge (ids : list Z) (x : Z) :
  In x ids -> x <= fold_right Z.max 0 ids.
Proof.
  induction ids as [| h t IH]; simpl; [tauto |].
  intros [-> | Hx]; [lia |]. specialize (IH Hx). lia.
Qed.

Lemma next_rowid_fresh (seq : Z) (ids : list Z) (x : Z) :
  In x ids -> x < next_rowid seq ids.
Proof.
  intros Hx. unfold next_rowid. apply fold_max_ge in Hx. lia.
Qed.

Lemma filter_unique_player (ps : list Player) (p : Player) :
  NoDup (map pl_id ps) -> In p ps ->
  filter (fun q => pl_id q =? pl_id p) ps = [p].
Proof.
  induction ps as [| q t IH]; simpl; [tauto |].
  intros Hnd Hp. inversion Hnd as [| ? ? Hq Ht]; subst.
  destruct Hp as [-> | Hp].
  - rewrite Z.eqb_refl. f_equal. apply filter_none.
    intros x Hx. apply Z.eqb_neq. intros E. apply Hq.
    rewrite <- E. now apply in_map.
  - destruct (Z.eqb_spec (pl_id q) (pl_id p)) as [E | _].
    + exfalso. apply Hq. rewrite E. now apply in_map.
    + now apply IH.
Qed.

Lemma insert_bet_join (db : Database) (now : string) (wk pid : Z)
    (desc : string) (odds : Z) (stk : Qc) (triple : bool) (res : string) :
  bets_join_players (insert_bet db now wk pid desc odds stk triple res)
  = bets_join_players db
    ++ map (join_row
              {| sb_id := next_rowid (bets_seq db) (map sb_id (bets db));
                 sb_week := wk; sb_player_id := pid;
                 sb_description := desc; sb_american_odds := odds;
                 sb_stake := stk; sb_is_triple := int_of_bool triple;
                 sb_result := res; sb_created_at := now;
                 sb_updated_at := now |})
         (filter (fun p => pl_id p =? pid) (players db)).
Proof.
  unfold bets_join_players, insert_bet, store_bet. simpl.
  rewrite flat_map_app. simpl. now rewrite app_nil_r.
Qed.

Lemma bet_filter_week_player (w i : Z) (r : Bet) :
  bet_filter (Some w) (Some i) None None None r
  = (week r =? w) && (player_id r =? i).
Proof. unfold bet_filter. now rewrite !andb_true_r. Qed.

Lemma insert_bet_get_bets (db : Database) (now : string) (wk pid : Z)
    (desc : string) (odds : Z) (stk : Qc) (triple : bool) (res : string)
    (p : Player) :
  NoDup (map pl_id (players db)) -> In p (players db) -> pl_id p = pid ->
  Permutation
    (join_row
       {| sb_id := next_rowid (bets_seq db) (map sb_id (bets db));
          sb_week := wk; sb_player_id := pid;
          sb_description := desc; sb_american_odds := odds;
          sb_stake := stk; sb_is_triple := int_of_bool triple;
          sb_result := res; sb_created_at := now; sb_updated_at := now |} p
     :: get_bets db (Some wk) (Some pid) None None None)
    (get_bets (insert_bet db now wk pid desc odds stk triple res)
       (Some wk) (Some pid) None None None).
Proof.
  intros Hnd Hp Epid. unfold get_bets.
  eapply perm_trans; [| apply stable_sort_perm].
  rewrite insert_bet_join, filter_app. subst pid.
  rewrite (filter_unique_player _ p Hnd Hp).
  cbn [map filter]. rewrite bet_filter_week_player.
  cbn [week player_id join_row sb_week sb_player_id].
  rewrite !Z.eqb_refl. cbn [andb].
  eapply perm_trans; [| apply Permutation_cons_append].
  apply perm_skip. apply Permutation_sym, stable_sort_perm.
Qed.

(** X20: A bet inserted for an existing player shows up once in the listing of
    that player and week, next to the rows that were there, with the
    values given, the flag stored as 0 or 1 and an id above every id in
    the table. *)
Theorem insert_bet_listing (db : Database) (now : string) (wk pid : Z)
    (desc : string) (odds : Z) (stk : Qc) (triple : bool) (res : string)
    (p : Player) :
  NoDup (map pl_id (players db)) -> In p (players db) -> pl_id p = pid ->
  exists new,
    Permutation
      (new :: get_bets db (Some wk) (Some pid) None None None)
      (get_bets (insert_bet db now wk pid desc odds stk triple res)
         (Some wk) (Some pid) None None None)
    /\ week new = wk /\ player_id new = pid /\ description new = desc
    /\ american_odds new = odds /\ stake new = stk
    /\ is_triple new = (if triple then 1 else 0)
    /\ result new = res /\ player_name new = pl_name p
    /\ (forall b, In b (bets db) -> sb_id b < id new).
Proof.
  intros Hnd Hp Epid. eexists. split.
  - now apply (insert_bet_get_bets db now wk pid desc odds stk triple res p).
  - simpl. repeat split.
    intros b Hb. apply next_rowid_fresh. now apply in_map.
Qed.

Lemma insert_bet_listing_witness :
  NoDup (map pl_id (players sample_db))
  /\ exists new,
       Permutation
         (new :: get_bets sample_db (Some 2) (Some 1) None None None)
         (get_bets (insert_bet sample_db "now" 2 1 "Jets ML" 280 (Z2Qc 100)
                      false "pending")
            (Some 2) (Some 1) None None None)
       /\ american_odds new = 280
       /\ (forall b, In b (bets sample_db) -> sb_id b < id new).
Proof.
  split; [exact sample_db_player_ids |].
  destruct (insert_bet_listing sample_db "now" 2 1 "Jets ML" 280 (Z2Qc 100)
              false "pending"
              {| pl_id := 1; pl_name := "Logan"; pl_color := "#e74c3c" |}
              sample_db_player_ids (or_introl eq_refl) eq_refl)
    as [new [Hperm [_ [_ [_ [Hodds [_ [_ [_ [_ Hfresh]]]]]]]]]].
  exists new. split; [exact Hperm |]. split; [exact Hodds | exact Hfresh].
Defined.

(** ** Players *)

Lemma has_duplicate_NoDup (names : list string) :
  has_duplicate names = false <-> NoDup names.
Proof.
  induction names as [| n t IH]; simpl.
  - split; [constructor | reflexivity].
  - rewrite orb_false_iff, IH. split.
    + intros [Hn Ht]. constructor; [| exact Ht].
      intros Hin. assert (existsb (String.eqb n) t = true); [| congruence].
      apply existsb_exists. exists n. split; [exact Hin |].
      apply String.eqb_refl.
    + intros Hnd. inversion Hnd as [| ? ? Hn Ht]; subst. split; [| exact Ht].
      destruct (existsb (String.eqb n) t) eqn:E; [| reflexivity].
      apply existsb_exists in E. destruct E as [x [Hx E]].
      apply String.eqb_eq in E. subst. contradiction.
Qed.

Lemma name_taken (ps : list Player) (name : string) :
  existsb (fun p => (pl_name p =? name)%string) ps = true
  <-> In name (map pl_name ps).
Proof.
  rewrite existsb_exists, in_map_iff.
  split; intros [p Hp]; exists p.
  - destruct Hp as [Hp E]. apply String.eqb_eq in E. auto.
  - destruct Hp as [E Hp]. split; [exact Hp | now apply String.eqb_eq].
Qed.

(** X28: [add_player] refuses a name that is taken, returning [False] and
    leaving the database as it was; otherwise it appends the player under
    an id above every id in the table, so that ids and names stay
    unique. *)
Theorem add_player_unique (db : Database) (name color : string) :
  db_keys db ->
  (snd (add_player db name color) = false
   <-> In name (map pl_name (players db)))
  /\ (snd (add_player db name color) = false ->
      fst (add_player db name color) = db)
  /\ (snd (add_player db name color) = true ->
      exists new_id,
        players (fst (add_player db name color))
        = players db
          ++ [{| pl_id := new_id; pl_name := name; pl_color := color |}]
        /\ (forall p, In p (players db) -> pl_id p < new_id)
        /\ bets (fst (add_player db name color)) = bets db)
  /\ db_keys (fst (add_player db name color)).
Proof.
  intros [Hids [Hnames Hbets]]. unfold add_player.
  destruct (existsb (fun p => (pl_name p =? name)%string) (players db))
    eqn:E; simpl.
  - apply name_taken in E.
    split; [tauto |]. split; [reflexivity |].
    split; [discriminate |]. repeat split; assumption.
  - assert (Hfree : ~ In name (map pl_name (players db))).
    { intros Hin. apply name_taken in Hin. congruence. }
    assert (Hfresh : forall p, In p (players db) ->
              pl_id p < next_rowid (players_seq db)
                          (map pl_id (players db))).
    { intros p Hp. apply next_rowid_fresh. now apply in_map. }
    split; [split; [discriminate | tauto] |].
    split; [discriminate |].
    split.
    + intros _. eexists. split; [reflexivity |]. split; [exact Hfresh |].
      reflexivity.
    + unfold db_keys. simpl. rewrite !map_app. simpl.
      split; [| split; [| exact Hbets]].
      * apply NoDup_app.
        -- exact Hids.
        -- repeat constructor. simpl. tauto.
        -- intros x Hx [<- | []]. apply in_map_iff in Hx.
           destruct Hx as [p [Ex Hp]]. specialize (Hfresh p Hp). lia.
      * apply NoDup_app.
        -- exact Hnames.
        -- repeat constructor. simpl. tauto.
        -- intros x Hx [<- | []]. contradiction.
Qed.

Lemma sample_db_keys : db_keys sample_db.
Proof.
  unfold db_keys. simpl.
  repeat split; repeat constructor; simpl; intuition discriminate.
Qed.

Lemma add_player_unique_witness :
  db_keys sample_db
  /\ (snd (add_player sample_db "Logan" "#000000") = false
      <-> In "Logan"%string (map pl_name (players sample_db)))
  /\ fst (add_player sample_db "Logan" "#000000") = sample_db
  /\ db_keys (fst (add_player sample_db "James" "#2ecc71")).
Proof.
  split; [exact sample_db_keys |].
  destruct (add_player_unique sample_db "Logan" "#000000" sample_db_keys)
    as [Hiff [Hsame _]].
  destruct (add_player_unique sample_db "James" "#2ecc71" sample_db_keys)
    as [_ [_ [_ Hkeys]]].
  split; [exact Hiff |]. split; [| exact Hkeys].
  apply Hsame. reflexivity.
Defined.

Lemma NoDup_map_eq {A B : Type} (f : A -> B) (l : list A) (x y : A) :
  NoDup (map f l) -> In x l -> In y l -> f x = f y -> x = y.
Proof.
  induction l as [| a t IH]; simpl; [tauto |].
  intros Hnd Hx Hy E. inversion Hnd as [| ? ? Ha Ht]; subst.
  destruct Hx as [-> | Hx], Hy as [-> | Hy].
  - reflexivity.
  - exfalso. apply Ha. rewrite E. now apply in_map.
  - exfalso. apply Ha. rewrite <- E. now apply in_map.
  - now apply IH.
Qed.

Lemma update_player_names (db : Database) (pid : Z) (name color : string) :
  db_keys db ->
  NoDup (map pl_name
           (map (fun p =>
                   if pl_id p =? pid then
                     {| pl_id := pl_id p; pl_name := name;
                        pl_color := color |}
                   else p)
              (players db)))
  <-> ~ ((exists p, In p (players db) /\ pl_id p = pid)
         /\ exists q, In q (players db) /\ pl_id q <> pid
                      /\ pl_name q = name).
Proof.
  intros [Hids [Hnames _]]. rewrite map_map.
  set (g := fun p => pl_name (if pl_id p =? pid
                              then {| pl_id := pl_id p; pl_name := name;
                                      pl_color := color |}
                              else p)).
  assert (Hg1 : forall p, pl_id p = pid -> g p = name).
  { intros p E. unfold g. now rewrite (proj2 (Z.eqb_eq _ _) E). }
  assert (Hg2 : forall p, pl_id p <> pid -> g p = pl_name p).
  { intros p E. unfold g. now rewrite (proj2 (Z.eqb_neq _ _) E). }
  split.
  - intros Hnd [[p [Hp Ep]] [q [Hq [Eq En]]]].
    assert (p = q).
    { apply (NoDup_map_eq g (players db)); auto.
      rewrite (Hg1 p Ep), (Hg2 q Eq). now symmetry. }
    subst. contradiction.
  - intros Hno. apply NoDup_map_in.
    + intros x y Hx Hy E.
      destruct (Z.eq_dec (pl_id x) pid) as [Ex | Ex],
               (Z.eq_dec (pl_id y) pid) as [Ey | Ey].
      * apply (NoDup_map_eq pl_id (players db)); auto. congruence.
      * exfalso. apply Hno. split; [now exists x |].
        exists y. rewrite (Hg1 x Ex), (Hg2 y Ey) in E. auto.
      * exfalso. apply Hno. split; [now exists y |].
        exists x. rewrite (Hg2 x Ex), (Hg1 y Ey) in E. auto.
      * rewrite (Hg2 x Ex), (Hg2 y Ey) in E.
        now apply (NoDup_map_eq pl_name (players db)).
    + now apply NoDup_map_inv in Hids.
Qed.

(** X29: [update_player] fails with an [IntegrityError] exactly when the player
    exists and the new name belongs to another player; otherwise it
    rewrites the name and colour of that player only and keeps ids and
    names unique. *)
Theorem update_player_unique (db : Database) (pid : Z)
    (name color : string) :
  db_keys db ->
  (update_player db pid name color = inl IntegrityError
   <-> (exists p, In p (players db) /\ pl_id p = pid)
       /\ exists q, In q (players db) /\ pl_id q <> pid
                    /\ pl_name q = name)
  /\ (forall db', update_player db pid name color = inr db' ->
        db_keys db'
        /\ bets db' = bets db
        /\ map pl_id (players db') = map pl_id (players db)
        /\ Forall2 (fun old new =>
                      if pl_id old =? pid
                      then pl_name new = name /\ pl_color new = color
                      else new = old)
             (players db) (players db')).
Proof.
  intros Hkeys. assert (Hnames := update_player_names db pid name color Hkeys).
  destruct Hkeys as [Hids [Hn Hbets]].
  unfold update_player.
  set (updated := map (fun p =>
                         if pl_id p =? pid then
                           {| pl_id := pl_id p; pl_name := name;
                              pl_color := color |}
                         else p) (players db)) in *.
  destruct (has_duplicate (map pl_name updated)) eqn:E.
  - split.
    + split; [intros _ | reflexivity].
      destruct (existsb (fun p => pl_id p =? pid) (players db)) eqn:E1.
      * destruct (existsb (fun q => negb (pl_id q =? pid)
                                    && (pl_name q =? name)%string)
                    (players db)) eqn:E2.
        -- apply existsb_exists in E1, E2.
           destruct E1 as [p [Hp Ep]], E2 as [q [Hq Eq]].
           apply Z.eqb_eq in Ep. apply andb_true_iff in Eq.
           destruct Eq as [Eq1 Eq2]. apply negb_true_iff, Z.eqb_neq in Eq1.
           apply String.eqb_eq in Eq2.
           split; [now exists p | now exists q].
        -- exfalso.
           assert (H : NoDup (map pl_name updated)).
           { apply Hnames. intros [_ [q [Hq [Eq1 Eq2]]]].
             assert (Hex : existsb (fun q => negb (pl_id q =? pid)
                                             && (pl_name q =? name)%string)
                             (players db) = true).
             { apply existsb_exists. exists q. split; [exact Hq |].
               apply andb_true_iff. split.
               - now apply negb_true_iff, Z.eqb_neq.
               - now apply String.eqb_eq. }
             congruence. }
           apply has_duplicate_NoDup in H. congruence.
      * exfalso.
        assert (H : NoDup (map pl_name updated)).
        { apply Hnames. intros [[p [Hp Ep]] _].
          assert (Hex : existsb (fun p => pl_id p =? pid) (players db)
                        = true).
          { apply existsb_exists. exists p. split; [exact Hp |].
            now apply Z.eqb_eq. }
          congruence. }
        apply has_duplicate_NoDup in H. congruence.
    + intros db' Hdb. discriminate Hdb.
  - apply has_duplicate_NoDup in E. split.
    + split; [discriminate |]. intros H. apply Hnames in E. contradiction.
    + intros db' [= <-]. simpl.
      assert (Hsame : map pl_id updated = map pl_id (players db)).
      { unfold updated. rewrite map_map. apply map_ext. intros p.
        destruct (pl_id p =? pid); reflexivity. }
      split; [| split; [reflexivity | split; [exact Hsame |]]].
      * unfold db_keys. simpl. rewrite Hsame. auto.
      * unfold updated. clear.
        induction (players db) as [| p t IH]; simpl; constructor; [| exact IH].
        destruct (pl_id p =? pid); simpl; auto.
Qed.

Lemma update_player_unique_witness :
  db_keys sample_db
  /\ (update_player sample_db 2 "Logan" "#3498db" = inl IntegrityError
      <-> (exists p, In p (players sample_db) /\ pl_id p = 2)
          /\ exists q, In q (players sample_db) /\ pl_id q <> 2
                       /\ pl_name q = "Logan"%string).
Proof.
  split; [exact sample_db_keys |].
  destruct (update_player_unique sample_db 2 "Logan" "#3498db"
              sample_db_keys) as [Hiff _].
  exact Hiff.
Defined.

Example update_player_name_taken :
  update_player sample_db 2 "Logan" "#3498db" = inl IntegrityError.
Proof. reflexivity. Qed.

(** ** Seeding the database *)

Lemma store_seed_bets_players (now : string)
    (seeds : list (Z * Z * string * Z * Z * Z * string)) (db : Database) :
  players (fold_left (store_seed_bet now) seeds db) = players db.
Proof.
  revert db. induction seeds as [| row t IH]; intros db; simpl;
    [reflexivity |].
  rewrite IH. destruct row as [[[[[[wk pid] desc] odds] stk] triple] res].
  reflexivity.
Qed.

Lemma store_seed_bets_player_ids (now : string)
    (seeds : list (Z * Z * string * Z * Z * Z * string)) (db : Database) :
  map sb_player_id (bets (fold_left (store_seed_bet now) seeds db))
  = map sb_player_id (bets db) ++ map seed_player_id seeds.
Proof.
  revert db. induction seeds as [| row t IH]; intros db; simpl.
  - now rewrite app_nil_r.
  - rewrite IH. destruct row as [[[[[[wk pid] desc] odds] stk] triple] res].
    simpl. rewrite map_app, <- app_assoc. reflexivity.
Qed.

Lemma add_player_grows (db : Database) (name color : string) :
  players_seq db <= players_seq (fst (add_player db name color))
  /\ (List.length (players db)
      <= List.length (players (fst (add_player db name color))))%nat
  /\ Forall (fun p => In p (players db) \/ players_seq db < pl_id p)
       (players (fst (add_player db name color))).
Proof.
  unfold add_player.
  destruct (existsb _ (players db)); simpl.
  - split; [lia |]. split; [lia |].
    apply Forall_forall. intros p Hp. now left.
  - split; [unfold next_rowid; lia |].
    split; [rewrite length_app; simpl; lia |].
    apply Forall_app. split.
    + apply Forall_forall. intros p Hp. now left.
    + constructor; [| constructor]. right. simpl. unfold next_rowid. lia.
Qed.

Lemma store_seed_players_grow (names : list (string * string))
    (db : Database) :
  players_seq db <= players_seq (fold_left store_seed_player names db)
  /\ (List.length (players db)
      <= List.length (players (fold_left store_seed_player names db)))%nat
  /\ Forall (fun p => In p (players db) \/ players_seq db < pl_id p)
       (players (fold_left store_seed_player names db)).
Proof.
  revert db. induction names as [| nc t IH]; intros db; simpl.
  - split; [lia |]. split; [lia |].
    apply Forall_forall. intros p Hp. now left.
  - destruct (IH (store_seed_player db nc)) as [Hseq [Hlen Hall]].
    destruct (add_player_grows db (fst nc) (snd nc)) as [Hseq1 [Hlen1 Hall1]].
    fold (store_seed_player db nc) in Hseq1, Hlen1, Hall1.
    split; [lia |]. split; [lia |].
    rewrite Forall_forall in *. intros p Hp.
    destruct (Hall p Hp) as [Hin | Hlt]; [| right; lia].
    exact (Hall1 p Hin).
Qed.

Lemma seeded_players_nonempty (db : Database) :
  players db = [] ->
  players (fold_left store_seed_player seed_players db) <> [].
Proof.
  intros Hempty E.
  destruct (store_seed_players_grow
              [("Caroline", "#3498db"); ("James", "#2ecc71");
               ("Scippy", "#f39c12")]%string
              (store_seed_player db ("Logan", "#e74c3c")%string))
    as [_ [Hlen _]].
  change (fold_left store_seed_player
            [("Caroline", "#3498db"); ("James", "#2ecc71");
             ("Scippy", "#f39c12")]%string
            (store_seed_player db ("Logan", "#e74c3c")%string))
    with (fold_left store_seed_player seed_players db) in Hlen.
  rewrite E in Hlen.
  unfold store_seed_player, add_player in Hlen.
  rewrite Hempty in Hlen. simpl in Hlen. lia.
Qed.

(** [init_database] may be called on every run: a second call changes
    nothing, whatever the database was before the first. *)
Theorem init_database_idempotent (db : Database) (now now' : string) :
  init_database (init_database db now) now' = init_database db now.
Proof.
  unfold init_database at 1.
  destruct (players (init_database db now)) eqn:E; [| reflexivity].
  exfalso. unfold init_database in E.
  destruct (players db) eqn:Ep; [| congruence].
  rewrite store_seed_bets_players in E.
  now apply (seeded_players_nonempty db Ep).
Qed.

Lemma bets_join_players_disjoint (db : Database) :
  (forall b p, In b (bets db) -> In p (players db) ->
               pl_id p <> sb_player_id b) ->
  bets_join_players db = [].
Proof.
  intros Hdis. unfold bets_join_players.
  induction (bets db) as [| b t IH]; simpl; [reflexivity |].
  rewrite IH by (intros b' p Hb' Hp; apply Hdis; [now right | exact Hp]).
  rewrite app_nil_r.
  rewrite filter_none; [reflexivity |].
  intros p Hp. apply Z.eqb_neq. apply Hdis; [now left | exact Hp].
Qed.

(** X30: Seeding a database that was emptied after an earlier seeding gives the
    four players ids above 4 ([AUTOINCREMENT] does not reuse ids), while the
    forty seed bets name the players 1 to 4: no listing shows any bet. *)
Theorem init_database_reseed (db : Database) (now : string)
    (wk pid : option Z) (bet_type start_date end_date : option string) :
  players db = [] -> bets db = [] -> 4 <= players_seq db ->
  Forall (fun p => 4 < pl_id p) (players (init_database db now))
  /\ Forall (fun b => 1 <= sb_player_id b <= 4) (bets (init_database db now))
  /\ List.length (bets (init_database db now)) = 40%nat
  /\ get_bets (init_database db now) wk pid bet_type start_date end_date
     = [].
Proof.
  intros Hp Hb Hseq. unfold init_database. rewrite Hp.
  set (seeded := fold_left store_seed_player seed_players db).
  assert (Hplayers : Forall (fun p => 4 < pl_id p)
                       (players (fold_left (store_seed_bet now) seed_bets
                                   seeded))).
  { rewrite store_seed_bets_players.
    destruct (store_seed_players_grow seed_players db) as [_ [_ Hall]].
    fold seeded in Hall. rewrite Forall_forall in *. intros p Hin.
    destruct (Hall p Hin) as [Hold | Hnew]; [| lia].
    rewrite Hp in Hold. contradiction. }
  assert (Hids : map sb_player_id
                   (bets (fold_left (store_seed_bet now) seed_bets seeded))
                 = map seed_player_id seed_bets).
  { rewrite store_seed_bets_player_ids.
    assert (Hbs : bets seeded = bets db).
    { unfold seeded. clear. generalize seed_players. intros names.
      revert db. induction names as [| nc t IH]; intros db; simpl;
        [reflexivity |].
      rewrite IH. unfold store_seed_player, add_player.
      destruct (existsb _ (players db)); reflexivity. }
    rewrite Hbs, Hb. reflexivity. }
  assert (Hbets : Forall (fun b => 1 <= sb_player_id b <= 4)
                    (bets (fold_left (store_seed_bet now) seed_bets
                             seeded))).
  { apply Forall_forall. intros b Hin.
    apply (in_map sb_player_id) in Hin. rewrite Hids in Hin.
    simpl in Hin. intuition lia. }
  split; [exact Hplayers |]. split; [exact Hbets |]. split.
  - rewrite <- (length_map sb_player_id), Hids. reflexivity.
  - unfold get_bets. rewrite bets_join_players_disjoint; [reflexivity |].
    intros b p Hin Hpin. rewrite Forall_forall in Hplayers, Hbets.
    specialize (Hplayers p Hpin). specialize (Hbets b Hin). lia.
Qed.

Lemma init_database_reseed_witness :
  players (reset_database (init_database new_database "t0")) = []
  /\ bets (reset_database (init_database new_database "t0")) = []
  /\ 4 <= players_seq (reset_database (init_database new_database "t0"))
  /\ get_bets
       (init_database (reset_database (init_database new_database "t0"))
          "t1")
       None None None None None
     = [].
Proof.
  split; [reflexivity |]. split; [reflexivity |].
  split; [discriminate |].
  apply (init_database_reseed
           (reset_database (init_database new_database "t0")) "t1"
           None None None None None).
  - reflexivity.
  - reflexivity.
  - discriminate.
Defined.

(** On a database that was never written the same seeding lists all forty
    bets, five per player and week with exactly one triple among them. *)
Example init_database_fresh (now : string) :
  List.length (get_bets (init_database new_database now)
                 None None None None None) = 40%nat
  /\ forall w p, In w [1; 2] -> In p [1; 2; 3; 4] ->
       List.length (get_bets (init_database new_database now)
                      (Some w) (Some p) None None None) = 5%nat
       /\ triples_in (get_bets (init_database new_database now)
                        (Some w) (Some p) None None None) = 1%nat.
Proof.
  split; [vm_compute; reflexivity |].
  intros w p Hw Hp. simpl in Hw, Hp.
  destruct Hw as [<- | [<- | []]];
    destruct Hp as [<- | [<- | [<- | [<- | []]]]];
    split; vm_compute; reflexivity.
Qed.

(** ** Grading and editing a bet *)

Lemma update_bet_result_join (db : Database) (now : string) (i : Z)
    (res : string) :
  bets_join_players (update_bet_result db now i res)
  = map (graded_row i res now) (bets_join_players db).
Proof.
  unfold bets_join_players, update_bet_result, with_bets. simpl.
  induction (bets db) as [| b t IH]; simpl; [reflexivity |].
  rewrite map_app, IH. f_equal.
  rewrite map_map. unfold graded_row.
  destruct (sb_id b =? i) eqn:E; simpl.
  - apply map_ext. intros p. simpl. now rewrite E.
  - apply map_ext. intros p. simpl. now rewrite E.
Qed.

Lemma graded_row_filter (i : Z) (res now : string) (wk pid : option Z)
    (bet_type start_date end_date : option string) (r : Bet) :
  bet_filter wk pid bet_type start_date end_date (graded_row i res now r)
  = bet_filter wk pid bet_type start_date end_date r.
Proof. unfold graded_row. destruct (id r =? i); reflexivity. Qed.

Lemma graded_row_order (i : Z) (res now : string) (a b : Bet) :
  key_leb (bet_order (graded_row i res now a))
          (bet_order (graded_row i res now b))
  = key_leb (bet_order a) (bet_order b).
Proof.
  unfold graded_row.
  destruct (id a =? i), (id b =? i); reflexivity.
Qed.

(** X21: [update_bet_result] changes the result (and the update time) of the
    bet with that id and nothing else: every listing holds the same rows
    in the same order, that bet regraded; an id that is not in the table
    changes nothing in the listing. *)
Theorem update_bet_result_listing (db : Database) (now : string) (i : Z)
    (res : string) (wk pid : option Z)
    (bet_type start_date end_date : option string) :
  players (update_bet_result db now i res) = players db
  /\ get_bets (update_bet_result db now i res) wk pid bet_type start_date
       end_date
     = map (graded_row i res now)
         (get_bets db wk pid bet_type start_date end_date)
  /\ (~ In i (map sb_id (bets db)) ->
      get_bets (update_bet_result db now i res) wk pid bet_type start_date
        end_date
      = get_bets db wk pid bet_type start_date end_date).
Proof.
  assert (Hl : get_bets (update_bet_result db now i res) wk pid bet_type
                 start_date end_date
               = map (graded_row i res now)
                   (get_bets db wk pid bet_type start_date end_date)).
  { unfold get_bets. rewrite update_bet_result_join, filter_map_swap.
    rewrite (filter_ext _ _ (graded_row_filter i res now wk pid bet_type
                               start_date end_date)).
    symmetry. apply map_stable_sort. apply graded_row_order. }
  split; [reflexivity |]. split; [exact Hl |].
  intros Hno. rewrite Hl.
  rewrite <- (map_id (get_bets db wk pid bet_type start_date end_date)) at 2.
  apply map_ext_in. intros r Hr.
  apply In_get_bets in Hr. destruct Hr as [Hr _].
  apply In_bets_join_players in Hr. destruct Hr as [b [p [Hb [_ [_ ->]]]]].
  unfold graded_row. simpl.
  destruct (Z.eqb_spec (sb_id b) i) as [E | _]; [| reflexivity].
  exfalso. apply Hno. rewrite <- E. now apply in_map.
Qed.

(** X22: [update_bet] stores what it is given without a check: setting a bet of
    an existing player to a win at odds 0 makes the season standings
    computed from the full listing raise. *)
Theorem update_bet_unchecked (sort : list Standing -> list Standing)
    (db : Database) (now : string) (b : StoredBet) (p : Player)
    (desc : string) (stk : Qc) (triple : bool) :
  In b (bets db) -> In p (players db) -> pl_id p = sb_player_id b ->
  has_zero_odds_win
    (get_bets (update_bet db now (sb_id b) desc 0 stk triple "win")
       None None None None None)
  /\ snd (season_standings sort
            (frame_of
               (get_bets (update_bet db now (sb_id b) desc 0 stk triple "win")
                  None None None None None)))
     = Raise ZeroDivisionError.
Proof.
  intros Hb Hp Ep.
  set (b' := {| sb_id := sb_id b; sb_week := sb_week b;
                sb_player_id := sb_player_id b;
                sb_description := desc; sb_american_odds := 0;
                sb_stake := stk; sb_is_triple := int_of_bool triple;
                sb_result := "win"; sb_created_at := sb_created_at b;
                sb_updated_at := now |}).
  assert (Hin : In (join_row b' p)
                  (get_bets (update_bet db now (sb_id b) desc 0 stk triple
                               "win") None None None None None)).
  { apply In_get_bets. split; [| reflexivity].
    apply In_bets_join_players. exists b', p.
    split; [| split; [exact Hp | split; [exact Ep | reflexivity]]].
    unfold update_bet, with_bets. simpl.
    apply in_map_iff. exists b. split; [| exact Hb].
    now rewrite Z.eqb_refl. }
  assert (Hbad : has_zero_odds_win
                   (get_bets (update_bet db now (sb_id b) desc 0 stk triple
                                "win") None None None None None)).
  { exists (join_row b' p). split; [exact Hin |]. split; reflexivity. }
  split; [exact Hbad |].
  unfold season_standings, frame_of. cbn [rows].
  destruct (get_bets (update_bet db now (sb_id b) desc 0 stk triple "win")
              None None None None None) as [| r t] eqn:El;
    [contradiction |].
  rewrite (proj2 (apply_rows_raises (r :: t)) Hbad). reflexivity.
Qed.

Lemma update_bet_unchecked_witness :
  snd (season_standings sort_desc_stable
         (frame_of
            (get_bets (update_bet sample_db "now" 1 "Chiefs -7.5" 0
                         (Z2Qc 100) false "win")
               None None None None None)))
  = Raise ZeroDivisionError.
Proof.
  apply (update_bet_unchecked sort_desc_stable sample_db "now"
           {| sb_id := 1; sb_week := 1; sb_player_id := 1;
              sb_description := "Chiefs -7.5"; sb_american_odds := -110;
              sb_stake := Z2Qc 100; sb_is_triple := 0; sb_result := "win";
              sb_created_at := "2024-09-01 10:00:00";
              sb_updated_at := "2024-09-01 10:00:00" |}
           {| pl_id := 1; pl_name := "Logan"; pl_color := "#e74c3c" |}
           "Chiefs -7.5" (Z2Qc 100) false).
  - left. reflexivity.
  - left. reflexivity.
  - reflexivity.
Defined.
